(** * Indexed propositional DAG (PDAG) of the SCRAM fault-tree engine

    A shallow embedding of [src/pdag.h]: the node layer ([Node],
    [NodeParentManager]), the gate layer ([Gate], its argument containers and
    [Gate::AddArg]) and the graph layer ([Pdag], its index generator and its
    NULL-gate registrar), together with the properties the specification
    states about them.

    Conventions of the embedding.
    - C++ [int] values are integers of [Z].  The code only stores, compares
      and negates them; the one place where it increments one
      ([NodeIndexGenerator]) carries the overflow check explicitly, signed
      overflow being undefined in C++.
    - Objects live in a store ([heap]) owned by the graph and are referred to
      by address ([ptr]).  A [shared_ptr] or a [weak_ptr] is an address;
      the store never frees an object, and what the destructor of a gate
      does to its arguments is an operation of its own ([Gate_destroy]).
    - [ext::linear_map] is an insertion-ordered association list;
      [boost::container::flat_set<int>] is a finite set of integers.
    - An [assert] that fails ends the call with [Abort], which names the
      assertion.  The member functions are [noexcept] and return nothing, so
      there is no other way for a call to fail. *)

From stdpp Require Import base option list gmap sets.
From Stdlib Require Import ZArith Lia.

Local Open Scope Z_scope.

(** ** Outcomes of a call *)

Inductive Assertion :=
  | TimePositive      (* Node::Visit: assert(time > 0) *)
  | ParentExists      (* EraseParent: assert(parents_.count(index)) *)
  | ParentAbsent      (* AddParent: @pre the parent is not in the container *)
  | IndexNonzero      (* AddArg: assert(index) *)
  | IndexMatchesArg   (* AddArg: assert(std::abs(index) == arg->index()) *)
  | StateNormal       (* AddArg: assert(state_ == kNormalState) *)
  | NotNullEmpty      (* AddArg: NOT and NULL gates take one argument *)
  | XorArity          (* AddArg: XOR gates take two arguments *)
  | VoteNonneg        (* AddArg: assert(vote_number_ >= 0) *)
  | ArgIsChild        (* GetArgSign: assert(arg->parents().count(index())) *)
  | NullTypeExpected  (* NullGateRegistrar: assert(gate->type() == kNull) *)
  | ArgExists         (* EraseArg: the argument must exist *)
  | IndexOverflow     (* ++node_index_ past INT_MAX *)
  | ModuleChanges     (* Gate::module(bool): assert(module_ != flag) *)
  | ParentsEmpty      (* ~Gate: assert(Node::parents().empty()) *)
  | BadPointer.       (* an address that holds no object of the needed class *)

Inductive Res (A : Type) :=
  | Ok (a : A)
  | Abort (e : Assertion).
Arguments Ok {A} a.
Arguments Abort {A} e.

#[global] Instance Assertion_eq_dec : EqDecision Assertion.
Proof. solve_decision. Defined.

#[global] Instance Res_ret : MRet Res := fun A a => Ok a.
#[global] Instance Res_bind : MBind Res := fun A B f m =>
  match m with
  | Ok a => f a
  | Abort e => Abort e
  end.

(** [check b e] is [assert(b)], the assertion being named [e]. *)
Definition check (b : bool) (e : Assertion) : Res unit :=
  if b then Ok () else Abort e.

(** ** Data model *)

(** Addresses of the objects of a graph. *)
Abbreviation ptr := nat (only parsing).

(** [ext::linear_map<int, P, ext::MoveEraser>]: the entries in insertion
    order.  Only the map interface the header uses is modelled. *)
Module linear_map.
Abbreviation t := (list (Z * nat)) (only parsing).

Definition count (m : t) (key : Z) : bool := bool_decide (key ∈ m.*1).

Fixpoint find (m : t) (key : Z) : option ptr :=
  match m with
  | [] => None
  | (k, v) :: m' => if decide (k = key) then Some v else find m' key
  end.

Fixpoint erase (m : t) (key : Z) : t :=
  match m with
  | [] => []
  | (k, v) :: m' => if decide (k = key) then m' else (k, v) :: erase m' key
  end.

(* [data().emplace_back(key, value)] *)
Definition emplace_back (m : t) (key : Z) (v : ptr) : t := m ++ [(key, v)].
End linear_map.

Inductive Operator :=
  | kAnd | kOr | kVote | kXor | kNot | kNand | kNor | kNull.

Inductive State :=
  | kNormalState | kNullState | kUnityState.

#[global] Instance Operator_eq_dec : EqDecision Operator.
Proof. solve_decision. Defined.
#[global] Instance State_eq_dec : EqDecision State.
Proof. solve_decision. Defined.

(** The data members of [class Gate]. *)
Record Gate := mkGate {
  type_ : Operator;
  state_ : State;
  mark_ : bool;
  module_ : bool;
  coherent_ : bool;
  vote_number_ : Z;
  descendant_ : Z;
  ancestor_ : Z;
  min_time_ : Z;
  max_time_ : Z;
  args_ : gset Z;                    (* ArgSet *)
  gate_args_ : linear_map.t;         (* ArgMap<Gate> *)
  variable_args_ : linear_map.t;     (* ArgMap<Variable> *)
  constant_args_ : linear_map.t      (* ArgMap<Constant> *)
}.

(** The three classes derived from [Node]. *)
Inductive NodeKind :=
  | KConstant
  | KVariable
  | KGate (d : Gate).

(** The data members of [NodeParentManager] and [Node], and the derived
    part of the object. *)
Record Node := mkNode {
  parents_ : linear_map.t;           (* ParentMap: parent index, weak ptr *)
  index_ : Z;
  order_ : Z;
  visits_ : Z * Z * Z;               (* int visits_[3] *)
  opti_value_ : Z;
  pos_count_ : Z;
  neg_count_ : Z;
  kind : NodeKind
}.

(** The data members of [class Pdag] and the objects of the graph. *)
Record Pdag := mkPdag {
  node_index_ : Z;
  complement_ : bool;
  graph_coherent_ : bool;
  normal_ : bool;
  register_null_gates_ : bool;
  root_ : option ptr;
  constant_ : ptr;
  basic_events_ : list nat;          (* IndexMap: identities of basic events *)
  const_gates_ : list ptr;
  null_gates_ : list ptr;
  heap : list Node
}.

(** *** Field updates *)

Definition set_parents (f : linear_map.t → linear_map.t) (n : Node) : Node :=
  mkNode (f (parents_ n)) (index_ n) (order_ n) (visits_ n) (opti_value_ n)
         (pos_count_ n) (neg_count_ n) (kind n).

Definition set_visits (v : Z * Z * Z) (n : Node) : Node :=
  mkNode (parents_ n) (index_ n) (order_ n) v (opti_value_ n)
         (pos_count_ n) (neg_count_ n) (kind n).

Definition set_counts (p q : Z) (n : Node) : Node :=
  mkNode (parents_ n) (index_ n) (order_ n) (visits_ n) (opti_value_ n)
         p q (kind n).

Definition set_gate (f : Gate → Gate) (n : Node) : Node :=
  mkNode (parents_ n) (index_ n) (order_ n) (visits_ n) (opti_value_ n)
         (pos_count_ n) (neg_count_ n)
         (match kind n with KGate d => KGate (f d) | k => k end).

Definition set_type (t : Operator) (d : Gate) : Gate :=
  mkGate t (state_ d) (mark_ d) (module_ d) (coherent_ d) (vote_number_ d)
         (descendant_ d) (ancestor_ d) (min_time_ d) (max_time_ d)
         (args_ d) (gate_args_ d) (variable_args_ d) (constant_args_ d).

Definition set_state (st : State) (d : Gate) : Gate :=
  mkGate (type_ d) st (mark_ d) (module_ d) (coherent_ d) (vote_number_ d)
         (descendant_ d) (ancestor_ d) (min_time_ d) (max_time_ d)
         (args_ d) (gate_args_ d) (variable_args_ d) (constant_args_ d).

Definition set_vote_number (k : Z) (d : Gate) : Gate :=
  mkGate (type_ d) (state_ d) (mark_ d) (module_ d) (coherent_ d) k
         (descendant_ d) (ancestor_ d) (min_time_ d) (max_time_ d)
         (args_ d) (gate_args_ d) (variable_args_ d) (constant_args_ d).

Definition set_args (a : gset Z) (ga va ca : linear_map.t) (d : Gate) : Gate :=
  mkGate (type_ d) (state_ d) (mark_ d) (module_ d) (coherent_ d)
         (vote_number_ d) (descendant_ d) (ancestor_ d) (min_time_ d)
         (max_time_ d) a ga va ca.

Definition set_heap (h : list Node) (s : Pdag) : Pdag :=
  mkPdag (node_index_ s) (complement_ s) (graph_coherent_ s) (normal_ s)
         (register_null_gates_ s) (root_ s) (constant_ s) (basic_events_ s)
         (const_gates_ s) (null_gates_ s) h.

Definition set_node_index (i : Z) (s : Pdag) : Pdag :=
  mkPdag i (complement_ s) (graph_coherent_ s) (normal_ s)
         (register_null_gates_ s) (root_ s) (constant_ s) (basic_events_ s)
         (const_gates_ s) (null_gates_ s) (heap s).

Definition set_basic_events (l : list nat) (s : Pdag) : Pdag :=
  mkPdag (node_index_ s) (complement_ s) (graph_coherent_ s) (normal_ s)
         (register_null_gates_ s) (root_ s) (constant_ s) l
         (const_gates_ s) (null_gates_ s) (heap s).

Definition set_const_gates (l : list ptr) (s : Pdag) : Pdag :=
  mkPdag (node_index_ s) (complement_ s) (graph_coherent_ s) (normal_ s)
         (register_null_gates_ s) (root_ s) (constant_ s) (basic_events_ s)
         l (null_gates_ s) (heap s).

Definition set_null_gates (l : list ptr) (s : Pdag) : Pdag :=
  mkPdag (node_index_ s) (complement_ s) (graph_coherent_ s) (normal_ s)
         (register_null_gates_ s) (root_ s) (constant_ s) (basic_events_ s)
         (const_gates_ s) l (heap s).

Definition set_register_null_gates (b : bool) (s : Pdag) : Pdag :=
  mkPdag (node_index_ s) (complement_ s) (graph_coherent_ s) (normal_ s)
         b (root_ s) (constant_ s) (basic_events_ s)
         (const_gates_ s) (null_gates_ s) (heap s).

(** *** Access to the objects of the graph *)

(** Dereference a [NodePtr]. *)
Definition get_node (s : Pdag) (p : ptr) : Res Node :=
  match heap s !! p with
  | Some n => Ok n
  | None => Abort BadPointer
  end.

(** Dereference a [GatePtr]: the base part and the gate part. *)
Definition get_gate (s : Pdag) (g : ptr) : Res (Node * Gate) :=
  match heap s !! g with
  | Some n => match kind n with
              | KGate d => Ok (n, d)
              | _ => Abort BadPointer
              end
  | None => Abort BadPointer
  end.

(** Assignment to members of the object at [p], in place. *)
Definition upd (p : ptr) (f : Node → Node) (s : Pdag) : Pdag :=
  set_heap (alter f p (heap s)) s.

Definition upd_gate (g : ptr) (f : Gate → Gate) (s : Pdag) : Pdag :=
  upd g (set_gate f) s.

(** ** Node layer *)

(** [NodeParentManager::EraseParent] *)
Definition EraseParent (s : Pdag) (p : ptr) (index : Z) : Res Pdag :=
  n ← get_node s p;
  check (linear_map.count (parents_ n) index) ParentExists;;
  Ok (upd p (set_parents (λ m, linear_map.erase m index)) s).

(** Modelled from the spec: [NodeParentManager::AddParent] is declared in
    the header and defined elsewhere.  It "inserts a weak back-reference
    keyed by the gate's positive index.  Precondition: no entry for that
    index already exists." *)
Definition AddParent (s : Pdag) (p : ptr) (gate : ptr) : Res Pdag :=
  '(G, _) ← get_gate s gate;
  n ← get_node s p;
  check (negb (linear_map.count (parents_ n) (index_ G))) ParentAbsent;;
  Ok (upd p (set_parents (λ m, linear_map.emplace_back m (index_ G) gate)) s).

(** [Node::Visit] *)
Definition Visit (n : Node) (time : Z) : Res (bool * Node) :=
  check (bool_decide (time > 0)) TimePositive;;
  let '(v0, v1, v2) := visits_ n in
  if bool_decide (v0 = 0) then Ok (false, set_visits (time, v1, v2) n)
  else if bool_decide (v1 = 0) then Ok (false, set_visits (v0, time, v2) n)
  else Ok (true, set_visits (v0, v1, time) n).

Definition EnterTime (n : Node) : Z := (visits_ n).1.1.
Definition ExitTime (n : Node) : Z := (visits_ n).1.2.
Definition LastVisit (n : Node) : Z :=
  if bool_decide ((visits_ n).2 ≠ 0) then (visits_ n).2 else (visits_ n).1.2.
Definition Revisited (n : Node) : bool := bool_decide ((visits_ n).2 ≠ 0).
Definition Visited (n : Node) : bool := bool_decide ((visits_ n).1.1 ≠ 0).
Definition ClearVisits (n : Node) : Node := set_visits (0, 0, 0) n.

Definition AddCount (positive : bool) (n : Node) : Node :=
  if positive then set_counts (pos_count_ n + 1) (neg_count_ n) n
  else set_counts (pos_count_ n) (neg_count_ n + 1) n.
Definition ResetCount (n : Node) : Node := set_counts 0 0 n.

(** The calls [Visit(t1); Visit(t2); ...] on one node, with what each
    returned. *)
Fixpoint Visits (n : Node) (times : list Z) : Res (list bool * Node) :=
  match times with
  | [] => Ok ([], n)
  | t :: times' =>
      '(b, n1) ← Visit n t;
      '(bs, n2) ← Visits n1 times';
      Ok (b :: bs, n2)
  end.

(** ** Gate layer *)

Definition IsConstant (d : Gate) : bool := bool_decide (state_ d ≠ kNormalState).

(** All the argument entries of a gate, in the order gates, variables,
    constants. *)
Definition all_args (d : Gate) : linear_map.t :=
  gate_args_ d ++ variable_args_ d ++ constant_args_ d.

(** [Gate::GetArgSign] *)
Definition GetArgSign (s : Pdag) (g : ptr) (arg : ptr) : Res Z :=
  '(G, d) ← get_gate s g;
  A ← get_node s arg;
  check (linear_map.count (parents_ A) (index_ G)) ArgIsChild;;
  Ok (if bool_decide (index_ A ∈ args_ d) then 1 else -1).

(** [mutable_args<T>().data().emplace_back(index, arg)]: [T] is the class
    of the argument. *)
Definition emplace_arg (T : NodeKind) (index : Z) (arg : ptr) (d : Gate) : Gate :=
  match T with
  | KGate _ =>
      set_args (args_ d) (linear_map.emplace_back (gate_args_ d) index arg)
               (variable_args_ d) (constant_args_ d) d
  | KVariable =>
      set_args (args_ d) (gate_args_ d)
               (linear_map.emplace_back (variable_args_ d) index arg)
               (constant_args_ d) d
  | KConstant =>
      set_args (args_ d) (gate_args_ d) (variable_args_ d)
               (linear_map.emplace_back (constant_args_ d) index arg) d
  end.

(** [args_.insert(index)] *)
Definition insert_index (index : Z) (d : Gate) : Gate :=
  set_args ({[index]} ∪ args_ d) (gate_args_ d) (variable_args_ d)
           (constant_args_ d) d.

(** The last three statements of [Gate::AddArg]: the argument is new. *)
Definition InsertArg (s : Pdag) (g : ptr) (index : Z) (arg : ptr) : Res Pdag :=
  A ← get_node s arg;
  let s1 := upd_gate g (insert_index index) s in
  let s2 := upd_gate g (emplace_arg (kind A) index arg) s1 in
  AddParent s2 arg g.

(** The assertions of [Gate::AddArg], in the order of the code. *)
Definition AddArg_asserts (d : Gate) (index : Z) (A : Node) : Res unit :=
  check (bool_decide (index ≠ 0)) IndexNonzero;;
  check (bool_decide (Z.abs index = index_ A)) IndexMatchesArg;;
  check (bool_decide (state_ d = kNormalState)) StateNormal;;
  check (negb (bool_decide (type_ d = kNot ∨ type_ d = kNull)
               && negb (bool_decide (args_ d = ∅)))) NotNullEmpty;;
  check (negb (bool_decide (type_ d = kXor)
               && bool_decide (Z.of_nat (size (args_ d)) > 1))) XorArity;;
  check (bool_decide (vote_number_ d >= 0)) VoteNonneg.

(** [Gate::AddArg(int index, const std::shared_ptr<T>& arg)].  The two
    private member functions it hands over to are defined outside the
    header; the dispatch is stated for any two such functions. *)
Definition AddArgWith (ProcessDuplicateArg ProcessComplementArg : Pdag → ptr → Z → Res Pdag)
    (s : Pdag) (g : ptr) (index : Z) (arg : ptr) : Res Pdag :=
  '(G, d) ← get_gate s g;
  A ← get_node s arg;
  AddArg_asserts d index A;;
  if bool_decide (index ∈ args_ d) then ProcessDuplicateArg s g index
  else if bool_decide (- index ∈ args_ d) then ProcessComplementArg s g index
  else InsertArg s g index arg.

(** [child.erase_parent(index)] for each child of a list. *)
Fixpoint EraseParents (s : Pdag) (children : list ptr) (index : Z) : Res Pdag :=
  match children with
  | [] => Ok s
  | p :: children' => s1 ← EraseParent s p index; EraseParents s1 children' index
  end.

(** [child.add_parent(gate)] for each child of a list. *)
Fixpoint AddParents (s : Pdag) (children : list ptr) (gate : ptr) : Res Pdag :=
  match children with
  | [] => Ok s
  | p :: children' => s1 ← AddParent s p gate; AddParents s1 children' gate
  end.

Definition clear_args (d : Gate) : Gate := set_args ∅ nil nil nil d.

(** Modelled from the spec: [Gate::EraseAllArgs] is declared in the header
    ("Clears all the arguments of this gate"; the destructor uses it to
    destruct "parent information from the arguments") and defined elsewhere.
    Parent entries follow the arguments: every child loses its entry for
    this gate. *)
Definition EraseAllArgs (s : Pdag) (g : ptr) : Res Pdag :=
  '(G, d) ← get_gate s g;
  s1 ← EraseParents s (all_args d).*2 (index_ G);
  Ok (upd_gate g clear_args s1).

(** Modelled from the spec: [Gate::MakeConstant] is declared in the header
    and defined elsewhere: "force the state to Unity (true) or Null (false)
    and clear args". *)
Definition MakeConstant (s : Pdag) (g : ptr) (state : bool) : Res Pdag :=
  '(G, d) ← get_gate s g;
  check (bool_decide (state_ d = kNormalState)) StateNormal;;
  let s1 := upd_gate g (set_state (if state then kUnityState else kNullState)) s in
  EraseAllArgs s1 g.

Definition erase_index (index : Z) (d : Gate) : Gate :=
  if linear_map.count (gate_args_ d) index then
    set_args (args_ d ∖ {[index]}) (linear_map.erase (gate_args_ d) index)
             (variable_args_ d) (constant_args_ d) d
  else if linear_map.count (variable_args_ d) index then
    set_args (args_ d ∖ {[index]}) (gate_args_ d)
             (linear_map.erase (variable_args_ d) index) (constant_args_ d) d
  else
    set_args (args_ d ∖ {[index]}) (gate_args_ d) (variable_args_ d)
             (linear_map.erase (constant_args_ d) index) d.

(** Modelled from the spec: [Gate::EraseArg] is declared in the header and
    defined elsewhere: it "removes i from args, removes (i, child) from the
    typed map, and calls child.erase_parent(self.index)"; erasing an
    argument that does not exist is a precondition violation. *)
Definition EraseArg (s : Pdag) (g : ptr) (index : Z) : Res Pdag :=
  '(G, d) ← get_gate s g;
  check (bool_decide (index ∈ args_ d)) ArgExists;;
  match linear_map.find (all_args d) index with
  | Some child => EraseParent (upd_gate g (erase_index index) s) child (index_ G)
  | None => Abort ArgExists
  end.

Definition negate_keys (m : linear_map.t) : linear_map.t :=
  (λ e : Z * ptr, (- e.1, e.2)) <$> m.

Definition invert (d : Gate) : Gate :=
  set_args (set_map Z.opp (args_ d)) (negate_keys (gate_args_ d))
           (negate_keys (variable_args_ d)) (negate_keys (constant_args_ d)) d.

(** Modelled from the spec: [Gate::InvertArgs] is declared in the header
    and defined elsewhere: "flip the sign of every argument index.  The
    typed maps are updated in place; parent back-references are unaffected
    because they are keyed by magnitude." *)
Definition InvertArgs (s : Pdag) (g : ptr) : Res Pdag :=
  '(_, _) ← get_gate s g;
  Ok (upd_gate g invert s).

(** ** Graph layer *)

Definition INT_MAX : Z := 2147483647.

(** [Pdag::NodeIndexGenerator::operator()]: [return ++graph->node_index_]. *)
Definition NodeIndexGenerator (graph : Pdag) : Res (Z * Pdag) :=
  check (bool_decide (node_index_ graph < INT_MAX)) IndexOverflow;;
  Ok (node_index_ graph + 1, set_node_index (node_index_ graph + 1) graph).

(** [Pdag::NullGateRegistrar::operator()] *)
Definition NullGateRegistrar (s : Pdag) (gate : ptr) (constant : bool) : Res Pdag :=
  '(_, d) ← get_gate s gate;
  check (bool_decide (type_ d = kNull)) NullTypeExpected;;
  if negb (register_null_gates_ s) then Ok s
  else if constant then Ok (set_const_gates (const_gates_ s ++ [gate]) s)
  else Ok (set_null_gates (null_gates_ s ++ [gate]) s).

(** Modelled from the spec: the constructor of [Node] is declared
    in the header and defined elsewhere.  A node takes the next index of
    its graph's generator ("friend class Node: access for a new index
    request"); it has no parents and its scratch fields are clear. *)
Definition Node_new (s : Pdag) (k : NodeKind) : Res (ptr * Pdag) :=
  '(i, s1) ← NodeIndexGenerator s;
  Ok (length (heap s1), set_heap (heap s1 ++ [mkNode [] i 0 (0, 0, 0) 0 0 0 k]) s1).

(** Modelled from the spec: the constructor of [Gate] is declared in the header and defined elsewhere.  A new gate is in
    Normal state and has no arguments. *)
Definition Gate_new (s : Pdag) (type : Operator) : Res (ptr * Pdag) :=
  Node_new s (KGate (mkGate type kNormalState false false false 0 0 0 0 0 ∅ nil nil nil)).

Definition Variable_new (s : Pdag) : Res (ptr * Pdag) := Node_new s KVariable.

Definition Constant_new (s : Pdag) : Res (ptr * Pdag) := Node_new s KConstant.

(** The graph before its first node. *)
Definition Pdag_blank : Pdag :=
  mkPdag 0 false true true false None 0%nat nil nil nil nil.

(** Modelled from the spec: the constructor [Pdag::Pdag()] is declared in
    the header and defined elsewhere.  "The constant TRUE node is created
    and takes index 1, and the root is left unset." *)
Definition Pdag_new : Res Pdag :=
  '(c, s) ← Constant_new Pdag_blank;
  Ok (mkPdag (node_index_ s) (complement_ s) (graph_coherent_ s) (normal_ s)
             (register_null_gates_ s) (root_ s) c (basic_events_ s)
             (const_gates_ s) (null_gates_ s) (heap s)).

(** Modelled from the spec: the variable-gathering pass of the translator
    creates a [Variable] for a basic event not met before and maps it into
    the basic-event index table. *)
Definition GatherVariable (s : Pdag) (basic_event : nat) : Res (ptr * Pdag) :=
  '(v, s1) ← Variable_new s;
  Ok (v, set_basic_events (basic_events_ s1 ++ [basic_event]) s1).

(** ** The local rewrites of [AddArg], from the specification

    [ProcessDuplicateArg], [ProcessVoteGateDuplicateArg] and
    [ProcessComplementArg] are declared in the header and defined elsewhere;
    what they do is taken from the rules of the specification. *)

Definition keep_key (index : Z) (m : linear_map.t) : linear_map.t :=
  filter (λ e : Z * ptr, e.1 = index) m.

Definition drop_key (index : Z) (m : linear_map.t) : linear_map.t :=
  filter (λ e : Z * ptr, e.1 ≠ index) m.

(** The helper gate of the VOTE duplicate rule: VOTE(k-1, S∖{ℓ}). *)
Definition vote_helper (d : Gate) (index : Z) (H : Gate) : Gate :=
  set_vote_number (vote_number_ d - 1)
    (set_args (args_ d ∖ {[index]}) (drop_key index (gate_args_ d))
              (drop_key index (variable_args_ d))
              (drop_key index (constant_args_ d)) H).

(** What is left of the VOTE gate itself: an OR over ℓ. *)
Definition vote_residue (index : Z) (d : Gate) : Gate :=
  set_type kOr
    (set_args {[index]} (keep_key index (gate_args_ d))
              (keep_key index (variable_args_ d))
              (keep_key index (constant_args_ d)) d).

(** Modelled from the spec: [Gate::ProcessVoteGateDuplicateArg].  "Adding a
    second copy of literal ℓ to a k-of-n VOTE over a set S creates a new
    helper gate H = VOTE(k−1, S∖{ℓ}); [...] the VOTE is replaced by an OR of
    ℓ and H.  The helper is inserted with a fresh index.  Edge cases: if
    k = 1 the duplicate simply absorbs; if k = n the result collapses to
    ℓ ∧ conjunction-of-the-rest." *)
Definition ProcessVoteGateDuplicateArg (s : Pdag) (g : ptr) (index : Z) : Res Pdag :=
  '(G, d) ← get_gate s g;
  if bool_decide (vote_number_ d = 1) then Ok s
  else if bool_decide (vote_number_ d = Z.of_nat (size (args_ d)))
  then Ok (upd_gate g (set_type kAnd) s)
  else
    '(h, s1) ← Gate_new s kVote;
    '(H, _) ← get_gate s1 h;
    let rest := (drop_key index (all_args d)).*2 in
    let s2 := upd_gate h (vote_helper d index) s1 in
    s3 ← AddParents s2 rest h;
    s4 ← EraseParents s3 rest (index_ G);
    let s5 := upd_gate g (vote_residue index) s4 in
    InsertArg s5 g (index_ H) h.

(** Modelled from the spec: [Gate::ProcessDuplicateArg].  "AND, OR, NAND,
    NOR: duplicate absorbs — do nothing.  NOT, NULL: forbidden by
    precondition.  XOR: x ⊕ x = FALSE → gate transitions to State = Null and
    erases all args.  VOTE: delegated to the VOTE duplicate handler." *)
Definition ProcessDuplicateArg (s : Pdag) (g : ptr) (index : Z) : Res Pdag :=
  '(_, d) ← get_gate s g;
  match type_ d with
  | kAnd | kOr | kNand | kNor => Ok s
  | kNot | kNull => Abort NotNullEmpty
  | kXor => MakeConstant s g false
  | kVote => ProcessVoteGateDuplicateArg s g index
  end.

(** Modelled from the spec: the VOTE case of [Gate::ProcessComplementArg].
    "The offending pair is removed and, if at least k−1 original arguments
    remain, the threshold is decremented by one and the gate becomes a fresh
    VOTE over the survivors; if not, the gate degenerates to OR of the
    survivors." *)
Definition ProcessVoteGateComplementArg (s : Pdag) (g : ptr) (index : Z) : Res Pdag :=
  '(_, d) ← get_gate s g;
  s1 ← EraseArg s g (- index);
  '(_, d1) ← get_gate s1 g;
  if bool_decide (vote_number_ d - 1 ≤ Z.of_nat (size (args_ d1)))
  then Ok (upd_gate g (set_vote_number (vote_number_ d - 1)) s1)
  else Ok (upd_gate g (set_type kOr) s1).

(** Modelled from the spec: [Gate::ProcessComplementArg].  "AND: State :=
    Null, args cleared.  OR: State := Unity, args cleared.  NAND: State :=
    Unity.  NOR: State := Null.  XOR: State := Unity.  VOTE: the gate is
    rewritten in place.  NOT, NULL: impossible by arity." *)
Definition ProcessComplementArg (s : Pdag) (g : ptr) (index : Z) : Res Pdag :=
  '(_, d) ← get_gate s g;
  match type_ d with
  | kAnd | kNor => MakeConstant s g false
  | kOr | kNand | kXor => MakeConstant s g true
  | kVote => ProcessVoteGateComplementArg s g index
  | kNot | kNull => Abort NotNullEmpty
  end.

(** [Gate::AddArg] with the rewrites of the specification. *)
Definition AddArg : Pdag → ptr → Z → ptr → Res Pdag :=
  AddArgWith ProcessDuplicateArg ProcessComplementArg.

(** [Gate::vote_number(int)] *)
Definition vote_number (s : Pdag) (g : ptr) (number : Z) : Res Pdag :=
  '(_, _) ← get_gate s g;
  Ok (upd_gate g (set_vote_number number) s).

(** Modelled from the spec: [Gate::type(Operator)] is declared in the
    header and defined elsewhere.  A gate that has just become a NULL-type
    gate is handed to the registrar of its graph, with the note whether its
    argument is the constant. *)
Definition type (s : Pdag) (g : ptr) (t : Operator) : Res Pdag :=
  '(_, d) ← get_gate s g;
  let s1 := upd_gate g (set_type t) s in
  if bool_decide (t = kNull)
  then NullGateRegistrar s1 g (bool_decide (constant_args_ d ≠ []))
  else Ok s1.

(** ** Life of a graph

    A graph is constructed with its constant; the translator first gathers
    the variables, then builds gates; from then on the graph is mutated
    through its gates, and new gates may appear at any time. *)

Inductive Mutation :=
  | MGate (t : Operator)                        (* a new gate *)
  | MAddArg (g : ptr) (index : Z) (arg : ptr)
  | MEraseArg (g : ptr) (index : Z)
  | MEraseAllArgs (g : ptr)
  | MMakeConstant (g : ptr) (state : bool)
  | MInvertArgs (g : ptr)
  | MType (g : ptr) (t : Operator)
  | MVoteNumber (g : ptr) (number : Z).

Definition mutate (s : Pdag) (m : Mutation) : Res Pdag :=
  match m with
  | MGate t => '(_, s1) ← Gate_new s t; Ok s1
  | MAddArg g index arg => AddArg s g index arg
  | MEraseArg g index => EraseArg s g index
  | MEraseAllArgs g => EraseAllArgs s g
  | MMakeConstant g state => MakeConstant s g state
  | MInvertArgs g => InvertArgs s g
  | MType g t => type s g t
  | MVoteNumber g number => vote_number s g number
  end.

Inductive Phase := Gathering | Building.

Inductive reachable : Phase → Pdag → Prop :=
  | reach_new s :
      Pdag_new = Ok s → reachable Gathering s
  | reach_gather s basic_event v s' :
      reachable Gathering s → GatherVariable s basic_event = Ok (v, s') →
      reachable Gathering s'
  | reach_build s :
      reachable Gathering s → reachable Building s
  | reach_mutate s m s' :
      reachable Building s → mutate s m = Ok s' → reachable Building s'.

(** The same life as a program: the basic events to gather, then the
    mutations, in order. *)
Fixpoint gather (s : Pdag) (basic_events : list nat) : Res Pdag :=
  match basic_events with
  | [] => Ok s
  | e :: basic_events' => '(_, s1) ← GatherVariable s e; gather s1 basic_events'
  end.

Fixpoint mutations (s : Pdag) (ms : list Mutation) : Res Pdag :=
  match ms with
  | [] => Ok s
  | m :: ms' => s1 ← mutate s m; mutations s1 ms'
  end.

Definition build (basic_events : list nat) (ms : list Mutation) : Res Pdag :=
  s0 ← Pdag_new; s1 ← gather s0 basic_events; mutations s1 ms.

(** ** Properties of a graph *)

(** The gate at [g] and its parts. *)
Definition gate_at (s : Pdag) (g : ptr) (G : Node) (d : Gate) : Prop :=
  heap s !! g = Some G ∧ kind G = KGate d.

(** No gate holds an argument together with its complement. *)
Definition no_complement_pair (a : gset Z) : Prop :=
  ∀ i : Z, 0 < i → ¬ (i ∈ a ∧ - i ∈ a).

Definition NoComplementPair (s : Pdag) : Prop :=
  ∀ g G d, gate_at s g G d → no_complement_pair (args_ d).

Definition is_variable (n : Node) : bool :=
  match kind n with KVariable => true | _ => false end.

Definition is_gate (n : Node) : bool :=
  match kind n with KGate _ => true | _ => false end.

Definition is_constant (n : Node) : bool :=
  match kind n with KConstant => true | _ => false end.

(** V, the number of variables of the graph. *)
Definition num_variables (s : Pdag) : nat :=
  length (filter (λ n, is_variable n = true) (heap s)).

(** Every argument index of the set has a magnitude a node of the graph
    may have. *)
Definition args_bounded (bound : Z) (a : gset Z) : Prop :=
  ∀ i : Z, i ∈ a → Z.abs i ≤ bound.

(** What the argument sets of a graph keep through every mutation: no
    complement pair, and no index beyond the last one handed out. *)
Definition arguments_sound (s : Pdag) : Prop :=
  (∀ g G d, gate_at s g G d →
            no_complement_pair (args_ d) ∧ args_bounded (node_index_ s) (args_ d)) ∧
  (∀ p n, heap s !! p = Some n → index_ n ≤ node_index_ s) ∧
  0 ≤ node_index_ s.

(** The class and the index of a node. *)
Inductive Class := CConstant | CVariable | CGate.

#[global] Instance Class_eq_dec : EqDecision Class.
Proof. solve_decision. Defined.

Definition class_of (n : Node) : Class :=
  match kind n with
  | KConstant => CConstant
  | KVariable => CVariable
  | KGate _ => CGate
  end.

Definition shape (n : Node) : Class * Z := (class_of n, index_ n).

(** The constant, then V variables, then K gates, numbered from 1. *)
Definition layout (V K : nat) : list (Class * Z) :=
  (CConstant, 1) ::
  ((λ k : nat, (CVariable, 2 + Z.of_nat k)) <$> seq 0 V) ++
  ((λ k : nat, (CGate, 2 + Z.of_nat V + Z.of_nat k)) <$> seq 0 K).

Definition laid_out (ph : Phase) (s : Pdag) : Prop :=
  ∃ V K : nat,
    shape <$> heap s = layout V K ∧
    node_index_ s = 1 + Z.of_nat V + Z.of_nat K ∧
    constant_ s = 0%nat ∧
    (ph = Gathering → K = 0%nat).

(** The nodes, their classes and indices, and the allocator are the same. *)
Definition same_shape (s s' : Pdag) : Prop :=
  shape <$> heap s' = shape <$> heap s ∧
  node_index_ s' = node_index_ s ∧
  constant_ s' = constant_ s.

(** A mutation keeps the nodes of the graph, their classes and indices,
    and may add gates at the end, numbered on. *)
Definition grows (s s' : Pdag) : Prop :=
  ∃ K : nat,
    shape <$> heap s' =
      (shape <$> heap s) ++
      ((λ k : nat, (CGate, node_index_ s + 1 + Z.of_nat k)) <$> seq 0 K) ∧
    node_index_ s' = node_index_ s + Z.of_nat K ∧
    constant_ s' = constant_ s.

(** The preconditions of [Gate::AddArg], as the assertions state them. *)
Definition AddArg_pre (d : Gate) (index : Z) (A : Node) : Prop :=
  index ≠ 0 ∧
  Z.abs index = index_ A ∧
  state_ d = kNormalState ∧
  (type_ d = kNot ∨ type_ d = kNull → args_ d = ∅) ∧
  (type_ d = kXor → Z.of_nat (size (args_ d)) ≤ 1) ∧
  vote_number_ d >= 0.

(** The assertions that belong to [Gate::AddArg] itself. *)
Definition AddArg_assertions : list Assertion :=
  [IndexNonzero; IndexMatchesArg; StateNormal; NotNullEmpty; XorArity; VoteNonneg].

(** The typed argument map that holds the arguments of class [T]. *)
Definition typed_args (T : NodeKind) (d : Gate) : linear_map.t :=
  match T with
  | KGate _ => gate_args_ d
  | KVariable => variable_args_ d
  | KConstant => constant_args_ d
  end.

Definition same_class (T T' : NodeKind) : bool :=
  match T, T' with
  | KGate _, KGate _ | KVariable, KVariable | KConstant, KConstant => true
  | _, _ => false
  end.

(** What the NULL-gate registrar is told about the gate: its single
    argument is the constant, that is, it is held in [constant_args_]. *)
Definition single_arg_is_constant (d : Gate) : bool :=
  bool_decide (constant_args_ d ≠ []).

(** What [Visit(t1); ...; Visit(tk)] leaves in [visits_] of a node whose
    visits were clear. *)
Definition visits_after (times : list Z) : Z * Z * Z :=
  (default 0 (times !! 0%nat), default 0 (times !! 1%nat),
   if bool_decide (3 ≤ length times)%nat then default 0 (last times) else 0).

(** The graph a construction ends with. *)
Definition graph_of (r : Res Pdag) : Pdag :=
  match r with
  | Ok s => s
  | Abort _ => Pdag_blank
  end.

(** The nodes a gate holds as arguments. *)
Definition children (d : Gate) : list ptr := (all_args d).*2.

(** The number of parent entries of a node keyed by [index]. *)
Definition parent_entries (n : Node) (index : Z) : nat :=
  length (filter (λ e : Z * ptr, e.1 = index) (parents_ n)).

(** The invariants of the data model around one gate: the argument set is
    the key set of the typed maps; the magnitude of an argument index is the
    index of the child; the children are nodes of the graph, each held once;
    a node has a parent entry for the gate exactly when the gate holds it;
    parent maps have one entry per key; node indices are unique. *)
Record well_formed (s : Pdag) (G : Node) (d : Gate) : Prop := {
  wf_keys : ∀ i, i ∈ args_ d ↔ i ∈ (all_args d).*1;
  wf_magnitude : ∀ i p n,
    (i, p) ∈ all_args d → heap s !! p = Some n → index_ n = Z.abs i;
  wf_children : ∀ p, p ∈ children d → is_Some (heap s !! p);
  wf_children_once : NoDup (children d);
  wf_parent_symmetry : ∀ p n,
    heap s !! p = Some n → index_ G ∈ (parents_ n).*1 ↔ p ∈ children d;
  wf_parent_map : ∀ p n, heap s !! p = Some n → NoDup (parents_ n).*1;
  wf_index_unique : ∀ p q n m,
    heap s !! p = Some n → heap s !! q = Some m → index_ n = index_ m → p = q
}.

(** The state a gate collapses to when it meets an argument and its
    complement. *)
Definition complement_state (t : Operator) : option State :=
  match t with
  | kAnd | kNor => Some kNullState
  | kOr | kNand | kXor => Some kUnityState
  | kVote | kNot | kNull => None
  end.

(** ** Further member functions of the header *)

(** [Gate::GetArg]: the argument node behind an argument index, looked up
    in the gate, the variable and the constant arguments in turn.  The last
    lookup is dereferenced unchecked. *)
Definition GetArg (s : Pdag) (g : ptr) (index : Z) : Res ptr :=
  '(_, d) ← get_gate s g;
  check (bool_decide (index ∈ args_ d)) ArgExists;;
  match linear_map.find (gate_args_ d) index with
  | Some p => Ok p
  | None =>
      match linear_map.find (variable_args_ d) index with
      | Some p => Ok p
      | None =>
          match linear_map.find (constant_args_ d) index with
          | Some p => Ok p
          | None => Abort BadPointer
          end
      end
  end.

(** The index the wrapper passes on: [complement ? -arg->index() :
    arg->index()]. *)
Definition literal (A : Node) (complement : bool) : Z :=
  if complement then - index_ A else index_ A.

(** [Gate::AddArg(const std::shared_ptr<T>& arg, bool complement)]: the
    wrapper that takes the index from the argument. *)
Definition AddArgNodeWith
    (ProcessDuplicateArg ProcessComplementArg : Pdag → ptr → Z → Res Pdag)
    (s : Pdag) (g : ptr) (arg : ptr) (complement : bool) : Res Pdag :=
  A ← get_node s arg;
  AddArgWith ProcessDuplicateArg ProcessComplementArg s g
    (literal A complement) arg.

(** The first assertion of [Gate::AddArg] that fails, if any. *)
Definition first_violation (d : Gate) (index : Z) (A : Node) : option Assertion :=
  if bool_decide (index = 0) then Some IndexNonzero
  else if bool_decide (Z.abs index ≠ index_ A) then Some IndexMatchesArg
  else if bool_decide (state_ d ≠ kNormalState) then Some StateNormal
  else if bool_decide ((type_ d = kNot ∨ type_ d = kNull) ∧ args_ d ≠ ∅)
  then Some NotNullEmpty
  else if bool_decide (type_ d = kXor ∧ Z.of_nat (size (args_ d)) > 1)
  then Some XorArity
  else if bool_decide (vote_number_ d < 0) then Some VoteNonneg
  else None.

(** [Node::min_time] and [Node::max_time] are virtual and [Gate]
    overrides them. *)
Definition min_time (n : Node) : Z :=
  match kind n with
  | KGate d => min_time_ d
  | _ => (visits_ n).1.1
  end.

Definition max_time (n : Node) : Z :=
  match kind n with
  | KGate d => max_time_ d
  | _ => LastVisit n
  end.

(** The calls [AddCount(b1); AddCount(b2); ...] on one node. *)
Definition AddCounts (n : Node) (positives : list bool) : Node :=
  foldl (λ n b, AddCount b n) n positives.

(** Successive requests to the index generator of a graph. *)
Fixpoint NodeIndices (graph : Pdag) (k : nat) : Res (list Z * Pdag) :=
  match k with
  | O => Ok ([], graph)
  | S k' =>
      '(i, graph1) ← NodeIndexGenerator graph;
      '(l, graph2) ← NodeIndices graph1 k';
      Ok (i :: l, graph2)
  end.

(** Successive calls of the NULL-gate registrar, each with its gate and
    its note. *)
Fixpoint Registrations (s : Pdag) (calls : list (ptr * bool)) : Res Pdag :=
  match calls with
  | [] => Ok s
  | (gate, constant) :: calls' =>
      s1 ← NullGateRegistrar s gate constant; Registrations s1 calls'
  end.

(** ** The other public operations of the header

    Every member function of [Node], [Gate] and [Pdag] that a client of
    the header can call and that changes the graph. *)

Definition set_order (val : Z) (n : Node) : Node :=
  mkNode (parents_ n) (index_ n) val (visits_ n) (opti_value_ n)
         (pos_count_ n) (neg_count_ n) (kind n).

Definition set_opti_value (val : Z) (n : Node) : Node :=
  mkNode (parents_ n) (index_ n) (order_ n) (visits_ n) val
         (pos_count_ n) (neg_count_ n) (kind n).

Definition set_mark (flag : bool) (d : Gate) : Gate :=
  mkGate (type_ d) (state_ d) flag (module_ d) (coherent_ d) (vote_number_ d)
         (descendant_ d) (ancestor_ d) (min_time_ d) (max_time_ d)
         (args_ d) (gate_args_ d) (variable_args_ d) (constant_args_ d).

Definition set_module (flag : bool) (d : Gate) : Gate :=
  mkGate (type_ d) (state_ d) (mark_ d) flag (coherent_ d) (vote_number_ d)
         (descendant_ d) (ancestor_ d) (min_time_ d) (max_time_ d)
         (args_ d) (gate_args_ d) (variable_args_ d) (constant_args_ d).

Definition set_coherent (flag : bool) (d : Gate) : Gate :=
  mkGate (type_ d) (state_ d) (mark_ d) (module_ d) flag (vote_number_ d)
         (descendant_ d) (ancestor_ d) (min_time_ d) (max_time_ d)
         (args_ d) (gate_args_ d) (variable_args_ d) (constant_args_ d).

Definition set_descendant (index : Z) (d : Gate) : Gate :=
  mkGate (type_ d) (state_ d) (mark_ d) (module_ d) (coherent_ d)
         (vote_number_ d) index (ancestor_ d) (min_time_ d) (max_time_ d)
         (args_ d) (gate_args_ d) (variable_args_ d) (constant_args_ d).

Definition set_ancestor (index : Z) (d : Gate) : Gate :=
  mkGate (type_ d) (state_ d) (mark_ d) (module_ d) (coherent_ d)
         (vote_number_ d) (descendant_ d) index (min_time_ d) (max_time_ d)
         (args_ d) (gate_args_ d) (variable_args_ d) (constant_args_ d).

Definition set_min_time (time : Z) (d : Gate) : Gate :=
  mkGate (type_ d) (state_ d) (mark_ d) (module_ d) (coherent_ d)
         (vote_number_ d) (descendant_ d) (ancestor_ d) time (max_time_ d)
         (args_ d) (gate_args_ d) (variable_args_ d) (constant_args_ d).

Definition set_max_time (time : Z) (d : Gate) : Gate :=
  mkGate (type_ d) (state_ d) (mark_ d) (module_ d) (coherent_ d)
         (vote_number_ d) (descendant_ d) (ancestor_ d) (min_time_ d) time
         (args_ d) (gate_args_ d) (variable_args_ d) (constant_args_ d).

Definition set_root (gate : option ptr) (s : Pdag) : Pdag :=
  mkPdag (node_index_ s) (complement_ s) (graph_coherent_ s) (normal_ s)
         (register_null_gates_ s) gate (constant_ s) (basic_events_ s)
         (const_gates_ s) (null_gates_ s) (heap s).

Definition set_flags (complement coherent normal register_null_gates : bool)
    (s : Pdag) : Pdag :=
  mkPdag (node_index_ s) complement coherent normal register_null_gates
         (root_ s) (constant_ s) (basic_events_ s)
         (const_gates_ s) (null_gates_ s) (heap s).

(** *** Members of [Node], called on the node at an address *)

(** [Node::order(int)] *)
Definition order (s : Pdag) (p : ptr) (val : Z) : Res Pdag :=
  _ ← get_node s p; Ok (upd p (set_order val) s).

(** [Node::opti_value(int)] *)
Definition opti_value (s : Pdag) (p : ptr) (val : Z) : Res Pdag :=
  _ ← get_node s p; Ok (upd p (set_opti_value val) s).

Definition Node_Visit (s : Pdag) (p : ptr) (time : Z) : Res Pdag :=
  n ← get_node s p;
  '(_, n') ← Visit n time;
  Ok (upd p (set_visits (visits_ n')) s).

Definition Node_ClearVisits (s : Pdag) (p : ptr) : Res Pdag :=
  _ ← get_node s p; Ok (upd p ClearVisits s).

Definition Node_AddCount (s : Pdag) (p : ptr) (positive : bool) : Res Pdag :=
  _ ← get_node s p; Ok (upd p (AddCount positive) s).

Definition Node_ResetCount (s : Pdag) (p : ptr) : Res Pdag :=
  _ ← get_node s p; Ok (upd p ResetCount s).

(** *** Parameters and scratch fields of [Gate] *)

(** [Gate::mark(bool)] *)
Definition mark (s : Pdag) (g : ptr) (flag : bool) : Res Pdag :=
  '(_, _) ← get_gate s g; Ok (upd_gate g (set_mark flag) s).

(** [Gate::descendant(int)] *)
Definition descendant (s : Pdag) (g : ptr) (index : Z) : Res Pdag :=
  '(_, _) ← get_gate s g; Ok (upd_gate g (set_descendant index) s).

(** [Gate::ancestor(int)] *)
Definition ancestor (s : Pdag) (g : ptr) (index : Z) : Res Pdag :=
  '(_, _) ← get_gate s g; Ok (upd_gate g (set_ancestor index) s).

(** [Gate::min_time(int)] *)
Definition Gate_min_time (s : Pdag) (g : ptr) (time : Z) : Res Pdag :=
  '(_, _) ← get_gate s g;
  check (bool_decide (time > 0)) TimePositive;;
  Ok (upd_gate g (set_min_time time) s).

(** [Gate::max_time(int)] *)
Definition Gate_max_time (s : Pdag) (g : ptr) (time : Z) : Res Pdag :=
  '(_, _) ← get_gate s g;
  check (bool_decide (time > 0)) TimePositive;;
  Ok (upd_gate g (set_max_time time) s).

(** [Gate::coherent(bool)] *)
Definition coherent (s : Pdag) (g : ptr) (flag : bool) : Res Pdag :=
  '(_, _) ← get_gate s g; Ok (upd_gate g (set_coherent flag) s).

(** [Gate::module(bool)] *)
Definition module (s : Pdag) (g : ptr) (flag : bool) : Res Pdag :=
  '(_, d) ← get_gate s g;
  check (bool_decide (module_ d ≠ flag)) ModuleChanges;;
  Ok (upd_gate g (set_module flag) s).

(** [Gate::~Gate]: [assert(Node::parents().empty()); EraseAllArgs();].  The
    store keeps the dead object, without arguments and without parents. *)
Definition Gate_destroy (s : Pdag) (g : ptr) : Res Pdag :=
  '(G, _) ← get_gate s g;
  check (bool_decide (parents_ G = [])) ParentsEmpty;;
  EraseAllArgs s g.

(** [Pdag::root(const GatePtr&)]: the gate is not null and is a gate of
    this graph. *)
Definition root (s : Pdag) (gate : ptr) : Res Pdag :=
  '(_, _) ← get_gate s gate; Ok (set_root (Some gate) s).

(** [Gate::AddArg(const std::shared_ptr<T>& arg, bool complement)] with
    the rewrites of the specification. *)
Definition AddArgNode : Pdag → ptr → ptr → bool → Res Pdag :=
  AddArgNodeWith ProcessDuplicateArg ProcessComplementArg.

(** *** Mutators of [Gate] that the header only declares *)

(** Modelled from the spec: [Gate::TransferArg] is declared in the header
    ("Transfers this gate's argument to another gate") and defined
    elsewhere: "transfer_arg(i, recipient), share_arg(i, recipient): move or
    copy an argument to another gate, maintaining parent bookkeeping".  The
    argument leaves this gate as by [EraseArg] and enters the recipient as
    by [AddArg].  The header's [@pre] (no constant arguments) is not
    required of the call. *)
Definition TransferArg (s : Pdag) (g : ptr) (index : Z) (recipient : ptr) : Res Pdag :=
  arg ← GetArg s g index;
  s1 ← EraseArg s g index;
  AddArg s1 recipient index arg.

(** Modelled from the spec: [Gate::ShareArg] is declared in the header
    ("Shares this gate's argument with another gate") and defined elsewhere;
    it copies the argument to the recipient, as by [AddArg]. *)
Definition ShareArg (s : Pdag) (g : ptr) (index : Z) (recipient : ptr) : Res Pdag :=
  arg ← GetArg s g index;
  AddArg s recipient index arg.

(** Modelled from the spec: [Gate::InvertArg] is declared in the header and
    defined elsewhere: "remove the entry at signed index i and re-insert at
    −i, preserving child identity.  Must route through add_arg so that
    duplicate/complement rules fire". *)
Definition InvertArg (s : Pdag) (g : ptr) (existing_arg : Z) : Res Pdag :=
  arg ← GetArg s g existing_arg;
  s1 ← EraseArg s g existing_arg;
  AddArg s1 g (- existing_arg) arg.

(** [add_arg] of each entry of a list into the gate [g]; a gate that has
    become constant takes no further argument ("a gate whose State ≠ Normal
    has an empty args set and no further mutation is allowed"). *)
Fixpoint AddArgs (s : Pdag) (g : ptr) (l : linear_map.t) : Res Pdag :=
  match l with
  | [] => Ok s
  | (index, arg) :: l' =>
      s1 ← AddArg s g index arg;
      '(_, d1) ← get_gate s1 g;
      if bool_decide (state_ d1 = kNormalState) then AddArgs s1 g l' else Ok s1
  end.

(** Modelled from the spec: [Gate::CoalesceGate] is declared in the header
    and defined elsewhere: "absorb the arguments of a same-operator
    positively-referenced child gate into self.  Preconditions: arg_gate
    appears with positive sign [...].  Each of arg_gate's arguments is
    add_arg'd into self (which may trigger further rewrites), then arg_gate
    is erased from self".  The header warns that the function "does not
    test if the parent and argument logics are correct for coalescing". *)
Definition CoalesceGate (s : Pdag) (g : ptr) (arg_gate : ptr) : Res Pdag :=
  '(_, d) ← get_gate s g;
  '(A, a) ← get_gate s arg_gate;
  check (bool_decide (index_ A ∈ args_ d)) ArgExists;;
  s1 ← AddArgs s g (all_args a);
  '(_, d1) ← get_gate s1 g;
  if bool_decide (state_ d1 = kNormalState) then EraseArg s1 g (index_ A)
  else Ok s1.

(** Modelled from the spec: [Gate::JoinNullGate] is declared in the header
    ("Swaps a single argument of a NULL type argument gate") and defined
    elsewhere: "if the argument at signed index i is a NULL-type gate,
    replace it with that gate's single argument, combining signs (i.e. if i
    is negative, the inherited sign flips)". *)
Definition JoinNullGate (s : Pdag) (g : ptr) (index : Z) : Res Pdag :=
  null_gate ← GetArg s g index;
  N ← get_node s null_gate;
  match kind N with
  | KGate n =>
      if bool_decide (type_ n = kNull) then
        match all_args n with
        | [(arg_index, arg)] =>
            s1 ← EraseArg s g index;
            AddArg s1 g (Z.sgn index * arg_index) arg
        | _ => Abort NotNullEmpty
        end
      else Ok s
  | _ => Ok s
  end.

(** Modelled from the spec: [Gate::RemoveConstantArg] is declared in the
    header and defined elsewhere: "remove arg; if empty, State := ...". *)
Definition RemoveConstantArg (s : Pdag) (g : ptr) (index : Z) (state : bool) : Res Pdag :=
  s1 ← EraseArg s g index;
  '(_, d1) ← get_gate s1 g;
  if bool_decide (args_ d1 = ∅) then MakeConstant s1 g state else Ok s1.

(** Modelled from the spec: the XOR row of the collapse table, the same
    for both constants: "if args count drops to 1, type becomes NULL or NOT
    depending on the surviving literal's sign; recurse".  The table does
    not say which sign gives which type: [xor_type] is that choice, given
    the surviving literal and the constant.  What the recursion goes on to
    do is a further call on the gate. *)
Definition ProcessXorConstantArg (xor_type : Z → bool → Operator)
    (s : Pdag) (g : ptr) (index : Z) (state : bool) : Res Pdag :=
  s1 ← EraseArg s g index;
  '(_, d1) ← get_gate s1 g;
  match elements (args_ d1) with
  | [survivor] => type s1 g (xor_type survivor state)
  | _ => Ok s1
  end.

(** Modelled from the spec: [Gate::ProcessTrueArg] is declared in the
    header and defined elsewhere; the column "true" constant arg of the
    collapse table. *)
Definition ProcessTrueArg (xor_type : Z → bool → Operator)
    (s : Pdag) (g : ptr) (index : Z) : Res Pdag :=
  '(_, d) ← get_gate s g;
  match type_ d with
  | kAnd => RemoveConstantArg s g index true
  | kNand => RemoveConstantArg s g index false
  | kOr => MakeConstant s g true
  | kNor => MakeConstant s g false
  | kNot => MakeConstant s g false
  | kNull => MakeConstant s g true
  | kXor => ProcessXorConstantArg xor_type s g index true
  | kVote =>
      s1 ← EraseArg s g index;
      s2 ← vote_number s1 g (vote_number_ d - 1);
      '(_, d2) ← get_gate s2 g;
      if bool_decide (vote_number_ d2 = 0) then MakeConstant s2 g true
      else if bool_decide (vote_number_ d2 = Z.of_nat (size (args_ d2)))
      then type s2 g kAnd
      else if bool_decide (vote_number_ d2 = 1) then type s2 g kOr
      else Ok s2
  end.

(** Modelled from the spec: [Gate::ProcessFalseArg] is declared in the
    header and defined elsewhere; the column "false" constant arg of the
    collapse table. *)
Definition ProcessFalseArg (xor_type : Z → bool → Operator)
    (s : Pdag) (g : ptr) (index : Z) : Res Pdag :=
  '(_, d) ← get_gate s g;
  match type_ d with
  | kAnd => MakeConstant s g false
  | kNand => MakeConstant s g true
  | kOr => RemoveConstantArg s g index false
  | kNor => RemoveConstantArg s g index true
  | kNot => MakeConstant s g true
  | kNull => MakeConstant s g false
  | kXor => ProcessXorConstantArg xor_type s g index false
  | kVote =>
      s1 ← EraseArg s g index;
      '(_, d1) ← get_gate s1 g;
      if bool_decide (Z.of_nat (size (args_ d1)) = vote_number_ d1)
      then type s1 g kAnd
      else if bool_decide (Z.of_nat (size (args_ d1)) < vote_number_ d1)
      then MakeConstant s1 g false
      else Ok s1
  end.

(** Modelled from the spec: [Gate::ProcessConstantArg] is declared in the
    header and defined elsewhere.  "The value flag folds in the sign of the
    index: TRUE-index-positive and FALSE-index-negative both count as true
    argument"; the header: "this function takes into account the sign of
    the index to properly assess the Boolean constant argument". *)
Definition ProcessConstantArg (xor_type : Z → bool → Operator)
    (s : Pdag) (g : ptr) (arg : ptr) (state : bool) : Res Pdag :=
  sign ← GetArgSign s g arg;
  A ← get_node s arg;
  let index := sign * index_ A in
  if (if bool_decide (index < 0) then negb state else state)
  then ProcessTrueArg xor_type s g index
  else ProcessFalseArg xor_type s g index.

(** What a clone takes from the gate it is cloned from. *)
Definition clone_from (d : Gate) (c : Gate) : Gate :=
  mkGate (type_ d) (state_ c) (mark_ c) (module_ c) (coherent_ d)
         (vote_number_ d) (descendant_ c) (ancestor_ c) (min_time_ c)
         (max_time_ c) (args_ d) (gate_args_ d) (variable_args_ d)
         (constant_args_ d).

(** Modelled from the spec: [Gate::Clone] is declared in the header and
    defined elsewhere.  The header: "Clones arguments and parameters.  The
    semantics of the gate is cloned, not the gate data like index and
    parents.  Returns a shared pointer to a newly created gate."  The clone
    is a new gate of the graph; it becomes one more parent of each
    argument. *)
Definition Clone (s : Pdag) (g : ptr) : Res (ptr * Pdag) :=
  '(_, d) ← get_gate s g;
  '(c, s1) ← Gate_new s (type_ d);
  let s2 := upd_gate c (clone_from d) s1 in
  s3 ← AddParents s2 (all_args d).*2 c;
  Ok (c, s3).

(** *** The operations of a client *)

Inductive Operation :=
  (* new nodes *)
  | OVariable
  | OGate (t : Operator)
  | OClone (g : ptr)
  | ODestroy (g : ptr)
  (* Node *)
  | OOrder (p : ptr) (val : Z)
  | OOptiValue (p : ptr) (val : Z)
  | OVisit (p : ptr) (time : Z)
  | OClearVisits (p : ptr)
  | OAddCount (p : ptr) (positive : bool)
  | OResetCount (p : ptr)
  (* parameters and scratch fields of Gate *)
  | OType (g : ptr) (t : Operator)
  | OVoteNumber (g : ptr) (number : Z)
  | OMark (g : ptr) (flag : bool)
  | ODescendant (g : ptr) (index : Z)
  | OAncestor (g : ptr) (index : Z)
  | OMinTime (g : ptr) (time : Z)
  | OMaxTime (g : ptr) (time : Z)
  | OCoherent (g : ptr) (flag : bool)
  | OModule (g : ptr) (flag : bool)
  (* arguments of Gate *)
  | OAddArg (g : ptr) (index : Z) (arg : ptr)
  | OAddArgNode (g : ptr) (arg : ptr) (complement : bool)
  | OTransferArg (g : ptr) (index : Z) (recipient : ptr)
  | OShareArg (g : ptr) (index : Z) (recipient : ptr)
  | OInvertArgs (g : ptr)
  | OInvertArg (g : ptr) (existing_arg : Z)
  | OCoalesceGate (g : ptr) (arg_gate : ptr)
  | OJoinNullGate (g : ptr) (index : Z)
  | OProcessConstantArg (xor_type : Z → bool → Operator)
                        (g : ptr) (arg : ptr) (state : bool)
  | OEraseArg (g : ptr) (index : Z)
  | OEraseAllArgs (g : ptr)
  | OMakeConstant (g : ptr) (state : bool)
  (* Pdag *)
  | ORoot (gate : ptr)
  | OFlags (complement coherent normal register_null_gates : bool).

(** One call of a client.  [Pdag::Print] and [Pdag::Log] change the graph
    through the visits and the marks of its nodes only: they are runs of
    [OVisit], [OClearVisits] and [OMark].  [OFlags] is the translator
    recording the flags of the graph, [register_null_gates] among them. *)
Definition operate (s : Pdag) (o : Operation) : Res Pdag :=
  match o with
  | OVariable => '(_, s1) ← Variable_new s; Ok s1
  | OGate t => '(_, s1) ← Gate_new s t; Ok s1
  | OClone g => '(_, s1) ← Clone s g; Ok s1
  | ODestroy g => Gate_destroy s g
  | OOrder p val => order s p val
  | OOptiValue p val => opti_value s p val
  | OVisit p time => Node_Visit s p time
  | OClearVisits p => Node_ClearVisits s p
  | OAddCount p positive => Node_AddCount s p positive
  | OResetCount p => Node_ResetCount s p
  | OType g t => type s g t
  | OVoteNumber g number => vote_number s g number
  | OMark g flag => mark s g flag
  | ODescendant g index => descendant s g index
  | OAncestor g index => ancestor s g index
  | OMinTime g time => Gate_min_time s g time
  | OMaxTime g time => Gate_max_time s g time
  | OCoherent g flag => coherent s g flag
  | OModule g flag => module s g flag
  | OAddArg g index arg => AddArg s g index arg
  | OAddArgNode g arg complement => AddArgNode s g arg complement
  | OTransferArg g index recipient => TransferArg s g index recipient
  | OShareArg g index recipient => ShareArg s g index recipient
  | OInvertArgs g => InvertArgs s g
  | OInvertArg g existing_arg => InvertArg s g existing_arg
  | OCoalesceGate g arg_gate => CoalesceGate s g arg_gate
  | OJoinNullGate g index => JoinNullGate s g index
  | OProcessConstantArg xor_type g arg state =>
      ProcessConstantArg xor_type s g arg state
  | OEraseArg g index => EraseArg s g index
  | OEraseAllArgs g => EraseAllArgs s g
  | OMakeConstant g state => MakeConstant s g state
  | ORoot gate => root s gate
  | OFlags complement coherent normal register_null_gates =>
      Ok (set_flags complement coherent normal register_null_gates s)
  end.

(** The graphs a client can observe: a graph as constructed, alone or by
    the translator, and then any run of operations. *)
Inductive observable : Pdag → Prop :=
  | obs_constructed ph s :
      reachable ph s → observable s
  | obs_operate s o s' :
      observable s → operate s o = Ok s' → observable s'.

Fixpoint operations (s : Pdag) (os : list Operation) : Res Pdag :=
  match os with
  | [] => Ok s
  | o :: os' => s1 ← operate s o; operations s1 os'
  end.

(** One mutation of the graph by a member function that is modelled on
    its own. *)
Definition step (s s' : Pdag) : Prop := ∃ m, mutate s m = Ok s'.

(** *** Example graphs *)

(** A NULL-type gate over the complemented constant, in a graph that
    registers NULL gates. *)
Definition null_gate_example : Pdag :=
  Eval vm_compute in
    set_register_null_gates true
      (graph_of (build [] [MGate kNull; MAddArg 1%nat (-1) 0%nat])).

(** Two variables and an AND gate over the complement of the first. *)
Definition and_gate_example : Pdag :=
  Eval vm_compute in
    graph_of (build [10; 11]%nat [MGate kAnd; MAddArg 3%nat (-2) 1%nat]).

(** Three variables and a 2-of-n VOTE gate over the first two. *)
Definition vote_gate_example : Pdag :=
  Eval vm_compute in
    graph_of (build [10; 11; 12]%nat
                [MGate kVote; MVoteNumber 4%nat 2;
                 MAddArg 4%nat 2 1%nat; MAddArg 4%nat 3 2%nat]).

(** Two variables and an empty NOT gate. *)
Definition not_gate_example : Pdag :=
  Eval vm_compute in graph_of (build [10; 11]%nat [MGate kNot]).

(** The translator builds an AND gate over a variable and the complement
    of another; a client then adds an OR gate, shares, transfers and inverts
    arguments, coalesces the OR gate into the AND gate, clones the result,
    gives the clone the constant and propagates it, and touches scratch
    fields, the root and the flags. *)
Definition client_operations : list Operation :=
  [OGate kOr; OShareArg 4%nat 2 5%nat; OTransferArg 4%nat (-3) 5%nat;
   OInvertArg 5%nat (-3); OAddArgNode 4%nat 5%nat false;
   OCoalesceGate 4%nat 5%nat; OClone 4%nat; OAddArgNode 6%nat 0%nat true;
   OProcessConstantArg (λ _ state, if state then kNot else kNull)
                       6%nat 0%nat true;
   OVisit 1%nat 5; OMark 4%nat true; ORoot 4%nat; OFlags false true true true].

Definition translated_example : Pdag :=
  Eval vm_compute in
    graph_of (build [10; 11; 12]%nat
                [MGate kAnd; MAddArg 4%nat 2 1%nat; MAddArg 4%nat (-3) 2%nat]).

Definition operated_example : Pdag :=
  Eval vm_compute in
    graph_of (operations translated_example client_operations).

(** ** Basic facts about the store *)

Lemma bind_Ok {A B} (m : Res A) (f : A → Res B) b :
  m ≫= f = Ok b ↔ ∃ a, m = Ok a ∧ f a = Ok b.
Proof.
  destruct m as [a|e]; simpl.
  - split; [eauto | intros (? & [= ->] & ?); done].
  - split; [done | intros (? & [=] & _)].
Qed.

Lemma check_Ok b e : check b e = Ok () ↔ b = true.
Proof. destruct b; simpl; split; done. Qed.

Lemma check_true b e : b = true → check b e = Ok ().
Proof. by intros ->. Qed.

Lemma get_node_Ok s p n : get_node s p = Ok n ↔ heap s !! p = Some n.
Proof. unfold get_node. destruct (heap s !! p); split; congruence. Qed.

Lemma get_gate_Ok s g G d : get_gate s g = Ok (G, d) ↔ gate_at s g G d.
Proof.
  unfold get_gate, gate_at. destruct (heap s !! g) as [n|]; [|split; [done|intros [[=] _]]].
  destruct (kind n) eqn:E; split; try done; try (intros [[= <-] ?]; congruence).
  - intros [= <- <-]. done.
Qed.

Lemma heap_upd p f s : heap (upd p f s) = alter f p (heap s).
Proof. done. Qed.

Lemma lookup_upd p q f s :
  heap (upd p f s) !! q = if decide (p = q) then f <$> heap s !! q else heap s !! q.
Proof.
  rewrite heap_upd. case_decide as E.
  - subst. apply list_lookup_alter_eq.
  - by apply list_lookup_alter_ne.
Qed.

Lemma lookup_upd_eq p f s n :
  heap s !! p = Some n → heap (upd p f s) !! p = Some (f n).
Proof. intros E. rewrite lookup_upd, decide_True, E; done. Qed.

Lemma lookup_upd_ne p q f s : p ≠ q → heap (upd p f s) !! q = heap s !! q.
Proof. intros E. rewrite lookup_upd, decide_False; done. Qed.

Lemma gate_at_upd_gate g f s G d :
  gate_at s g G d → gate_at (upd_gate g f s) g (set_gate f G) (f d).
Proof.
  intros [E K]. split.
  - by apply lookup_upd_eq.
  - simpl. by rewrite K.
Qed.

Lemma gate_at_fun s g G d G' d' :
  gate_at s g G d → gate_at s g G' d' → G = G' ∧ d = d'.
Proof. intros [E K] [E' K']. simplify_eq. split; congruence. Qed.

(** ** Node visits *)

Lemma Visits_saturated n times v0 v1 v2 :
  visits_ n = (v0, v1, v2) → v0 ≠ 0 → v1 ≠ 0 → Forall (λ t, t > 0) times →
  Visits n times =
    Ok (replicate (length times) true,
        set_visits (v0, v1, default v2 (last times)) n).
Proof.
  intros Hv H0 H1 Ht. revert n v2 Hv.
  induction Ht as [|t times Hpos _ IH]; intros n v2 Hv; simpl.
  - destruct n; simpl in *; by subst.
  - unfold Visit. rewrite Hv, check_true by (by apply bool_decide_eq_true). simpl.
    rewrite !bool_decide_eq_false_2 by done. simpl.
    erewrite IH by done. simpl. do 2 f_equal.
    destruct times as [|t' times]; simpl; [done|].
    destruct (last (t' :: times)) eqn:E; [done|].
    by apply last_None in E.
Qed.

(** C9.  On a node whose visits are clear, the calls [Visit(t)] with
    positive times return false the first and the second time, recording
    the time as enter time and as exit time, and true from the third call
    on, the time overwriting the last-visit slot; [Visited()] tells that
    there was at least one call and [Revisited()] that there were at least
    three. *)
Theorem Visit_enter_exit_revisit (n : Node) (times : list Z) :
  visits_ n = (0, 0, 0) →
  Forall (λ t, t > 0) times →
  ∃ n',
    Visits n times =
      Ok ((λ k, bool_decide (2 ≤ k)%nat) <$> seq 0 (length times), n') ∧
    n' = set_visits (visits_after times) n ∧
    EnterTime n' = default 0 (times !! 0%nat) ∧
    ExitTime n' = default 0 (times !! 1%nat) ∧
    ((3 ≤ length times)%nat → Some (LastVisit n') = last times) ∧
    Visited n' = bool_decide (1 ≤ length times)%nat ∧
    Revisited n' = bool_decide (3 ≤ length times)%nat.
Proof.
  intros Hv Ht. exists (set_visits (visits_after times) n).
  assert (Hlast : ∀ (t : Z) (l : list Z), ∃ u, last (t :: l) = Some u ∧ u ∈ t :: l).
  { intros t l. destruct (last (t :: l)) as [u|] eqn:E; [|by apply last_None in E].
    exists u. split; [done|]. by apply last_Some_elem_of. }
  destruct n as [ps ix od vs ov pc nc k]; simpl in Hv; subst vs.
  destruct times as [|t0 [|t1 times]].
  - repeat split; try done. simpl; lia.
  - apply Forall_cons in Ht as [H0 _].
    repeat split; try done.
    + simpl. unfold Visit. rewrite check_true by (by apply bool_decide_eq_true). done.
    + simpl; lia.
    + unfold Visited; simpl. apply bool_decide_eq_true. lia.
  - apply Forall_cons in Ht as [H0 Ht]. apply Forall_cons in Ht as [H1 Ht].
    split; [|repeat split].
    + simpl. unfold Visit at 1. rewrite check_true by (by apply bool_decide_eq_true).
      simpl. unfold Visit at 1. simpl.
      rewrite check_true by (by apply bool_decide_eq_true). simpl.
      rewrite bool_decide_eq_false_2 by lia. simpl.
      erewrite (Visits_saturated _ times t0 t1 0) by (done || lia). simpl.
      f_equal. f_equal.
      * do 2 f_equal.
        assert (Hseq : ∀ m b, (2 ≤ b)%nat →
                  replicate m true = (λ k, bool_decide (2 ≤ k)%nat) <$> seq b m).
        { clear. induction m as [|m IH]; intros b Hb; simpl; [done|].
          rewrite bool_decide_eq_true_2 by lia. f_equal. apply IH. lia. }
        by apply Hseq.
      * unfold visits_after, set_visits. simpl.
        destruct times as [|t2 times]; simpl; [done|].
        destruct (Hlast t2 times) as (u & -> & _). done.
    + intros Hlen. unfold LastVisit, visits_after. simpl in *.
      rewrite (bool_decide_eq_true_2 (3 ≤ _)%nat) by lia. simpl.
      destruct times as [|t2 times]; simpl in *; [lia|].
      destruct (Hlast t2 times) as (u & -> & Hu). simpl.
      rewrite Forall_forall in Ht. apply Ht in Hu.
      rewrite bool_decide_eq_true_2 by lia. done.
    + unfold Visited; simpl. apply bool_decide_eq_true. lia.
    + unfold Revisited, visits_after; simpl.
      destruct times as [|t2 times]; simpl.
      * done.
      * destruct (Hlast t2 times) as (u & -> & Hu). simpl.
        rewrite Forall_forall in Ht. apply Ht in Hu.
        apply bool_decide_eq_true. lia.
Qed.

Lemma Visit_enter_exit_revisit_witness :
  ∃ n', Visits (mkNode [] 2 0 (0, 0, 0) 0 0 0 KVariable) [5; 7; 9; 11] =
          Ok ([false; false; true; true], n') ∧
        EnterTime n' = 5 ∧ ExitTime n' = 7 ∧
        Visited n' = true ∧ Revisited n' = true.
Proof.
  destruct (Visit_enter_exit_revisit
              (mkNode [] 2 0 (0, 0, 0) 0 0 0 KVariable) [5; 7; 9; 11])
    as (n' & Hrun & _ & Henter & Hexit & _ & Hv & Hr).
  - reflexivity.
  - repeat constructor.
  - exists n'. repeat split; assumption.
Defined.

(** ** Sign of an argument *)

(** C10.  For a gate G and a node n that has a parent entry keyed by the
    index of G, [GetArgSign(n)] returns 1 when the index of n is in the
    argument set of G and -1 otherwise.  When the set holds no complement
    pair, this is the sign of the index under which G holds n. *)
Theorem GetArgSign_sign (s : Pdag) (g arg : ptr) (G A : Node) (d : Gate) :
  gate_at s g G d →
  heap s !! arg = Some A →
  index_ G ∈ (parents_ A).*1 →
  GetArgSign s g arg = Ok (if bool_decide (index_ A ∈ args_ d) then 1 else -1) ∧
  (no_complement_pair (args_ d) → 0 < index_ A →
   ∀ i, i ∈ args_ d → Z.abs i = index_ A → GetArgSign s g arg = Ok (Z.sgn i)).
Proof.
  intros HG HA Hp.
  assert (Hrun : GetArgSign s g arg =
                 Ok (if bool_decide (index_ A ∈ args_ d) then 1 else -1)).
  { unfold GetArgSign. rewrite (proj2 (get_gate_Ok _ _ _ _) HG). simpl.
    rewrite (proj2 (get_node_Ok _ _ _) HA). simpl.
    unfold linear_map.count. rewrite (bool_decide_eq_true_2 _ Hp). reflexivity. }
  split; [done|].
  intros Hpair Hpos i Hi Habs. rewrite Hrun. f_equal.
  destruct (decide (0 < i)) as [Hi0|Hi0].
  - rewrite Z.abs_eq in Habs by lia. subst.
    rewrite bool_decide_eq_true_2 by done. lia.
  - rewrite Z.abs_neq in Habs by lia.
    rewrite bool_decide_eq_false_2; [lia|].
    intros Hin. apply (Hpair (index_ A)); [done|]. split; [done|].
    by replace (- index_ A) with i by lia.
Qed.

Lemma GetArgSign_sign_witness :
  GetArgSign and_gate_example 3%nat 1%nat = Ok (-1).
Proof.
  edestruct (GetArgSign_sign and_gate_example 3%nat 1%nat) as [Hsign _].
  - split; reflexivity.
  - reflexivity.
  - vm_compute. apply list_elem_of_here.
  - etrans; [apply Hsign | vm_compute; reflexivity].
Defined.

(** ** The NULL-gate registrar *)

(** C6.  A gate that is not of NULL type is refused, and nothing is
    enqueued.  For a NULL-type gate the call succeeds and goes by the note
    [constant] of the caller alone, not by the arguments of the gate: when
    the graph does not register NULL gates, neither worklist changes; when
    it does, the gate is appended to [const_gates_] if the note is set and
    to [null_gates_] if it is not, and the other worklist stays as it was.
    Nothing else of the graph changes.  When the note tells what the gate
    holds, this is: to [const_gates_] when the single argument is the
    constant, to [null_gates_] otherwise. *)
Theorem NullGateRegistrar_worklists (s : Pdag) (gate : ptr) (G : Node) (d : Gate)
    (constant : bool) :
  gate_at s gate G d →
  (type_ d ≠ kNull → NullGateRegistrar s gate constant = Abort NullTypeExpected) ∧
  (type_ d = kNull →
   ∃ s',
     NullGateRegistrar s gate constant = Ok s' ∧
     (register_null_gates_ s = false →
      const_gates_ s' = const_gates_ s ∧ null_gates_ s' = null_gates_ s) ∧
     (register_null_gates_ s = true → constant = true →
      const_gates_ s' = const_gates_ s ++ [gate] ∧
      null_gates_ s' = null_gates_ s) ∧
     (register_null_gates_ s = true → constant = false →
      null_gates_ s' = null_gates_ s ++ [gate] ∧
      const_gates_ s' = const_gates_ s) ∧
     (register_null_gates_ s = true → constant = single_arg_is_constant d →
      const_gates_ s' =
        const_gates_ s ++ (if single_arg_is_constant d then [gate] else []) ∧
      null_gates_ s' =
        null_gates_ s ++ (if single_arg_is_constant d then [] else [gate])) ∧
     heap s' = heap s ∧
     node_index_ s' = node_index_ s ∧
     register_null_gates_ s' = register_null_gates_ s ∧
     root_ s' = root_ s ∧
     constant_ s' = constant_ s ∧
     basic_events_ s' = basic_events_ s ∧
     complement_ s' = complement_ s ∧
     graph_coherent_ s' = graph_coherent_ s ∧
     normal_ s' = normal_ s).
Proof.
  intros HG. unfold NullGateRegistrar.
  rewrite (proj2 (get_gate_Ok _ _ _ _) HG). cbn [mbind Res_bind].
  split.
  - intros Ht. by rewrite (bool_decide_eq_false_2 _ Ht).
  - intros Ht. rewrite (bool_decide_eq_true_2 _ Ht). cbn [check mbind Res_bind].
    destruct (register_null_gates_ s) eqn:Hr; cbn [negb].
    + destruct constant.
      * eexists. split; [reflexivity|].
        cbn [const_gates_ null_gates_ heap node_index_ register_null_gates_
             root_ constant_ basic_events_ complement_ graph_coherent_ normal_
             set_const_gates].
        split; [done|]. split; [done|]. split; [done|].
        split; [by intros _ <-; rewrite app_nil_r|]. by rewrite Hr.
      * eexists. split; [reflexivity|].
        cbn [const_gates_ null_gates_ heap node_index_ register_null_gates_
             root_ constant_ basic_events_ complement_ graph_coherent_ normal_
             set_null_gates].
        split; [done|]. split; [done|]. split; [done|].
        split; [by intros _ <-; rewrite app_nil_r|]. by rewrite Hr.
    + exists s. split; [reflexivity|].
      split; [done|]. split; [done|]. split; [done|]. split; [done|].
      by rewrite Hr.
Qed.

Lemma NullGateRegistrar_worklists_witness :
  ∃ s',
    NullGateRegistrar null_gate_example 1%nat true = Ok s' ∧
    const_gates_ s' = [1%nat] ∧ null_gates_ s' = [].
Proof.
  edestruct (NullGateRegistrar_worklists null_gate_example 1%nat)
    with (constant := true) as (_ & Hnull).
  - split; reflexivity.
  - destruct Hnull as (s' & Hrun & _ & Hconst & _); [reflexivity|].
    exists s'. split; [exact Hrun|]. by apply Hconst.
Defined.

(** C6, as written, fails where the note of the caller and the gate
    disagree: the gate at address 1 of the example is of NULL type and its
    single argument is the constant; registered with [constant = false],
    the default of the parameter, in a graph that registers NULL gates, it
    is appended to [null_gates_] and [const_gates_] stays empty. *)
Lemma NullGateRegistrar_flag_counterexample :
  ∃ G d s',
    gate_at null_gate_example 1%nat G d ∧
    type_ d = kNull ∧
    children d = [constant_ null_gate_example] ∧
    single_arg_is_constant d = true ∧
    register_null_gates_ null_gate_example = true ∧
    NullGateRegistrar null_gate_example 1%nat false = Ok s' ∧
    const_gates_ s' ≠ const_gates_ null_gate_example ++ [1%nat] ∧
    const_gates_ s' = [] ∧
    null_gates_ s' = [1%nat].
Proof.
  eexists _, _, _. split; [split; reflexivity|].
  split; [reflexivity|]. split; [reflexivity|]. split; [reflexivity|].
  split; [reflexivity|]. split; [reflexivity|].
  split; [discriminate|]. split; reflexivity.
Qed.

(** ** [Gate::AddArg]: preconditions and dispatch *)

Lemma set_gate_parents f n : parents_ (set_gate f n) = parents_ n.
Proof. done. Qed.

Lemma set_gate_index f n : index_ (set_gate f n) = index_ n.
Proof. done. Qed.

Lemma set_gate_kind f n d : kind n = KGate d → kind (set_gate f n) = KGate (f d).
Proof. simpl. by intros ->. Qed.

Lemma set_parents_kind f n : kind (set_parents f n) = kind n.
Proof. done. Qed.

Lemma gate_at_upd_ne p f s g G d :
  p ≠ g → gate_at s g G d → gate_at (upd p f s) g G d.
Proof. intros Hne [E K]. split; [|done]. by rewrite lookup_upd_ne. Qed.

Lemma gate_at_upd_parents p f s g G d :
  gate_at s g G d →
  ∃ G', gate_at (upd p (set_parents f) s) g G' d ∧ index_ G' = index_ G ∧
        parents_ G' = if decide (p = g) then f (parents_ G) else parents_ G.
Proof.
  intros [E K]. destruct (decide (p = g)) as [->|Hne].
  - exists (set_parents f G). split; [|done]. split; [by apply lookup_upd_eq|done].
  - exists G. split; [|done]. split; [by rewrite lookup_upd_ne|done].
Qed.

Lemma lookup_upd_gate_parents g f s p n :
  heap s !! p = Some n →
  ∃ n', heap (upd_gate g f s) !! p = Some n' ∧ parents_ n' = parents_ n ∧
        index_ n' = index_ n ∧ same_class (kind n') (kind n) = true.
Proof.
  intros E. unfold upd_gate. rewrite lookup_upd, E. case_decide; simpl.
  - eexists; split; [done|]. repeat split. simpl. by destruct (kind n).
  - eexists; split; [done|]. repeat split. by destruct (kind n).
Qed.

Lemma AddParent_Ok s p gate G d n :
  gate_at s gate G d → heap s !! p = Some n → index_ G ∉ (parents_ n).*1 →
  AddParent s p gate =
    Ok (upd p (set_parents (λ m, linear_map.emplace_back m (index_ G) gate)) s).
Proof.
  intros HG Hn Hp. unfold AddParent.
  rewrite (proj2 (get_gate_Ok _ _ _ _) HG). simpl.
  rewrite (proj2 (get_node_Ok _ _ _) Hn). simpl.
  unfold linear_map.count. rewrite (bool_decide_eq_false_2 _ Hp). done.
Qed.

Lemma InsertArg_Ok s g index arg G d A :
  gate_at s g G d → heap s !! arg = Some A → index_ G ∉ (parents_ A).*1 →
  InsertArg s g index arg =
    Ok (upd arg (set_parents (λ m, linear_map.emplace_back m (index_ G) g))
          (upd_gate g (emplace_arg (kind A) index arg)
             (upd_gate g (insert_index index) s))).
Proof.
  intros HG HA Hp. unfold InsertArg.
  rewrite (proj2 (get_node_Ok _ _ _) HA). simpl.
  set (s1 := upd_gate g (insert_index index) s).
  set (s2 := upd_gate g (emplace_arg (kind A) index arg) s1).
  assert (HG2 : gate_at s2 g (set_gate (emplace_arg (kind A) index arg)
                                (set_gate (insert_index index) G))
                  (emplace_arg (kind A) index arg (insert_index index d))).
  { by do 2 apply gate_at_upd_gate. }
  destruct (lookup_upd_gate_parents g (insert_index index) s arg A HA)
    as (A1 & HA1 & Hp1 & _).
  destruct (lookup_upd_gate_parents g (emplace_arg (kind A) index arg) s1 arg A1 HA1)
    as (A2 & HA2 & Hp2 & _).
  rewrite (AddParent_Ok s2 arg g _ _ A2 HG2 HA2); [done|].
  by rewrite Hp2, Hp1.
Qed.

Lemma AddArg_asserts_Ok d index A :
  AddArg_asserts d index A = Ok () ↔ AddArg_pre d index A.
Proof.
  unfold AddArg_asserts, AddArg_pre.
  repeat (setoid_rewrite bind_Ok).
  split.
  - intros ([] & H1 & [] & H2 & [] & H3 & [] & H4 & [] & H5 & H6).
    apply check_Ok in H1, H2, H3, H4, H5, H6.
    apply bool_decide_eq_true in H1, H2, H3, H6.
    apply negb_true_iff, andb_false_iff in H4, H5.
    repeat split; try done.
    + intros Ht. destruct H4 as [H4|H4].
      * by apply bool_decide_eq_false in H4.
      * apply negb_false_iff in H4. by apply bool_decide_eq_true in H4.
    + intros Ht. destruct H5 as [H5|H5].
      * by apply bool_decide_eq_false in H5.
      * apply bool_decide_eq_false in H5. lia.
  - intros (H1 & H2 & H3 & H4 & H5 & H6).
    exists (). split; [by apply check_true, bool_decide_eq_true|].
    exists (). split; [by apply check_true, bool_decide_eq_true|].
    exists (). split; [by apply check_true, bool_decide_eq_true|].
    exists (). split.
    { apply check_true, negb_true_iff, andb_false_iff.
      destruct (decide (type_ d = kNot ∨ type_ d = kNull)) as [Ht|Ht].
      - right. apply negb_false_iff, bool_decide_eq_true. auto.
      - left. by apply bool_decide_eq_false. }
    exists (). split.
    { apply check_true, negb_true_iff, andb_false_iff.
      destruct (decide (type_ d = kXor)) as [Ht|Ht].
      - right. apply bool_decide_eq_false. specialize (H5 Ht). lia.
      - left. by apply bool_decide_eq_false. }
    by apply check_true, bool_decide_eq_true.
Qed.

Lemma AddArg_asserts_Abort d index A :
  ¬ AddArg_pre d index A →
  ∃ e, e ∈ AddArg_assertions ∧ AddArg_asserts d index A = Abort e.
Proof.
  intros Hpre.
  destruct (AddArg_asserts d index A) as [[]|e] eqn:E.
  - by apply AddArg_asserts_Ok in E.
  - exists e. split; [|done].
    unfold AddArg_asserts, check, AddArg_assertions in *.
    repeat match type of E with
           | context [if ?b then _ else _] => destruct b; simpl in E
           end; simplify_eq; set_solver.
Qed.

Section Dispatch.

(** The two rewrites [AddArg] hands over to, whatever they do. *)
Variables duplicate complement : Pdag → ptr → Z → Res Pdag.

Lemma AddArgWith_pre s g arg G A d index :
  gate_at s g G d → heap s !! arg = Some A → AddArg_pre d index A →
  AddArgWith duplicate complement s g index arg =
    if bool_decide (index ∈ args_ d) then duplicate s g index
    else if bool_decide (- index ∈ args_ d) then complement s g index
    else InsertArg s g index arg.
Proof.
  intros HG HA Hpre. unfold AddArgWith.
  rewrite (proj2 (get_gate_Ok _ _ _ _) HG). simpl.
  rewrite (proj2 (get_node_Ok _ _ _) HA). simpl.
  apply AddArg_asserts_Ok in Hpre. by rewrite Hpre.
Qed.

Lemma AddArgWith_not_pre s g arg G A d index :
  gate_at s g G d → heap s !! arg = Some A → ¬ AddArg_pre d index A →
  ∃ e, e ∈ AddArg_assertions ∧
       AddArgWith duplicate complement s g index arg = Abort e.
Proof.
  intros HG HA Hpre. unfold AddArgWith.
  rewrite (proj2 (get_gate_Ok _ _ _ _) HG). simpl.
  rewrite (proj2 (get_node_Ok _ _ _) HA). simpl.
  destruct (AddArg_asserts_Abort _ _ _ Hpre) as (e & He & ->).
  by exists e.
Qed.

(** C7.  [AddArg(index, arg)] checks exactly these preconditions: the index
    is not zero, its magnitude is the index of the argument node, the gate
    is in Normal state, a NOT or NULL gate is empty, an XOR gate has at
    most one argument, and the vote number is not negative.  When they
    hold, none of the assertions of [AddArg] fires and the call goes on to
    its dispatch; when one of them fails, the call ends in the failure of
    one of these assertions, the only kind of failure there is. *)
Theorem AddArg_preconditions (s : Pdag) (g arg : ptr) (G A : Node) (d : Gate)
    (index : Z) :
  gate_at s g G d →
  heap s !! arg = Some A →
  (AddArg_asserts d index A = Ok () ↔ AddArg_pre d index A) ∧
  (AddArg_pre d index A →
   AddArgWith duplicate complement s g index arg =
     if bool_decide (index ∈ args_ d) then duplicate s g index
     else if bool_decide (- index ∈ args_ d) then complement s g index
     else InsertArg s g index arg) ∧
  (¬ AddArg_pre d index A →
   ∃ e, e ∈ AddArg_assertions ∧
        AddArgWith duplicate complement s g index arg = Abort e).
Proof.
  intros HG HA. split; [apply AddArg_asserts_Ok|]. split.
  - by apply (AddArgWith_pre s g arg G A d index).
  - by apply (AddArgWith_not_pre s g arg G A d index).
Qed.

(** C1.  For a call [AddArg(i, child)] that meets the preconditions, on a
    gate in Normal state with |i| the index of the child: when i is in the
    argument set, the call is the duplicate rewrite, and when -i is, the
    complement rewrite; both receive the gate as it was, i is not
    appended.  Otherwise i is inserted into the argument set, the pair
    (i, child) is appended to the typed argument map of the class of the
    child, the other maps staying as they were, and the child gets a
    parent entry for this gate. *)
Theorem AddArg_dispatch (s : Pdag) (g child : ptr) (G A : Node) (d : Gate)
    (i : Z) :
  gate_at s g G d →
  heap s !! child = Some A →
  AddArg_pre d i A →
  (i ∈ args_ d →
   AddArgWith duplicate complement s g i child = duplicate s g i) ∧
  (i ∉ args_ d → - i ∈ args_ d →
   AddArgWith duplicate complement s g i child = complement s g i) ∧
  (i ∉ args_ d → - i ∉ args_ d → index_ G ∉ (parents_ A).*1 →
   ∃ s' G' d' A',
     AddArgWith duplicate complement s g i child = Ok s' ∧
     gate_at s' g G' d' ∧
     heap s' !! child = Some A' ∧
     args_ d' = {[i]} ∪ args_ d ∧
     typed_args (kind A) d' = typed_args (kind A) d ++ [(i, child)] ∧
     (∀ T, same_class T (kind A) = false → typed_args T d' = typed_args T d) ∧
     parents_ A' = parents_ A ++ [(index_ G, g)] ∧
     type_ d' = type_ d ∧ state_ d' = state_ d ∧
     vote_number_ d' = vote_number_ d ∧
     (∀ q, q ≠ g → q ≠ child → heap s' !! q = heap s !! q)).
Proof.
  intros HG HA Hpre.
  rewrite (AddArgWith_pre s g child G A d i HG HA Hpre).
  split; [|split].
  - intros Hi. by rewrite (bool_decide_eq_true_2 _ Hi).
  - intros Hi Hni. by rewrite (bool_decide_eq_false_2 _ Hi), (bool_decide_eq_true_2 _ Hni).
  - intros Hi Hni Hp.
    rewrite (bool_decide_eq_false_2 _ Hi), (bool_decide_eq_false_2 _ Hni).
    rewrite (InsertArg_Ok s g i child G d A HG HA Hp).
    set (s2 := upd_gate g (emplace_arg (kind A) i child)
                 (upd_gate g (insert_index i) s)).
    set (f := λ m, linear_map.emplace_back m (index_ G) g).
    assert (HG2 : gate_at s2 g (set_gate (emplace_arg (kind A) i child)
                                  (set_gate (insert_index i) G))
                    (emplace_arg (kind A) i child (insert_index i d))).
    { by do 2 apply gate_at_upd_gate. }
    destruct (gate_at_upd_parents child f s2 g _ _ HG2) as (G' & HG' & _ & _).
    assert (HA' : ∃ A', heap (upd child (set_parents f) s2) !! child = Some A' ∧
                        parents_ A' = f (parents_ A)).
    { destruct (lookup_upd_gate_parents g (insert_index i) s child A HA)
        as (A1 & HA1 & Hp1 & _).
      destruct (lookup_upd_gate_parents g (emplace_arg (kind A) i child) _ child A1 HA1)
        as (A2 & HA2 & Hp2 & _).
      exists (set_parents f A2). split.
      - by apply lookup_upd_eq.
      - simpl. by rewrite Hp2, Hp1. }
    destruct HA' as (A' & HA' & Hp').
    exists (upd child (set_parents f) s2), G',
      (emplace_arg (kind A) i child (insert_index i d)), A'.
    split; [done|]. split; [exact HG'|]. split; [exact HA'|].
    repeat split; try done.
    + by destruct (kind A).
    + by destruct (kind A).
    + intros T HT. by destruct (kind A), T.
    + by destruct (kind A).
    + by destruct (kind A).
    + by destruct (kind A).
    + intros q Hg Hc. unfold s2, upd_gate. by rewrite !lookup_upd_ne.
Qed.

End Dispatch.

Ltac by_computation := apply (bool_decide_unpack _); vm_compute; exact I.

Lemma AddArg_preconditions_witness :
  AddArg and_gate_example 3%nat 2 1%nat =
    ProcessComplementArg and_gate_example 3%nat 2 ∧
  ∃ e, AddArg and_gate_example 3%nat 0 1%nat = Abort e.
Proof.
  edestruct AddArg_preconditions
    with (duplicate := ProcessDuplicateArg) (complement := ProcessComplementArg)
         (s := and_gate_example) (g := 3%nat) (arg := 1%nat) (index := 2)
    as (_ & Hrun & _); [split; reflexivity | reflexivity |].
  edestruct AddArg_preconditions
    with (duplicate := ProcessDuplicateArg) (complement := ProcessComplementArg)
         (s := and_gate_example) (g := 3%nat) (arg := 1%nat) (index := 0)
    as (_ & _ & Habort); [split; reflexivity | reflexivity |].
  split.
  - etrans; [apply Hrun | reflexivity].
    repeat split; by_computation.
  - destruct Habort as (e & _ & He).
    + intros (Hz & _). by apply Hz.
    + by exists e.
Defined.

Lemma AddArg_dispatch_witness :
  ∃ s' G' d',
    AddArg and_gate_example 3%nat 3 2%nat = Ok s' ∧
    gate_at s' 3%nat G' d' ∧
    args_ d' = {[3]} ∪ {[-2]} ∧
    variable_args_ d' = [(-2, 1%nat); (3, 2%nat)].
Proof.
  edestruct AddArg_dispatch
    with (duplicate := ProcessDuplicateArg) (complement := ProcessComplementArg)
         (s := and_gate_example) (g := 3%nat) (child := 2%nat) (i := 3)
    as (_ & _ & Hnew); [split; reflexivity | reflexivity | |].
  - repeat split; by_computation.
  - destruct Hnew as (s' & G' & d' & A' & Hrun & HG' & _ & Hargs & Hvars & _);
      try by_computation.
    exists s', G', d'. repeat split; try done; apply HG'.
Defined.

(** ** De Morgan: [InvertArgs] *)

Lemma set_map_opp_elem (a : gset Z) (i : Z) :
  i ∈ (set_map Z.opp a : gset Z) ↔ - i ∈ a.
Proof.
  rewrite elem_of_map. split.
  - intros (y & -> & Hy). by rewrite Z.opp_involutive.
  - intros Hi. exists (- i). by rewrite Z.opp_involutive.
Qed.

Lemma set_map_opp_involutive (a : gset Z) :
  set_map Z.opp (set_map Z.opp a : gset Z) = a.
Proof.
  apply set_eq. intros i.
  by rewrite !set_map_opp_elem, Z.opp_involutive.
Qed.

Lemma negate_keys_involutive m : negate_keys (negate_keys m) = m.
Proof.
  induction m as [|[k v] m IH]; [done|].
  unfold negate_keys in *. rewrite !fmap_cons. simpl.
  rewrite Z.opp_involutive. f_equal. exact IH.
Qed.

Lemma invert_involutive d : invert (invert d) = d.
Proof.
  destruct d. unfold invert, set_args. simpl.
  by rewrite set_map_opp_involutive, !negate_keys_involutive.
Qed.

Lemma set_heap_heap s : set_heap (heap s) s = s.
Proof. by destruct s. Qed.

Lemma upd_upd p f f' s : upd p f (upd p f' s) = upd p (f ∘ f') s.
Proof. unfold upd, set_heap. simpl. by rewrite list_alter_alter_eq. Qed.

Lemma upd_id p f s : (∀ n, f n = n) → upd p f s = s.
Proof.
  intros Hf. unfold upd. rewrite list_alter_id by done. apply set_heap_heap.
Qed.

(** C8.  On a gate without constant arguments, [InvertArgs()] flips the
    sign of every argument index, and a second call restores the argument
    set, and with it the whole graph; the parent entries of every node are
    the same throughout. *)
Theorem InvertArgs_twice (s : Pdag) (g : ptr) (G : Node) (d : Gate) :
  gate_at s g G d →
  constant_args_ d = [] →
  ∃ s1 G1 d1,
    InvertArgs s g = Ok s1 ∧
    gate_at s1 g G1 d1 ∧
    (∀ i, i ∈ args_ d1 ↔ - i ∈ args_ d) ∧
    (∀ p n, heap s !! p = Some n →
            ∃ n1, heap s1 !! p = Some n1 ∧ parents_ n1 = parents_ n) ∧
    InvertArgs s1 g = Ok s.
Proof.
  intros HG _.
  exists (upd_gate g invert s), (set_gate invert G), (invert d).
  assert (HG1 : gate_at (upd_gate g invert s) g (set_gate invert G) (invert d))
    by by apply gate_at_upd_gate.
  split; [|split; [done|split; [|split]]].
  - unfold InvertArgs. by rewrite (proj2 (get_gate_Ok _ _ _ _) HG).
  - intros i. apply set_map_opp_elem.
  - intros p n Hn.
    destruct (lookup_upd_gate_parents g invert s p n Hn) as (n1 & Hn1 & Hp & _).
    by exists n1.
  - unfold InvertArgs. rewrite (proj2 (get_gate_Ok _ _ _ _) HG1). simpl.
    f_equal. unfold upd_gate. rewrite upd_upd. apply upd_id.
    intros n. destruct n as [ps ix od vs ov pc nc k]. unfold set_gate. simpl.
    f_equal. destruct k; try done. by rewrite invert_involutive.
Qed.

Lemma InvertArgs_twice_witness :
  ∃ s1, InvertArgs and_gate_example 3%nat = Ok s1 ∧
        InvertArgs s1 3%nat = Ok and_gate_example.
Proof.
  edestruct (InvertArgs_twice and_gate_example 3%nat)
    as (s1 & _ & _ & Hrun & _ & _ & _ & Hback);
    [split; reflexivity | reflexivity |].
  by exists s1.
Defined.

(** ** Parent entries *)

Lemma erase_not_elem (m : linear_map.t) (key : Z) :
  NoDup m.*1 → key ∉ (linear_map.erase m key).*1.
Proof.
  induction m as [|[k v] m IH]; simpl; intros Hnd.
  - apply not_elem_of_nil.
  - apply NoDup_cons in Hnd as [Hk Hnd]. case_decide as E.
    + by subst.
    + simpl. rewrite not_elem_of_cons. split; [done | by apply IH].
Qed.

Lemma erase_absent (m : linear_map.t) (key : Z) :
  key ∉ m.*1 → linear_map.erase m key = m.
Proof.
  induction m as [|[k v] m IH]; simpl; intros Hk; [done|].
  apply not_elem_of_cons in Hk as [Hne Hk].
  rewrite decide_False by done. by rewrite IH.
Qed.

Lemma erase_emplace_back (m : linear_map.t) (key : Z) (v : ptr) :
  key ∉ m.*1 → linear_map.erase (linear_map.emplace_back m key v) key = m.
Proof.
  unfold linear_map.emplace_back.
  induction m as [|[k w] m IH]; simpl; intros Hk.
  - by rewrite decide_True.
  - apply not_elem_of_cons in Hk as [Hne Hk].
    rewrite decide_False by done. by rewrite IH.
Qed.

Lemma filter_key_absent (m : linear_map.t) (key : Z) :
  key ∉ m.*1 → filter (λ e : Z * ptr, e.1 = key) m = [].
Proof.
  induction m as [|[k v] m IH]; simpl; intros Hk; [done|].
  apply not_elem_of_cons in Hk as [Hne Hk].
  rewrite filter_cons_False by (simpl; congruence). by apply IH.
Qed.

Lemma parent_entries_absent n index :
  index ∉ (parents_ n).*1 → parent_entries n index = 0%nat.
Proof. intros H. unfold parent_entries. by rewrite filter_key_absent. Qed.

Lemma parent_entries_once n index :
  NoDup (parents_ n).*1 → index ∈ (parents_ n).*1 → parent_entries n index = 1%nat.
Proof.
  unfold parent_entries. generalize (parents_ n). clear n. intros m.
  induction m as [|[k v] m IH]; simpl; intros Hnd Hin.
  - by apply elem_of_nil in Hin.
  - apply NoDup_cons in Hnd as [Hk Hnd].
    destruct (decide (k = index)) as [->|Hne].
    + rewrite filter_cons_True by done. simpl. by rewrite filter_key_absent.
    + rewrite filter_cons_False by (simpl; congruence).
      apply IH; [done|]. apply elem_of_cons in Hin as [?|?]; [congruence|done].
Qed.

Lemma parent_entries_emplace n index (v : ptr) :
  index ∉ (parents_ n).*1 →
  length (filter (λ e : Z * ptr, e.1 = index)
            (linear_map.emplace_back (parents_ n) index v)) = 1%nat.
Proof.
  intros H. unfold linear_map.emplace_back.
  rewrite filter_app, filter_key_absent by done. simpl.
  by rewrite filter_cons_True.
Qed.

(** ** Well-formed gates *)

Lemma abs_eq_cases (i j : Z) : Z.abs j = Z.abs i → j = i ∨ j = - i.
Proof. lia. Qed.

Lemma elem_of_children d p : p ∈ children d ↔ ∃ i, (i, p) ∈ all_args d.
Proof.
  unfold children. rewrite list_elem_of_fmap. split.
  - intros ([i q] & -> & H). by exists i.
  - intros (i & H). by exists (i, p).
Qed.

Lemma elem_of_keys (m : linear_map.t) i : i ∈ m.*1 ↔ ∃ p, (i, p) ∈ m.
Proof.
  rewrite list_elem_of_fmap. split.
  - intros ([j q] & -> & H). by exists q.
  - intros (p & H). by exists (i, p).
Qed.

(** The child of index |i| is held by the gate exactly when i or -i is an
    argument. *)
Lemma well_formed_child s G d c A i :
  well_formed s G d → heap s !! c = Some A → Z.abs i = index_ A →
  c ∈ children d ↔ i ∈ args_ d ∨ - i ∈ args_ d.
Proof.
  intros Hwf HA Habs. split.
  - intros (j & Hj)%elem_of_children.
    pose proof (wf_magnitude _ _ _ Hwf j c A Hj HA) as Hm.
    assert (Hk : j ∈ args_ d).
    { apply (wf_keys _ _ _ Hwf), elem_of_keys. by exists c. }
    destruct (abs_eq_cases i j) as [->| ->]; [congruence|by left|by right].
  - intros Hi.
    assert (∃ j, j ∈ args_ d ∧ Z.abs j = index_ A) as (j & Hj & Hm).
    { destruct Hi as [Hi|Hi]; [by exists i|exists (- i)]. split; [done|lia]. }
    apply (wf_keys _ _ _ Hwf), elem_of_keys in Hj as (p & Hp).
    assert (Hpc : p ∈ children d) by (apply elem_of_children; by exists j).
    destruct (wf_children _ _ _ Hwf p Hpc) as (n & Hn).
    pose proof (wf_magnitude _ _ _ Hwf j p n Hp Hn) as Hm'.
    assert (p = c) as <-; [|done].
    eapply (wf_index_unique _ _ _ Hwf); [done..|congruence].
Qed.

Lemma well_formed_parent s G d c A i :
  well_formed s G d → heap s !! c = Some A → Z.abs i = index_ A →
  index_ G ∈ (parents_ A).*1 ↔ i ∈ args_ d ∨ - i ∈ args_ d.
Proof.
  intros Hwf HA Habs.
  rewrite (wf_parent_symmetry _ _ _ Hwf c A HA).
  by apply (well_formed_child s G d c A i).
Qed.

(** ** Duplicate arguments of AND, OR, NAND and NOR gates *)

Lemma absorbing_cases t :
  t ∈ [kAnd; kOr; kNand; kNor] ↔ t = kAnd ∨ t = kOr ∨ t = kNand ∨ t = kNor.
Proof.
  rewrite !elem_of_cons, elem_of_nil. tauto.
Qed.

Lemma ProcessDuplicateArg_absorbs s g G d index :
  gate_at s g G d → type_ d ∈ [kAnd; kOr; kNand; kNor] →
  ProcessDuplicateArg s g index = Ok s.
Proof.
  intros HG Ht. unfold ProcessDuplicateArg.
  rewrite (proj2 (get_gate_Ok _ _ _ _) HG). simpl.
  apply absorbing_cases in Ht as [->|[->|[->| ->]]]; done.
Qed.

Lemma AddArg_pre_same d d' i A A' :
  type_ d' = type_ d → state_ d' = state_ d → vote_number_ d' = vote_number_ d →
  index_ A' = index_ A →
  type_ d ∈ [kAnd; kOr; kNand; kNor] →
  AddArg_pre d i A → AddArg_pre d' i A'.
Proof.
  intros Ht Hs Hv Hi Hop (H1 & H2 & H3 & H4 & H5 & H6).
  unfold AddArg_pre. rewrite Ht, Hs, Hv, Hi.
  apply absorbing_cases in Hop.
  repeat split; try done.
  - intros [E|E]; rewrite E in Hop; destruct Hop as [?|[?|[?|?]]]; discriminate.
  - intros E; rewrite E in Hop; destruct Hop as [?|[?|[?|?]]]; discriminate.
Qed.

(** C4, amended.  On a well-formed gate of type AND, OR, NAND or NOR in
    Normal state that does not hold -i, a call [AddArg(i, c)] that meets
    the preconditions succeeds, a second such call leaves the whole graph
    as the first one left it, and c has exactly one parent entry for the
    gate. *)
Theorem AddArg_duplicate_absorbs (s : Pdag) (g c : ptr) (G A : Node) (d : Gate)
    (i : Z) :
  gate_at s g G d →
  heap s !! c = Some A →
  well_formed s G d →
  type_ d ∈ [kAnd; kOr; kNand; kNor] →
  AddArg_pre d i A →
  - i ∉ args_ d →
  ∃ s1 A1,
    AddArg s g i c = Ok s1 ∧
    AddArg s1 g i c = Ok s1 ∧
    heap s1 !! c = Some A1 ∧
    parent_entries A1 (index_ G) = 1%nat.
Proof.
  intros HG HA Hwf Hop Hpre Hni.
  pose proof Hpre as (_ & Habs & _).
  unfold AddArg.
  destruct (decide (i ∈ args_ d)) as [Hi|Hi].
  - exists s, A.
    rewrite (AddArgWith_pre _ _ s g c G A d i HG HA Hpre).
    rewrite (bool_decide_eq_true_2 _ Hi).
    rewrite (ProcessDuplicateArg_absorbs s g G d i HG Hop).
    repeat split; try done.
    apply parent_entries_once.
    + by apply (wf_parent_map _ _ _ Hwf c).
    + apply (well_formed_parent s G d c A i); auto.
  - assert (Hp : index_ G ∉ (parents_ A).*1).
    { rewrite (well_formed_parent s G d c A i) by done. tauto. }
    rewrite (AddArgWith_pre _ _ s g c G A d i HG HA Hpre).
    rewrite (bool_decide_eq_false_2 _ Hi), (bool_decide_eq_false_2 _ Hni).
    rewrite (InsertArg_Ok s g i c G d A HG HA Hp).
    set (f := λ m : list (Z * nat), linear_map.emplace_back m (index_ G) g).
    set (d1 := emplace_arg (kind A) i c (insert_index i d)).
    set (s2 := upd_gate g (emplace_arg (kind A) i c)
                 (upd_gate g (insert_index i) s)).
    assert (HG2 : gate_at s2 g (set_gate (emplace_arg (kind A) i c)
                                  (set_gate (insert_index i) G)) d1).
    { by do 2 apply gate_at_upd_gate. }
    destruct (gate_at_upd_parents c f s2 g _ _ HG2) as (G1 & HG1 & HiG1 & _).
    destruct (lookup_upd_gate_parents g (insert_index i) s c A HA)
      as (A' & HA' & Hp' & Hi' & _).
    destruct (lookup_upd_gate_parents g (emplace_arg (kind A) i c) _ c A' HA')
      as (A2 & HA2 & Hp2 & Hi2 & _).
    fold s2 in HA2.
    exists (upd c (set_parents f) s2), (set_parents f A2).
    assert (HA1 : heap (upd c (set_parents f) s2) !! c = Some (set_parents f A2))
      by by apply lookup_upd_eq.
    split; [done|]. split; [|split; [done|]].
    + assert (Hpre1 : AddArg_pre d1 i (set_parents f A2)).
      { apply (AddArg_pre_same d d1 i A); try done.
        - unfold d1. by destruct (kind A).
        - unfold d1. by destruct (kind A).
        - unfold d1. by destruct (kind A).
        - simpl. congruence. }
      rewrite (AddArgWith_pre _ _ _ g c G1 _ d1 i HG1 HA1 Hpre1).
      assert (Hin : i ∈ args_ d1).
      { unfold d1. destruct (kind A); simpl;
          apply elem_of_union_l; by apply elem_of_singleton. }
      rewrite (bool_decide_eq_true_2 _ Hin).
      apply (ProcessDuplicateArg_absorbs _ g G1 d1 i HG1).
      unfold d1. by destruct (kind A).
    + unfold parent_entries. simpl. rewrite Hp2, Hp'.
      by apply parent_entries_emplace.
Qed.

Ltac heap_cases p Hn :=
  destruct p as [|[|[|[|[|[|p]]]]]]; simpl in Hn;
  try discriminate Hn; try (injection Hn as <-).

Lemma and_gate_example_well_formed G d :
  gate_at and_gate_example 3%nat G d → well_formed and_gate_example G d.
Proof.
  intros [HG Hd]. injection HG as <-. injection Hd as <-.
  split.
  - intros i. change (i ∈ ({[-2]} : gset Z) ↔ i ∈ [-2]).
    rewrite elem_of_singleton, list_elem_of_singleton. done.
  - intros i p n Hin Hn. apply list_elem_of_singleton in Hin. injection Hin as -> ->.
    injection Hn as <-. done.
  - intros p Hp. apply list_elem_of_singleton in Hp as ->. by eexists.
  - apply NoDup_singleton.
  - intros p n Hn. change (children _) with [1%nat].
    rewrite list_elem_of_singleton.
    heap_cases p Hn; simpl; (split; [|try discriminate]);
      rewrite ?elem_of_nil; try done.
    intros _; apply list_elem_of_here.
  - intros p n Hn.
    heap_cases p Hn; simpl; try apply NoDup_nil_2; apply NoDup_singleton.
  - intros p q n m Hn Hm.
    heap_cases p Hn; heap_cases q Hm; simpl; done.
Qed.

Lemma AddArg_duplicate_absorbs_witness :
  ∃ s1 A1,
    AddArg and_gate_example 3%nat 3 2%nat = Ok s1 ∧
    AddArg s1 3%nat 3 2%nat = Ok s1 ∧
    heap s1 !! 2%nat = Some A1 ∧
    parent_entries A1 4 = 1%nat.
Proof.
  edestruct AddArg_duplicate_absorbs
    with (s := and_gate_example) (g := 3%nat) (c := 2%nat) (i := 3)
    as (s1 & A1 & H1 & H2 & H3 & H4).
  - split; reflexivity.
  - reflexivity.
  - apply and_gate_example_well_formed. split; reflexivity.
  - by_computation.
  - repeat split; by_computation.
  - by_computation.
  - by exists s1, A1.
Defined.

(** C4 as stated fails on an AND gate in Normal state that holds -i: the
    first call [AddArg(i, c)] collapses the gate to Null and removes the
    parent entry of c, and the second call is refused. *)
Lemma AddArg_duplicate_counterexample :
  ∃ G d A,
    gate_at and_gate_example 3%nat G d ∧
    heap and_gate_example !! 1%nat = Some A ∧
    type_ d = kAnd ∧ state_ d = kNormalState ∧ Z.abs 2 = index_ A ∧
    well_formed and_gate_example G d ∧
    AddArg_pre d 2 A ∧
    ¬ ∃ s1 A1,
        AddArg and_gate_example 3%nat 2 1%nat = Ok s1 ∧
        AddArg s1 3%nat 2 1%nat = Ok s1 ∧
        heap s1 !! 1%nat = Some A1 ∧
        parent_entries A1 (index_ G) = 1%nat.
Proof.
  eexists _, _, _.
  split; [split; reflexivity|]. split; [reflexivity|].
  split; [reflexivity|]. split; [reflexivity|]. split; [reflexivity|].
  split; [apply and_gate_example_well_formed; split; reflexivity|].
  split; [repeat split; by_computation|].
  intros (s1 & A1 & H1 & H2 & _).
  vm_compute in H1. injection H1 as <-.
  vm_compute in H2. discriminate H2.
Qed.

(** ** Clearing the arguments of a gate *)

Lemma EraseParents_Ok children s index :
  NoDup children →
  (∀ p, p ∈ children → ∃ n, heap s !! p = Some n ∧ index ∈ (parents_ n).*1) →
  ∃ s',
    EraseParents s children index = Ok s' ∧
    s' = set_heap (heap s') s ∧
    ∀ q, heap s' !! q =
           if decide (q ∈ children)
           then set_parents (λ m, linear_map.erase m index) <$> heap s !! q
           else heap s !! q.
Proof.
  revert s. induction children as [|p L IH]; intros s Hnd Hall; cbn [EraseParents].
  - exists s. split; [done|]. split; [by rewrite set_heap_heap|].
    intros q. case_decide as Hq; [by apply elem_of_nil in Hq|done].
  - apply NoDup_cons in Hnd as [Hp Hnd].
    destruct (Hall p) as (n & Hn & Hin); [apply list_elem_of_here|].
    unfold EraseParent. rewrite (proj2 (get_node_Ok _ _ _) Hn). cbn [mbind Res_bind].
    unfold linear_map.count. rewrite (bool_decide_eq_true_2 _ Hin). cbn [mbind Res_bind check].
    set (s1 := upd p (set_parents (λ m, linear_map.erase m index)) s).
    destruct (IH s1 Hnd) as (s' & Hrun & Hframe & Hlook).
    { intros q Hq. destruct (Hall q) as (m & Hm & Hmi); [by apply list_elem_of_further|].
      exists m. split; [|done]. unfold s1. rewrite lookup_upd_ne; [done|].
      intros ->. done. }
    exists s'. split; [done|]. split.
    + rewrite Hframe. by destruct s.
    + intros q. rewrite Hlook. unfold s1.
      destruct (decide (q = p)) as [->|Hne].
      * rewrite (decide_False (P := p ∈ L)) by done.
        rewrite (decide_True (P := p ∈ p :: L)) by apply list_elem_of_here.
        by rewrite lookup_upd, decide_True.
      * rewrite lookup_upd_ne by done.
        destruct (decide (q ∈ L)) as [Hq|Hq].
        -- rewrite decide_True; [done|by apply list_elem_of_further].
        -- rewrite decide_False; [done|].
           rewrite not_elem_of_cons. done.
Qed.

Lemma EraseAllArgs_Ok s g G d :
  gate_at s g G d →
  NoDup (children d) →
  (∀ p, p ∈ children d →
        ∃ n, heap s !! p = Some n ∧ index_ G ∈ (parents_ n).*1) →
  ∃ s' G',
    EraseAllArgs s g = Ok s' ∧
    gate_at s' g G' (clear_args d) ∧
    ∀ q n, heap s !! q = Some n →
      ∃ n', heap s' !! q = Some n' ∧ index_ n' = index_ n ∧
            parents_ n' = if decide (q ∈ children d)
                          then linear_map.erase (parents_ n) (index_ G)
                          else parents_ n.
Proof.
  intros HG Hnd Hall. unfold EraseAllArgs.
  rewrite (proj2 (get_gate_Ok _ _ _ _) HG). simpl.
  destruct (EraseParents_Ok (children d) s (index_ G) Hnd Hall)
    as (s1 & Hrun & _ & Hlook).
  unfold children in Hrun. rewrite Hrun. simpl.
  assert (HG1 : ∃ G1, gate_at s1 g G1 d ∧ index_ G1 = index_ G) .
  { destruct HG as [E K]. specialize (Hlook g). rewrite E in Hlook.
    case_decide; simpl in Hlook; eexists; (split; [split; [exact Hlook|done]|done]). }
  destruct HG1 as (G1 & HG1 & _).
  exists (upd_gate g clear_args s1), (set_gate clear_args G1).
  split; [done|]. split; [by apply gate_at_upd_gate|].
  intros q n Hn.
  assert (∃ n1, heap s1 !! q = Some n1 ∧ index_ n1 = index_ n ∧
                parents_ n1 = if decide (q ∈ children d)
                              then linear_map.erase (parents_ n) (index_ G)
                              else parents_ n) as (n1 & Hn1 & Hi1 & Hp1).
  { rewrite Hlook, Hn. case_decide; simpl; eexists; done. }
  destruct (lookup_upd_gate_parents g clear_args s1 q n1 Hn1) as (n' & Hn' & Hp' & Hi' & _).
  exists n'. split; [done|]. split; congruence.
Qed.

Lemma MakeConstant_Ok s g G d state :
  gate_at s g G d →
  state_ d = kNormalState →
  NoDup (children d) →
  (∀ p, p ∈ children d →
        ∃ n, heap s !! p = Some n ∧ index_ G ∈ (parents_ n).*1) →
  ∃ s' G',
    MakeConstant s g state = Ok s' ∧
    gate_at s' g G'
      (clear_args (set_state (if state then kUnityState else kNullState) d)) ∧
    ∀ q n, heap s !! q = Some n →
      ∃ n', heap s' !! q = Some n' ∧ index_ n' = index_ n ∧
            parents_ n' = if decide (q ∈ children d)
                          then linear_map.erase (parents_ n) (index_ G)
                          else parents_ n.
Proof.
  intros HG Hst Hnd Hall. unfold MakeConstant.
  rewrite (proj2 (get_gate_Ok _ _ _ _) HG). simpl.
  rewrite (bool_decide_eq_true_2 _ Hst). simpl.
  set (st := if state then kUnityState else kNullState).
  set (s0 := upd_gate g (set_state st) s).
  assert (HG0 : gate_at s0 g (set_gate (set_state st) G) (set_state st d))
    by by apply gate_at_upd_gate.
  destruct (EraseAllArgs_Ok s0 g _ _ HG0) as (s' & G' & Hrun & HG' & Hlook).
  - done.
  - intros p Hp. destruct (Hall p Hp) as (n & Hn & Hin).
    destruct (lookup_upd_gate_parents g (set_state st) s p n Hn) as (n0 & Hn0 & Hp0 & _).
    exists n0. split; [done|]. simpl. by rewrite Hp0.
  - exists s', G'. split; [done|]. split; [done|].
    intros q n Hn.
    destruct (lookup_upd_gate_parents g (set_state st) s q n Hn)
      as (n0 & Hn0 & Hp0 & Hi0 & _).
    destruct (Hlook q n0 Hn0) as (n' & Hn' & Hi' & Hp').
    exists n'. split; [done|]. split; [congruence|].
    rewrite Hp'. simpl. change (children (set_state st d)) with (children d).
    by rewrite Hp0.
Qed.

(** ** An argument and its complement *)

Lemma children_emplace T i c d :
  children (emplace_arg T i c d) ≡ₚ c :: children d.
Proof.
  unfold children, all_args.
  destruct T; cbn [emplace_arg set_args gate_args_ variable_args_ constant_args_];
    unfold linear_map.emplace_back; rewrite !fmap_app; cbn [fmap list_fmap snd].
  - rewrite !app_assoc. symmetry. apply Permutation_cons_append.
  - rewrite <- (app_assoc _ [c]), !app_assoc, <- (app_assoc _ [c]).
    symmetry. apply (Permutation_middle _ (constant_args_ d).*2 c).
  - rewrite <- (app_assoc _ [c]). symmetry.
    apply (Permutation_middle (gate_args_ d).*2 _ c).
Qed.

Lemma ProcessComplementArg_collapses s g G d index st :
  gate_at s g G d → complement_state (type_ d) = Some st →
  ProcessComplementArg s g index =
    MakeConstant s g (bool_decide (st = kUnityState)).
Proof.
  intros HG Hst. unfold ProcessComplementArg.
  rewrite (proj2 (get_gate_Ok _ _ _ _) HG). simpl.
  destruct (type_ d); simpl in Hst; simplify_eq; done.
Qed.

Lemma complement_state_not_normal t st :
  complement_state t = Some st → st ≠ kNormalState.
Proof. destruct t; simpl; intros; simplify_eq; done. Qed.

Lemma complement_state_decode t st :
  complement_state t = Some st →
  (if bool_decide (st = kUnityState) then kUnityState else kNullState) = st.
Proof. destruct t; simpl; intros; simplify_eq; done. Qed.

(** The second call of the pair: the gate holds i, not -i, and meets the
    complement. *)
Lemma AddArg_complement_step s g c G A d i st :
  gate_at s g G d →
  heap s !! c = Some A →
  complement_state (type_ d) = Some st →
  AddArg_pre d (- i) A →
  i ∈ args_ d → - i ∉ args_ d →
  c ∈ children d →
  NoDup (children d) →
  NoDup (parents_ A).*1 →
  (∀ p, p ∈ children d →
        ∃ n, heap s !! p = Some n ∧ index_ G ∈ (parents_ n).*1) →
  ∃ s2 G2 d2 A2,
    AddArg s g (- i) c = Ok s2 ∧
    gate_at s2 g G2 d2 ∧
    state_ d2 = st ∧ args_ d2 = ∅ ∧ all_args d2 = [] ∧ type_ d2 = type_ d ∧
    heap s2 !! c = Some A2 ∧
    parents_ A2 = linear_map.erase (parents_ A) (index_ G).
Proof.
  intros HG HA Hst Hpre Hi Hni Hc Hnd HndA Hall.
  unfold AddArg.
  rewrite (AddArgWith_pre _ _ s g c G A d (- i) HG HA Hpre).
  rewrite (bool_decide_eq_false_2 _ Hni).
  rewrite Z.opp_involutive, (bool_decide_eq_true_2 _ Hi).
  rewrite (ProcessComplementArg_collapses s g G d (- i) st HG Hst).
  destruct Hpre as (_ & _ & Hnormal & _).
  destruct (MakeConstant_Ok s g G d (bool_decide (st = kUnityState)) HG Hnormal Hnd Hall)
    as (s2 & G2 & Hrun & HG2 & Hlook).
  destruct (Hlook c A HA) as (A2 & HA2 & _ & Hp2).
  rewrite decide_True in Hp2 by done.
  eexists s2, G2, _, A2. split; [done|]. split; [exact HG2|].
  rewrite (complement_state_decode _ _ Hst).
  repeat split; done.
Qed.

(** C3, amended.  On a well-formed gate of type AND, OR, NAND, NOR or XOR
    in Normal state for which both calls meet the preconditions of
    [AddArg] (the gate does not hold -i, and an XOR gate is empty), the
    calls [AddArg(i, c); AddArg(-i, c)] succeed and leave the gate without
    arguments in Null state for AND and NOR, in Unity state for OR, NAND
    and XOR; c has no parent entry for the gate. *)
Theorem AddArg_complement_collapses (s : Pdag) (g c : ptr) (G A : Node)
    (d : Gate) (i : Z) (st : State) :
  gate_at s g G d →
  heap s !! c = Some A →
  well_formed s G d →
  complement_state (type_ d) = Some st →
  AddArg_pre d i A →
  - i ∉ args_ d →
  (type_ d = kXor → args_ d = ∅) →
  ∃ s2 G2 d2 A2,
    (AddArg s g i c ≫= λ s1, AddArg s1 g (- i) c) = Ok s2 ∧
    gate_at s2 g G2 d2 ∧
    state_ d2 = st ∧ st ≠ kNormalState ∧
    args_ d2 = ∅ ∧ all_args d2 = [] ∧
    heap s2 !! c = Some A2 ∧
    parent_entries A2 (index_ G) = 0%nat.
Proof.
  intros HG HA Hwf Hst Hpre Hni Hxor.
  pose proof Hpre as (Hnz & Habs & Hnormal & Hnot & _ & Hvote).
  assert (Hall : ∀ p, p ∈ children d →
            ∃ n, heap s !! p = Some n ∧ index_ G ∈ (parents_ n).*1).
  { intros p Hp. destruct (wf_children _ _ _ Hwf p Hp) as (n & Hn).
    exists n. split; [done|]. by apply (wf_parent_symmetry _ _ _ Hwf p n). }
  pose proof (wf_parent_map _ _ _ Hwf c A HA) as HndA.
  assert (Hnotnull : ¬ (type_ d = kNot ∨ type_ d = kNull)).
  { intros [E|E]; rewrite E in Hst; discriminate. }
  destruct (decide (i ∈ args_ d)) as [Hi|Hi].
  - (* the first call is a duplicate and changes nothing *)
    assert (Hty : type_ d ∈ [kAnd; kOr; kNand; kNor]).
    { apply absorbing_cases. destruct (type_ d) eqn:E; simpl in Hst; try discriminate; auto.
      specialize (Hxor eq_refl). rewrite Hxor in Hi. by apply not_elem_of_empty in Hi. }
    unfold AddArg.
    rewrite (AddArgWith_pre _ _ s g c G A d i HG HA Hpre).
    rewrite (bool_decide_eq_true_2 _ Hi).
    rewrite (ProcessDuplicateArg_absorbs s g G d i HG Hty). simpl.
    assert (Hpre' : AddArg_pre d (- i) A).
    { destruct Hpre as (? & ? & ? & ? & ? & ?). repeat split; try done; lia. }
    assert (Hc : c ∈ children d).
    { apply (well_formed_child s G d c A i); auto. }
    destruct (AddArg_complement_step s g c G A d i st)
      as (s2 & G2 & d2 & A2 & Hrun & HG2 & Hs2 & Ha2 & Hall2 & _ & HA2 & Hp2);
      try done; [apply (wf_children_once _ _ _ Hwf)|].
    unfold AddArg in Hrun.
    exists s2, G2, d2, A2.
    split; [done|]. split; [done|]. split; [done|].
    split; [by apply (complement_state_not_normal (type_ d))|].
    split; [done|]. split; [done|]. split; [done|].
    apply parent_entries_absent. rewrite Hp2. by apply erase_not_elem.
  - (* the first call inserts i *)
    assert (Hcn : c ∉ children d).
    { rewrite (well_formed_child s G d c A i) by done. tauto. }
    assert (Hp : index_ G ∉ (parents_ A).*1).
    { by rewrite (wf_parent_symmetry _ _ _ Hwf c A HA). }
    unfold AddArg.
    rewrite (AddArgWith_pre _ _ s g c G A d i HG HA Hpre).
    rewrite (bool_decide_eq_false_2 _ Hi), (bool_decide_eq_false_2 _ Hni).
    rewrite (InsertArg_Ok s g i c G d A HG HA Hp). simpl.
    set (f := λ m : list (Z * nat), linear_map.emplace_back m (index_ G) g).
    set (d1 := emplace_arg (kind A) i c (insert_index i d)).
    set (s0 := upd_gate g (emplace_arg (kind A) i c)
                 (upd_gate g (insert_index i) s)).
    set (s1 := upd c (set_parents f) s0).
    assert (HG0 : gate_at s0 g (set_gate (emplace_arg (kind A) i c)
                                  (set_gate (insert_index i) G)) d1).
    { by do 2 apply gate_at_upd_gate. }
    destruct (gate_at_upd_parents c f s0 g _ _ HG0) as (G1 & HG1 & HiG1 & _).
    fold s1 in HG1. simpl in HiG1.
    assert (Hlook0 : ∀ q n, heap s !! q = Some n →
              ∃ n0, heap s0 !! q = Some n0 ∧ parents_ n0 = parents_ n ∧
                    index_ n0 = index_ n).
    { intros q n Hn.
      destruct (lookup_upd_gate_parents g (insert_index i) s q n Hn)
        as (n' & Hn' & Hp' & Hi' & _).
      destruct (lookup_upd_gate_parents g (emplace_arg (kind A) i c) _ q n' Hn')
        as (n0 & Hn0 & Hp0 & Hi0 & _).
      exists n0. split; [done|]. split; congruence. }
    destruct (Hlook0 c A HA) as (A0 & HA0 & HpA0 & HiA0).
    assert (HA1 : heap s1 !! c = Some (set_parents f A0))
      by by apply lookup_upd_eq.
    assert (Hargs1 : args_ d1 = {[i]} ∪ args_ d) by (unfold d1; by destruct (kind A)).
    assert (Hty1 : type_ d1 = type_ d) by (unfold d1; by destruct (kind A)).
    assert (Hst1 : state_ d1 = state_ d) by (unfold d1; by destruct (kind A)).
    assert (Hv1 : vote_number_ d1 = vote_number_ d) by (unfold d1; by destruct (kind A)).
    assert (Hch1 : children d1 ≡ₚ c :: children d).
    { unfold d1. rewrite children_emplace. done. }
    destruct (AddArg_complement_step s1 g c G1 (set_parents f A0) d1 i st)
      as (s2 & G2 & d2 & A2 & Hrun & HG2 & Hs2 & Ha2 & Hall2 & _ & HA2 & Hp2);
      try done.
    + by rewrite Hty1.
    + unfold AddArg_pre. rewrite Hty1, Hst1, Hv1, Hargs1. simpl.
      repeat split; try done; try lia.
      * intros Hx. specialize (Hxor Hx). rewrite Hxor.
        rewrite (right_id_L ∅ (∪)), size_singleton. lia.
    + rewrite Hargs1. apply elem_of_union_l. by apply elem_of_singleton.
    + rewrite Hargs1. rewrite not_elem_of_union, not_elem_of_singleton.
      split; [lia|done].
    + rewrite Hch1. apply list_elem_of_here.
    + rewrite Hch1. apply NoDup_cons. split; [done|apply (wf_children_once _ _ _ Hwf)].
    + simpl. rewrite HpA0. unfold f, linear_map.emplace_back.
      rewrite fmap_app. apply NoDup_app. split; [done|]. split.
      * intros k Hk Hk'. apply list_elem_of_singleton in Hk'. simpl in Hk'. by subst.
      * apply NoDup_singleton.
    + intros p Hp1. rewrite Hch1 in Hp1. rewrite HiG1.
      apply elem_of_cons in Hp1 as [->|Hp1].
      * eexists. split; [exact HA1|]. simpl. rewrite HpA0. unfold f, linear_map.emplace_back.
        rewrite fmap_app. apply elem_of_app. right. apply list_elem_of_here.
      * destruct (Hall p Hp1) as (n & Hn & Hin).
        destruct (Hlook0 p n Hn) as (n0 & Hn0 & Hp0 & _).
        exists n0. split; [|by rewrite Hp0].
        unfold s1. rewrite lookup_upd_ne; [done|]. intros ->. done.
    + unfold AddArg in Hrun.
      exists s2, G2, d2, A2.
      split; [done|]. split; [done|]. split; [done|].
      split; [by apply (complement_state_not_normal (type_ d))|].
      split; [done|]. split; [done|]. split; [done|].
      apply parent_entries_absent. rewrite Hp2, HiG1. simpl. rewrite HpA0.
        unfold f. by rewrite erase_emplace_back.
Qed.

Lemma AddArg_complement_collapses_witness :
  ∃ s2 G2 d2 A2,
    (AddArg and_gate_example 3%nat 3 2%nat ≫= λ s1, AddArg s1 3%nat (-3) 2%nat)
      = Ok s2 ∧
    gate_at s2 3%nat G2 d2 ∧
    state_ d2 = kNullState ∧ args_ d2 = ∅ ∧
    heap s2 !! 2%nat = Some A2 ∧ parent_entries A2 4 = 0%nat.
Proof.
  edestruct AddArg_complement_collapses
    with (s := and_gate_example) (g := 3%nat) (c := 2%nat) (i := 3)
         (st := kNullState)
    as (s2 & G2 & d2 & A2 & H1 & H2 & H3 & _ & H4 & _ & H5 & H6).
  - split; reflexivity.
  - reflexivity.
  - apply and_gate_example_well_formed. split; reflexivity.
  - reflexivity.
  - repeat split; by_computation.
  - by_computation.
  - intros Hx. discriminate Hx.
  - by exists s2, G2, d2, A2.
Defined.

Lemma vote_gate_example_well_formed G d :
  gate_at vote_gate_example 4%nat G d → well_formed vote_gate_example G d.
Proof.
  intros [HG Hd]. injection HG as <-. injection Hd as <-.
  split.
  - intros i. change (i ∈ ({[2; 3]} : gset Z) ↔ i ∈ [2; 3]).
    rewrite elem_of_union, !elem_of_singleton, elem_of_cons, list_elem_of_singleton.
    done.
  - intros i p n Hin Hn. change (all_args _) with [(2, 1%nat); (3, 2%nat)] in Hin.
    apply elem_of_cons in Hin as [Hin|Hin%list_elem_of_singleton];
      injection Hin as -> ->; injection Hn as <-; done.
  - intros p Hp. change (children _) with [1%nat; 2%nat] in Hp.
    apply elem_of_cons in Hp as [->|Hp%list_elem_of_singleton]; subst; by eexists.
  - change (children _) with [1%nat; 2%nat]. apply NoDup_cons_2; [rewrite list_elem_of_singleton; lia|apply NoDup_singleton].
  - intros p n Hn. change (children _) with [1%nat; 2%nat].
    rewrite elem_of_cons, list_elem_of_singleton.
    heap_cases p Hn; simpl; rewrite ?elem_of_nil, ?list_elem_of_singleton;
      split; try (intros [?|?]); try done; try lia; auto.
  - intros p n Hn.
    heap_cases p Hn; simpl; try apply NoDup_nil_2; apply NoDup_singleton.
  - intros p q n m Hn Hm.
    heap_cases p Hn; heap_cases q Hm; simpl; done.
Qed.

(** C3 as stated fails on a VOTE gate: the pair of calls rewrites the gate
    in place and leaves it in Normal state with its other arguments. *)
Lemma AddArg_complement_counterexample :
  ∃ G d A,
    gate_at vote_gate_example 4%nat G d ∧
    heap vote_gate_example !! 3%nat = Some A ∧
    state_ d = kNormalState ∧ Z.abs 4 = index_ A ∧
    well_formed vote_gate_example G d ∧
    AddArg_pre d 4 A ∧
    ∃ s2 G2 d2,
      (AddArg vote_gate_example 4%nat 4 3%nat ≫= λ s1, AddArg s1 4%nat (-4) 3%nat)
        = Ok s2 ∧
      gate_at s2 4%nat G2 d2 ∧
      state_ d2 = kNormalState ∧ args_ d2 ≠ ∅.
Proof.
  eexists _, _, _.
  split; [split; reflexivity|]. split; [reflexivity|].
  split; [reflexivity|]. split; [reflexivity|].
  split; [apply vote_gate_example_well_formed; split; reflexivity|].
  split; [repeat split; by_computation|].
  eexists _, _, _.
  split; [vm_compute; reflexivity|].
  split; [split; reflexivity|].
  split; [reflexivity|by_computation].
Qed.

(** ** How the operations change the store *)

Lemma lookup_upd_inv p f s q n' :
  heap (upd p f s) !! q = Some n' →
  ∃ n, heap s !! q = Some n ∧ n' = if decide (p = q) then f n else n.
Proof.
  rewrite lookup_upd. case_decide as E.
  - destruct (heap s !! q) as [n|]; simpl; [|done]. intros [= <-]. by exists n.
  - intros Hq. by exists n'.
Qed.

Lemma gate_at_upd_parents_inv p f s g G' d :
  gate_at (upd p (set_parents f) s) g G' d →
  ∃ G, gate_at s g G d ∧ index_ G = index_ G'.
Proof.
  intros [E K]. apply lookup_upd_inv in E as (G & HG & ->).
  exists G. case_decide; simpl in *; done.
Qed.

Lemma gate_at_upd_gate_inv g0 f s g G' d' :
  gate_at (upd_gate g0 f s) g G' d' →
  ∃ G d, gate_at s g G d ∧ index_ G = index_ G' ∧
         d' = if decide (g0 = g) then f d else d.
Proof.
  intros [E K]. apply lookup_upd_inv in E as (G & HG & ->).
  case_decide; simpl in *.
  - destruct (kind G) as [| |d] eqn:EG; try done. injection K as <-. by exists G, d.
  - by exists G, d'.
Qed.

Lemma EraseParent_inv s p index s' :
  EraseParent s p index = Ok s' →
  s' = upd p (set_parents (λ m, linear_map.erase m index)) s.
Proof.
  unfold EraseParent. intros (n & _ & H)%bind_Ok.
  apply bind_Ok in H as ([] & _ & [= <-]). done.
Qed.

Lemma AddParent_inv s p gate s' :
  AddParent s p gate = Ok s' →
  ∃ f, s' = upd p (set_parents f) s.
Proof.
  unfold AddParent. intros ([G d] & _ & H)%bind_Ok.
  apply bind_Ok in H as (n & _ & H).
  apply bind_Ok in H as ([] & _ & [= <-]). by eexists.
Qed.

(** Whatever holds through every change of a parent map holds through the
    bookkeeping of parents. *)
Lemma EraseParents_preserves (P : Pdag → Prop) :
  (∀ s p f, P s → P (upd p (set_parents f) s)) →
  ∀ l s index s', EraseParents s l index = Ok s' → P s → P s'.
Proof.
  intros HP. induction l as [|p L IH]; intros s index s'; cbn [EraseParents].
  - by intros [= <-].
  - intros (s1 & H1 & H2)%bind_Ok Hs. apply EraseParent_inv in H1 as ->.
    eapply IH; [done|]. by apply HP.
Qed.

Lemma AddParents_preserves (P : Pdag → Prop) :
  (∀ s p f, P s → P (upd p (set_parents f) s)) →
  ∀ l s gate s', AddParents s l gate = Ok s' → P s → P s'.
Proof.
  intros HP. induction l as [|p L IH]; intros s gate s'; cbn [AddParents].
  - by intros [= <-].
  - intros (s1 & H1 & H2)%bind_Ok Hs. apply AddParent_inv in H1 as (f & ->).
    eapply IH; [done|]. by apply HP.
Qed.

Lemma InsertArg_inv s g index arg s' :
  InsertArg s g index arg = Ok s' →
  ∃ A f, heap s !! arg = Some A ∧
    s' = upd arg (set_parents f)
           (upd_gate g (emplace_arg (kind A) index arg)
              (upd_gate g (insert_index index) s)).
Proof.
  unfold InsertArg. intros (A & HA%get_node_Ok & H)%bind_Ok.
  apply AddParent_inv in H as (f & ->). by exists A, f.
Qed.

Lemma Node_new_inv s k p s' :
  Node_new s k = Ok (p, s') →
  node_index_ s < INT_MAX ∧
  p = length (heap s) ∧
  s' = set_heap (heap s ++ [mkNode [] (node_index_ s + 1) 0 (0, 0, 0) 0 0 0 k])
         (set_node_index (node_index_ s + 1) s).
Proof.
  unfold Node_new, NodeIndexGenerator.
  intros ([i s1] & H1 & H2)%bind_Ok.
  apply bind_Ok in H1 as ([] & Hc%check_Ok%bool_decide_eq_true & [= <- <-]).
  injection H2 as <- <-. done.
Qed.

(** ** Argument sets stay sound *)

Lemma no_complement_pair_subseteq (a b : gset Z) :
  a ⊆ b → no_complement_pair b → no_complement_pair a.
Proof. intros Hab Hb i Hi [H1 H2]. apply (Hb i Hi). split; by apply Hab. Qed.

Lemma args_bounded_subseteq bound (a b : gset Z) :
  a ⊆ b → args_bounded bound b → args_bounded bound a.
Proof. intros Hab Hb i Hi. by apply Hb, Hab. Qed.

Lemma args_bounded_mono bound bound' (a : gset Z) :
  bound ≤ bound' → args_bounded bound a → args_bounded bound' a.
Proof. intros Hle Ha i Hi. specialize (Ha i Hi). lia. Qed.

Lemma no_complement_pair_insert i (a : gset Z) :
  - i ∉ a → no_complement_pair a → no_complement_pair ({[i]} ∪ a).
Proof.
  intros Hni Ha k Hk [H1 H2].
  apply elem_of_union in H1 as [H1%elem_of_singleton|H1];
    apply elem_of_union in H2 as [H2%elem_of_singleton|H2].
  - lia.
  - subst. done.
  - apply Hni. by replace (- i) with k by lia.
  - by apply (Ha k Hk).
Qed.

Lemma args_bounded_insert bound i (a : gset Z) :
  Z.abs i ≤ bound → args_bounded bound a → args_bounded bound ({[i]} ∪ a).
Proof.
  intros Hi Ha k [->%elem_of_singleton|Hk]%elem_of_union; [done|by apply Ha].
Qed.

Lemma no_complement_pair_invert (a : gset Z) :
  no_complement_pair a → no_complement_pair (set_map Z.opp a).
Proof.
  intros Ha k Hk [H1 H2].
  apply (proj1 (set_map_opp_elem _ _)) in H1.
  apply (proj1 (set_map_opp_elem _ _)) in H2.
  rewrite Z.opp_involutive in H2. by apply (Ha k Hk).
Qed.

Lemma args_bounded_invert bound (a : gset Z) :
  args_bounded bound a → args_bounded bound (set_map Z.opp a).
Proof.
  intros Ha k Hk. apply (proj1 (set_map_opp_elem _ _)) in Hk.
  specialize (Ha _ Hk). lia.
Qed.

Lemma sound_upd_parents s p f :
  arguments_sound s → arguments_sound (upd p (set_parents f) s).
Proof.
  intros (Hg & Hn & Hz). split; [|split; [|done]].
  - intros g G' d (G & HG & _)%gate_at_upd_parents_inv. by apply (Hg g G d).
  - intros q n' (n & Hq & ->)%lookup_upd_inv.
    specialize (Hn q n Hq). by case_decide.
Qed.

Lemma sound_upd_gate s g f :
  arguments_sound s →
  (∀ G d, gate_at s g G d →
          no_complement_pair (args_ (f d)) ∧
          args_bounded (node_index_ s) (args_ (f d))) →
  arguments_sound (upd_gate g f s).
Proof.
  intros (Hg & Hn & Hz) Hf. split; [|split; [|done]].
  - intros g' G' d' (G & d & HG & _ & ->)%gate_at_upd_gate_inv.
    case_decide as E.
    + subst. by apply (Hf G d).
    + by apply (Hg g' G d).
  - intros q n' (n & Hq & ->)%lookup_upd_inv.
    specialize (Hn q n Hq). by case_decide.
Qed.

(** An update that only takes arguments away. *)
Lemma sound_upd_gate_shrink s g f :
  arguments_sound s → (∀ d, args_ (f d) ⊆ args_ d) →
  arguments_sound (upd_gate g f s).
Proof.
  intros Hs Hf. apply sound_upd_gate; [done|].
  intros G d HG. destruct Hs as [Hg _]. destruct (Hg g G d HG) as [H1 H2].
  split.
  - by apply (no_complement_pair_subseteq _ (args_ d)).
  - by apply (args_bounded_subseteq _ _ (args_ d)).
Qed.

Lemma sound_graph_fields s s' :
  heap s' = heap s → node_index_ s' = node_index_ s →
  arguments_sound s → arguments_sound s'.
Proof.
  intros Hh Hi (Hg & Hn & Hz). split; [|split; [|by rewrite Hi]].
  - intros g G d HG. rewrite Hi. apply (Hg g G d).
    unfold gate_at in *. by rewrite <- Hh.
  - intros p n Hp. rewrite Hi. apply (Hn p n). by rewrite <- Hh.
Qed.

Lemma sound_Node_new s k p s' :
  Node_new s k = Ok (p, s') →
  (∀ d, k = KGate d → args_ d = ∅) →
  arguments_sound s → arguments_sound s'.
Proof.
  intros (Hmax & -> & ->)%Node_new_inv Hk (Hg & Hn & Hz).
  assert (Hlook : ∀ q n, heap (set_heap (heap s ++ [mkNode [] (node_index_ s + 1) 0 (0, 0, 0) 0 0 0 k])
                                 (set_node_index (node_index_ s + 1) s)) !! q = Some n →
            heap s !! q = Some n ∨
            n = mkNode [] (node_index_ s + 1) 0 (0, 0, 0) 0 0 0 k).
  { intros q n. simpl. intros [Hq|[_ Hq]]%lookup_app_Some; [by left|right].
    apply list_lookup_singleton_Some in Hq as [_ <-]. done. }
  split; [|split]; simpl; [| |lia].
  - intros g G d [HG K]. apply Hlook in HG as [HG| ->].
    + destruct (Hg g G d) as [H1 H2]; [done|]. split; [done|].
      apply (args_bounded_mono (node_index_ s)); [lia|done].
    + simpl in K. rewrite (Hk d K). split.
      * intros i _ [Hi _]. by apply not_elem_of_empty in Hi.
      * intros i Hi. by apply not_elem_of_empty in Hi.
  - intros q n [Hq| ->]%Hlook; simpl; [|lia].
    specialize (Hn q n Hq). lia.
Qed.

Lemma sound_EraseParents s l index s' :
  EraseParents s l index = Ok s' → arguments_sound s → arguments_sound s'.
Proof.
  apply (EraseParents_preserves arguments_sound).
  intros s0 p f. apply sound_upd_parents.
Qed.

Lemma sound_AddParents s l gate s' :
  AddParents s l gate = Ok s' → arguments_sound s → arguments_sound s'.
Proof.
  apply (AddParents_preserves arguments_sound).
  intros s0 p f. apply sound_upd_parents.
Qed.

Lemma sound_InsertArg s g index arg s' :
  InsertArg s g index arg = Ok s' →
  (∀ G d, gate_at s g G d → - index ∉ args_ d) →
  Z.abs index ≤ node_index_ s →
  arguments_sound s → arguments_sound s'.
Proof.
  intros (A & f & HA & ->)%InsertArg_inv Hni Hb Hs.
  apply sound_upd_parents, sound_upd_gate_shrink;
    [|intros d; by destruct (kind A)].
  apply sound_upd_gate; [done|].
  intros G d HG. destruct Hs as [Hg _]. destruct (Hg g G d HG) as [H1 H2].
  simpl. split.
  - apply no_complement_pair_insert; [by apply (Hni G)|done].
  - by apply args_bounded_insert.
Qed.

Lemma sound_EraseAllArgs s g s' :
  EraseAllArgs s g = Ok s' → arguments_sound s → arguments_sound s'.
Proof.
  unfold EraseAllArgs. intros ([G d] & _ & H)%bind_Ok Hs.
  apply bind_Ok in H as (s1 & H1 & [= <-]).
  apply sound_upd_gate_shrink.
  - by apply (sound_EraseParents _ _ _ _ H1).
  - intros d0. simpl. apply empty_subseteq.
Qed.

Lemma sound_MakeConstant s g state s' :
  MakeConstant s g state = Ok s' → arguments_sound s → arguments_sound s'.
Proof.
  unfold MakeConstant. intros ([G d] & _ & H)%bind_Ok Hs.
  apply bind_Ok in H as ([] & _ & H).
  apply sound_EraseAllArgs in H; [done|].
  by apply sound_upd_gate_shrink.
Qed.

Lemma args_erase_index index d : args_ (erase_index index d) ⊆ args_ d.
Proof.
  unfold erase_index. repeat case_match; simpl; apply subseteq_difference_l; done.
Qed.

Lemma sound_EraseArg s g index s' :
  EraseArg s g index = Ok s' → arguments_sound s → arguments_sound s'.
Proof.
  unfold EraseArg. intros ([G d] & _ & H)%bind_Ok Hs.
  apply bind_Ok in H as ([] & _ & H).
  destruct (linear_map.find (all_args d) index) as [child|]; [|done].
  apply EraseParent_inv in H as ->.
  apply sound_upd_parents, sound_upd_gate_shrink; [done|].
  intros d0. apply args_erase_index.
Qed.

Lemma sound_InvertArgs s g s' :
  InvertArgs s g = Ok s' → arguments_sound s → arguments_sound s'.
Proof.
  unfold InvertArgs. intros ([G d] & _ & [= <-])%bind_Ok Hs.
  apply sound_upd_gate; [done|]. intros G0 d0 HG0.
  destruct Hs as [Hg _]. destruct (Hg g G0 d0 HG0) as [H1 H2]. split.
  - by apply no_complement_pair_invert.
  - by apply args_bounded_invert.
Qed.

Lemma sound_NullGateRegistrar s gate constant s' :
  NullGateRegistrar s gate constant = Ok s' → arguments_sound s → arguments_sound s'.
Proof.
  unfold NullGateRegistrar. intros ([G d] & _ & H)%bind_Ok Hs.
  apply bind_Ok in H as ([] & _ & H).
  destruct (negb (register_null_gates_ s)); [by injection H as <-|].
  destruct constant; injection H as <-; by apply (sound_graph_fields s).
Qed.

Lemma sound_type s g t s' :
  type s g t = Ok s' → arguments_sound s → arguments_sound s'.
Proof.
  unfold type. intros ([G d] & _ & H)%bind_Ok Hs.
  assert (arguments_sound (upd_gate g (set_type t) s))
    by by apply sound_upd_gate_shrink.
  case_bool_decide.
  - by apply sound_NullGateRegistrar in H.
  - by injection H as <-.
Qed.

Lemma sound_vote_number s g number s' :
  vote_number s g number = Ok s' → arguments_sound s → arguments_sound s'.
Proof.
  unfold vote_number. intros ([G d] & _ & [= <-])%bind_Ok Hs.
  by apply sound_upd_gate_shrink.
Qed.

Lemma sound_ProcessVoteGateComplementArg s g index s' :
  ProcessVoteGateComplementArg s g index = Ok s' →
  arguments_sound s → arguments_sound s'.
Proof.
  unfold ProcessVoteGateComplementArg. intros ([G d] & _ & H)%bind_Ok Hs.
  apply bind_Ok in H as (s1 & H1%sound_EraseArg & H); [|done].
  apply bind_Ok in H as ([G1 d1] & _ & H).
  case_bool_decide; injection H as <-; by apply sound_upd_gate_shrink.
Qed.

Lemma sound_ProcessComplementArg s g index s' :
  ProcessComplementArg s g index = Ok s' →
  arguments_sound s → arguments_sound s'.
Proof.
  unfold ProcessComplementArg. intros ([G d] & _ & H)%bind_Ok Hs.
  destruct (type_ d); try done;
    try (by apply sound_MakeConstant in H);
    by apply sound_ProcessVoteGateComplementArg in H.
Qed.

(** The gate data at [g] through the bookkeeping of parents. *)
Lemma gate_at_parents_preserved g d s :
  (∃ G, gate_at s g G d) →
  ∀ p f, ∃ G, gate_at (upd p (set_parents f) s) g G d.
Proof.
  intros [G HG] p f.
  destruct (gate_at_upd_parents p f s g G d HG) as (G' & HG' & _). by exists G'.
Qed.

Lemma sound_ProcessVoteGateDuplicateArg s g G d index s' :
  gate_at s g G d → index ∈ args_ d →
  ProcessVoteGateDuplicateArg s g index = Ok s' →
  arguments_sound s → arguments_sound s'.
Proof.
  intros HG Hin. unfold ProcessVoteGateDuplicateArg.
  rewrite (proj2 (get_gate_Ok _ _ _ _) HG). cbn [mbind Res_bind].
  intros H Hs.
  pose proof Hs as (Hg & Hn & Hz). destruct (Hg g G d HG) as [Hpair Hbound].
  case_bool_decide as Hk1; [by injection H as <-|].
  case_bool_decide as Hkn; [injection H as <-; by apply sound_upd_gate_shrink|].
  apply bind_Ok in H as ([h s1] & Hnew & H).
  apply bind_Ok in H as ([GH dH] & HH%get_gate_Ok & H).
  apply bind_Ok in H as (s3 & H3 & H).
  apply bind_Ok in H as (s4 & H4 & H).
  pose proof Hnew as Hs1. apply sound_Node_new in Hs1; [|by intros ? [= <-]|done].
  unfold Gate_new in Hnew. apply Node_new_inv in Hnew as (Hmax & -> & ->).
  set (s1 := set_heap _ _) in *.
  assert (Hidx1 : node_index_ s1 = node_index_ s + 1) by done.
  assert (HiH : index_ GH = node_index_ s + 1).
  { destruct HH as [E _]. unfold s1 in E. simpl in E.
    rewrite lookup_app_r, Nat.sub_diag in E by done. by injection E as <-. }
  set (s2 := upd_gate (length (heap s)) (vote_helper d index) s1) in *.
  assert (Hs2 : arguments_sound s2).
  { apply sound_upd_gate; [done|]. intros G' d' _. simpl. split.
    - apply (no_complement_pair_subseteq _ (args_ d)); [|done].
      apply subseteq_difference_l. done.
    - apply (args_bounded_subseteq _ _ (args_ d)); [apply subseteq_difference_l; done|].
      apply (args_bounded_mono (node_index_ s)); [lia|done]. }
  assert (Hs3 : arguments_sound s3) by by apply (sound_AddParents _ _ _ _ H3).
  assert (Hs4 : arguments_sound s4) by by apply (sound_EraseParents _ _ _ _ H4).
  assert (Hi4 : node_index_ s4 = node_index_ s + 1).
  { assert (Hi3 : node_index_ s3 = node_index_ s + 1).
    { exact (AddParents_preserves (λ x, node_index_ x = node_index_ s + 1)
               (λ _ _ _ E, E) _ _ _ _ H3 eq_refl). }
    exact (EraseParents_preserves (λ x, node_index_ x = node_index_ s + 1)
             (λ _ _ _ E, E) _ _ _ _ H4 Hi3). }
  set (s5 := upd_gate g (vote_residue index) s4) in *.
  assert (Hs5 : arguments_sound s5).
  { apply sound_upd_gate; [done|]. intros G' d' _. simpl. split.
    - intros k Hk [H1%elem_of_singleton H2%elem_of_singleton]. lia.
    - intros k ->%elem_of_singleton. rewrite Hi4. specialize (Hbound _ Hin). clear -Hbound. lia. }
  specialize (Hbound _ Hin).
  apply sound_InsertArg in H; [done| |simpl; rewrite Hi4, HiH; clear -Hz; lia|done].
  intros G5 d5 (G4 & d4 & _ & _ & ->)%gate_at_upd_gate_inv.
  rewrite decide_True by done. simpl.
  rewrite not_elem_of_singleton. rewrite HiH. clear -Hbound. lia.
Qed.

Lemma sound_ProcessDuplicateArg s g G d index s' :
  gate_at s g G d → index ∈ args_ d →
  ProcessDuplicateArg s g index = Ok s' →
  arguments_sound s → arguments_sound s'.
Proof.
  intros HG Hin. unfold ProcessDuplicateArg.
  rewrite (proj2 (get_gate_Ok _ _ _ _) HG). cbn [mbind Res_bind].
  intros H Hs.
  destruct (type_ d); try done; try (by injection H as <-).
  - by apply (sound_ProcessVoteGateDuplicateArg s g G d index).
  - by apply sound_MakeConstant in H.
Qed.

Lemma sound_AddArg s g index arg s' :
  AddArg s g index arg = Ok s' → arguments_sound s → arguments_sound s'.
Proof.
  unfold AddArg, AddArgWith.
  intros ([G d] & HG%get_gate_Ok & H)%bind_Ok Hs.
  apply bind_Ok in H as (A & HA%get_node_Ok & H).
  apply bind_Ok in H as ([] & Hpre%AddArg_asserts_Ok & H).
  case_bool_decide as Hi.
  - by apply (sound_ProcessDuplicateArg s g G d index).
  - case_bool_decide as Hni.
    + by apply sound_ProcessComplementArg in H.
    + apply sound_InsertArg in H; [done| |  |done].
      * intros G' d' HG'. by destruct (gate_at_fun _ _ _ _ _ _ HG HG') as [_ <-].
      * destruct Hpre as (_ & -> & _). destruct Hs as (_ & Hn & _). by apply (Hn arg).
Qed.

Lemma sound_mutate s m s' :
  mutate s m = Ok s' → arguments_sound s → arguments_sound s'.
Proof.
  destruct m; simpl.
  - intros ([p s1] & H & [= <-])%bind_Ok. apply (sound_Node_new _ _ _ _ H).
    by intros d [= <-].
  - apply sound_AddArg.
  - apply sound_EraseArg.
  - apply sound_EraseAllArgs.
  - apply sound_MakeConstant.
  - apply sound_InvertArgs.
  - apply sound_type.
  - apply sound_vote_number.
Qed.

Lemma sound_Pdag_new s : Pdag_new = Ok s → arguments_sound s.
Proof.
  intros [= <-]. split; [|split]; [| |simpl; lia].
  - intros g G d [HG K]. destruct g as [|g]; simpl in HG; [|done].
    injection HG as <-. done.
  - intros p n Hp. destruct p as [|p]; simpl in Hp; [|done].
    injection Hp as <-. simpl. lia.
Qed.

Lemma sound_GatherVariable s e v s' :
  GatherVariable s e = Ok (v, s') → arguments_sound s → arguments_sound s'.
Proof.
  unfold GatherVariable. intros ([p s1] & H & [= <- <-])%bind_Ok Hs.
  apply (sound_graph_fields s1); [done..|].
  apply (sound_Node_new _ _ _ _ H); [|done]. by intros d [=].
Qed.

Lemma reachable_sound ph s : reachable ph s → arguments_sound s.
Proof.
  induction 1 as [s H|s e v s' _ IH H|s _ IH|s m s' _ IH H].
  - by apply sound_Pdag_new.
  - by apply (sound_GatherVariable s e v s').
  - done.
  - by apply (sound_mutate s m s').
Qed.

(** ** Every public operation keeps the argument sets sound *)

(** *** Operations that are runs of mutations *)

Lemma step_once s m s' : mutate s m = Ok s' → rtc step s s'.
Proof. intros H. apply rtc_once. by exists m. Qed.

Lemma steps_Gate_new s t p s' : Gate_new s t = Ok (p, s') → rtc step s s'.
Proof. intros H. apply (step_once s (MGate t)). cbn [mutate]. by rewrite H. Qed.

Lemma steps_AddArg s g index arg s' : AddArg s g index arg = Ok s' → rtc step s s'.
Proof. apply (step_once s (MAddArg g index arg)). Qed.

Lemma steps_EraseArg s g index s' : EraseArg s g index = Ok s' → rtc step s s'.
Proof. apply (step_once s (MEraseArg g index)). Qed.

Lemma steps_EraseAllArgs s g s' : EraseAllArgs s g = Ok s' → rtc step s s'.
Proof. apply (step_once s (MEraseAllArgs g)). Qed.

Lemma steps_MakeConstant s g state s' : MakeConstant s g state = Ok s' → rtc step s s'.
Proof. apply (step_once s (MMakeConstant g state)). Qed.

Lemma steps_InvertArgs s g s' : InvertArgs s g = Ok s' → rtc step s s'.
Proof. apply (step_once s (MInvertArgs g)). Qed.

Lemma steps_type s g t s' : type s g t = Ok s' → rtc step s s'.
Proof. apply (step_once s (MType g t)). Qed.

Lemma steps_vote_number s g number s' : vote_number s g number = Ok s' → rtc step s s'.
Proof. apply (step_once s (MVoteNumber g number)). Qed.

Lemma steps_Ok s s' : Ok s = Ok s' → rtc step s s'.
Proof. by intros [= <-]. Qed.

Lemma steps_then s s1 s' : rtc step s s1 → rtc step s1 s' → rtc step s s'.
Proof. intros H1 H2. by etrans. Qed.

Create HintDb steps.
#[local] Hint Resolve steps_Gate_new steps_AddArg steps_EraseArg steps_EraseAllArgs
  steps_MakeConstant steps_InvertArgs steps_type steps_vote_number steps_Ok
  : steps.

(** [AddArg(arg, complement)] is [AddArg] of the index it computes. *)
Lemma AddArgNode_steps s g arg complement s' :
  AddArgNode s g arg complement = Ok s' → rtc step s s'.
Proof.
  unfold AddArgNode, AddArgNodeWith. intros (A & _ & H)%bind_Ok.
  by apply (steps_AddArg s g (literal A complement) arg).
Qed.

(** [TransferArg] is [EraseArg], then [AddArg] on the recipient. *)
Lemma TransferArg_steps s g index recipient s' :
  TransferArg s g index recipient = Ok s' → rtc step s s'.
Proof.
  unfold TransferArg. intros (arg & _ & H)%bind_Ok.
  apply bind_Ok in H as (s1 & H1 & H2).
  apply (steps_then s s1); eauto with steps.
Qed.

(** [ShareArg] is [AddArg] on the recipient. *)
Lemma ShareArg_steps s g index recipient s' :
  ShareArg s g index recipient = Ok s' → rtc step s s'.
Proof.
  unfold ShareArg. intros (arg & _ & H)%bind_Ok. eauto with steps.
Qed.

(** [InvertArg] is [EraseArg], then [AddArg] of the complement. *)
Lemma InvertArg_steps s g existing_arg s' :
  InvertArg s g existing_arg = Ok s' → rtc step s s'.
Proof.
  unfold InvertArg. intros (arg & _ & H)%bind_Ok.
  apply bind_Ok in H as (s1 & H1 & H2).
  apply (steps_then s s1); eauto with steps.
Qed.

Lemma AddArgs_steps l s g s' : AddArgs s g l = Ok s' → rtc step s s'.
Proof.
  revert s. induction l as [|[index arg] l IH]; intros s; cbn [AddArgs].
  - eauto with steps.
  - intros (s1 & H1 & H)%bind_Ok. apply bind_Ok in H as ([G1 d1] & _ & H).
    apply (steps_then s s1); [eauto with steps|].
    case_bool_decide; eauto with steps.
Qed.

(** [CoalesceGate] is a run of [AddArg], then [EraseArg]. *)
Lemma CoalesceGate_steps s g arg_gate s' :
  CoalesceGate s g arg_gate = Ok s' → rtc step s s'.
Proof.
  unfold CoalesceGate. intros ([G d] & _ & H)%bind_Ok.
  apply bind_Ok in H as ([A a] & _ & H).
  apply bind_Ok in H as ([] & _ & H).
  apply bind_Ok in H as (s1 & H1%AddArgs_steps & H).
  apply bind_Ok in H as ([G1 d1] & _ & H).
  apply (steps_then s s1); [done|].
  case_bool_decide; eauto with steps.
Qed.

(** [JoinNullGate] is [EraseArg], then [AddArg] of the argument of the
    NULL gate. *)
Lemma JoinNullGate_steps s g index s' :
  JoinNullGate s g index = Ok s' → rtc step s s'.
Proof.
  unfold JoinNullGate. intros (null_gate & _ & H)%bind_Ok.
  apply bind_Ok in H as (N & _ & H).
  destruct (kind N) as [| |n]; [eauto with steps..|].
  case_bool_decide; [|eauto with steps].
  destruct (all_args n) as [|[arg_index arg] [|]]; [done| |done].
  apply bind_Ok in H as (s1 & H1 & H2).
  apply (steps_then s s1); eauto with steps.
Qed.

Lemma RemoveConstantArg_steps s g index state s' :
  RemoveConstantArg s g index state = Ok s' → rtc step s s'.
Proof.
  unfold RemoveConstantArg. intros (s1 & H1 & H)%bind_Ok.
  apply bind_Ok in H as ([G1 d1] & _ & H).
  apply (steps_then s s1); [eauto with steps|].
  case_bool_decide; eauto with steps.
Qed.

Lemma ProcessXorConstantArg_steps xor_type s g index state s' :
  ProcessXorConstantArg xor_type s g index state = Ok s' → rtc step s s'.
Proof.
  unfold ProcessXorConstantArg. intros (s1 & H1 & H)%bind_Ok.
  apply bind_Ok in H as ([G1 d1] & _ & H).
  apply (steps_then s s1); [eauto with steps|].
  destruct (elements (args_ d1)) as [|survivor [|]]; eauto with steps.
Qed.

#[local] Hint Resolve RemoveConstantArg_steps ProcessXorConstantArg_steps : steps.

Lemma ProcessTrueArg_steps xor_type s g index s' :
  ProcessTrueArg xor_type s g index = Ok s' → rtc step s s'.
Proof.
  unfold ProcessTrueArg. intros ([G d] & _ & H)%bind_Ok.
  destruct (type_ d); eauto with steps.
  apply bind_Ok in H as (s1 & H1 & H).
  apply bind_Ok in H as (s2 & H2 & H).
  apply bind_Ok in H as ([G2 d2] & _ & H).
  apply (steps_then s s1); [eauto with steps|].
  apply (steps_then s1 s2); [eauto with steps|].
  repeat case_bool_decide; eauto with steps.
Qed.

Lemma ProcessFalseArg_steps xor_type s g index s' :
  ProcessFalseArg xor_type s g index = Ok s' → rtc step s s'.
Proof.
  unfold ProcessFalseArg. intros ([G d] & _ & H)%bind_Ok.
  destruct (type_ d); eauto with steps.
  apply bind_Ok in H as (s1 & H1 & H).
  apply bind_Ok in H as ([G1 d1] & _ & H).
  apply (steps_then s s1); [eauto with steps|].
  repeat case_bool_decide; eauto with steps.
Qed.

(** [ProcessConstantArg] is a run of [EraseArg], [MakeConstant] and
    changes of type and vote number, whatever type the XOR row chooses. *)
Lemma ProcessConstantArg_steps xor_type s g arg state s' :
  ProcessConstantArg xor_type s g arg state = Ok s' → rtc step s s'.
Proof.
  unfold ProcessConstantArg. intros (sign & _ & H)%bind_Ok.
  apply bind_Ok in H as (A & _ & H). cbn zeta in H.
  destruct (if bool_decide (sign * index_ A < 0) then negb state else state).
  - by apply ProcessTrueArg_steps in H.
  - by apply ProcessFalseArg_steps in H.
Qed.

(** The destructor is [EraseAllArgs]. *)
Lemma Gate_destroy_steps s g s' : Gate_destroy s g = Ok s' → rtc step s s'.
Proof.
  unfold Gate_destroy. intros ([G d] & _ & H)%bind_Ok.
  apply bind_Ok in H as ([] & _ & H). eauto with steps.
Qed.

Lemma sound_steps s s' : rtc step s s' → arguments_sound s → arguments_sound s'.
Proof.
  induction 1 as [s|s s1 s' [m Hm] _ IH]; [done|].
  intros Hs. apply IH. by apply (sound_mutate s m s1).
Qed.

(** *** Operations on other members *)

(** An assignment to a member of a node that is neither its index nor
    its derived part. *)
Lemma sound_upd_scratch s p f :
  (∀ n, index_ (f n) = index_ n) → (∀ n, kind (f n) = kind n) →
  arguments_sound s → arguments_sound (upd p f s).
Proof.
  intros Hi Hk (Hg & Hn & Hz). split; [|split; [|done]].
  - intros g G' d [HG K]. apply lookup_upd_inv in HG as (G & HG & ->).
    apply (Hg g G d). split; [done|]. case_decide; [|done]. by rewrite <- Hk.
  - intros q n' (n & Hq & ->)%lookup_upd_inv.
    specialize (Hn q n Hq). case_decide; [|done]. by rewrite Hi.
Qed.

Lemma sound_upd_gate_same s g f :
  (∀ d, args_ (f d) = args_ d) →
  arguments_sound s → arguments_sound (upd_gate g f s).
Proof.
  intros Hf Hs. apply sound_upd_gate_shrink; [done|]. intros d. by rewrite Hf.
Qed.

(** [Node_Visit] stores the node that [Visit] returns: it differs from
    the node visited in its visits only. *)
Lemma Visit_visits n time b n' :
  Visit n time = Ok (b, n') → n' = set_visits (visits_ n') n.
Proof.
  unfold Visit. intros ([] & _ & H)%bind_Ok.
  destruct (visits_ n) as [[v0 v1] v2].
  repeat case_bool_decide; by injection H as <- <-.
Qed.

Lemma sound_Clone s g c s' :
  Clone s g = Ok (c, s') → arguments_sound s → arguments_sound s'.
Proof.
  unfold Clone. intros ([G d] & HG%get_gate_Ok & H)%bind_Ok Hs.
  apply bind_Ok in H as ([c0 s1] & H1 & H).
  apply bind_Ok in H as (s3 & H3 & [= <- <-]).
  apply sound_AddParents in H3; [done|].
  destruct (Hs) as (Hg & _ & _). destruct (Hg g G d HG) as [Hpair Hbound].
  unfold Gate_new in H1.
  pose proof (Node_new_inv _ _ _ _ H1) as (_ & _ & Hs1).
  apply sound_upd_gate.
  - apply (sound_Node_new _ _ _ _ H1); [|done]. by intros d0 [= <-].
  - intros C c1 _. cbn [clone_from args_]. split; [done|].
    apply (args_bounded_mono (node_index_ s)); [|done].
    rewrite Hs1. cbn [node_index_ set_heap set_node_index]. lia.
Qed.

Lemma sound_operate s o s' :
  operate s o = Ok s' → arguments_sound s → arguments_sound s'.
Proof.
  destruct o; cbn [operate].
  - intros ([p s1] & H & [= <-])%bind_Ok.
    apply (sound_Node_new _ _ _ _ H). by intros d [=].
  - intros ([p s1] & H & [= <-])%bind_Ok.
    apply (sound_Node_new _ _ _ _ H). by intros d [= <-].
  - intros ([c s1] & H & [= <-])%bind_Ok. by apply (sound_Clone s g c).
  - intros H%Gate_destroy_steps. by apply sound_steps.
  - unfold order. intros (n & _ & [= <-])%bind_Ok. by apply sound_upd_scratch.
  - unfold opti_value. intros (n & _ & [= <-])%bind_Ok. by apply sound_upd_scratch.
  - unfold Node_Visit. intros (n & _ & H)%bind_Ok.
    apply bind_Ok in H as ([b n'] & _ & [= <-]). by apply sound_upd_scratch.
  - unfold Node_ClearVisits. intros (n & _ & [= <-])%bind_Ok.
    by apply sound_upd_scratch.
  - unfold Node_AddCount. intros (n & _ & [= <-])%bind_Ok.
    apply sound_upd_scratch; intros n0; by destruct positive.
  - unfold Node_ResetCount. intros (n & _ & [= <-])%bind_Ok.
    by apply sound_upd_scratch.
  - apply sound_type.
  - apply sound_vote_number.
  - unfold mark. intros ([G d] & _ & [= <-])%bind_Ok. by apply sound_upd_gate_same.
  - unfold descendant. intros ([G d] & _ & [= <-])%bind_Ok.
    by apply sound_upd_gate_same.
  - unfold ancestor. intros ([G d] & _ & [= <-])%bind_Ok.
    by apply sound_upd_gate_same.
  - unfold Gate_min_time. intros ([G d] & _ & H)%bind_Ok.
    apply bind_Ok in H as ([] & _ & [= <-]). by apply sound_upd_gate_same.
  - unfold Gate_max_time. intros ([G d] & _ & H)%bind_Ok.
    apply bind_Ok in H as ([] & _ & [= <-]). by apply sound_upd_gate_same.
  - unfold coherent. intros ([G d] & _ & [= <-])%bind_Ok.
    by apply sound_upd_gate_same.
  - unfold module. intros ([G d] & _ & H)%bind_Ok.
    apply bind_Ok in H as ([] & _ & [= <-]). by apply sound_upd_gate_same.
  - apply sound_AddArg.
  - intros H%AddArgNode_steps. by apply sound_steps.
  - intros H%TransferArg_steps. by apply sound_steps.
  - intros H%ShareArg_steps. by apply sound_steps.
  - apply sound_InvertArgs.
  - intros H%InvertArg_steps. by apply sound_steps.
  - intros H%CoalesceGate_steps. by apply sound_steps.
  - intros H%JoinNullGate_steps. by apply sound_steps.
  - intros H%ProcessConstantArg_steps. by apply sound_steps.
  - apply sound_EraseArg.
  - apply sound_EraseAllArgs.
  - apply sound_MakeConstant.
  - unfold root. intros ([G d] & _ & [= <-])%bind_Ok. by apply sound_graph_fields.
  - intros [= <-]. by apply sound_graph_fields.
Qed.

Lemma observable_sound s : observable s → arguments_sound s.
Proof.
  induction 1 as [ph s H|s o s' _ IH H].
  - by apply (reachable_sound ph).
  - by apply (sound_operate s o s').
Qed.

Lemma operations_observable s os s' :
  observable s → operations s os = Ok s' → observable s'.
Proof.
  revert s. induction os as [|o os IH]; intros s Hs; cbn [operations].
  - by intros [= <-].
  - intros (s1 & H1 & H2)%bind_Ok. apply (IH s1); [|done].
    by apply (obs_operate s o s1).
Qed.

(** C2.  In every graph a client can observe - a graph as constructed,
    alone or by the translator, and then any run of the public operations
    of nodes, gates and the graph, the runs of [AddArg] among them - no
    gate holds an argument together with its complement. *)
Theorem observable_no_complement_pair (s : Pdag) :
  observable s → NoComplementPair s.
Proof.
  intros Ho g G d HG.
  destruct (observable_sound s Ho) as [Hg _].
  by destruct (Hg g G d HG).
Qed.

Lemma gather_reachable s es s' :
  reachable Gathering s → gather s es = Ok s' → reachable Gathering s'.
Proof.
  revert s. induction es as [|e es IH]; intros s Hs; cbn [gather].
  - by intros [= <-].
  - intros ([v s1] & H1 & H2)%bind_Ok. apply (IH s1); [|done].
    by apply (reach_gather s e v s1).
Qed.

Lemma mutations_reachable s ms s' :
  reachable Building s → mutations s ms = Ok s' → reachable Building s'.
Proof.
  revert s. induction ms as [|m ms IH]; intros s Hs; cbn [mutations].
  - by intros [= <-].
  - intros (s1 & H1 & H2)%bind_Ok. apply (IH s1); [|done].
    by apply (reach_mutate s m s1).
Qed.

(** What a program of the translator builds is a graph of the life
    described by [reachable]. *)
Lemma build_reachable es ms s : build es ms = Ok s → reachable Building s.
Proof.
  unfold build. intros (s0 & H0 & H)%bind_Ok.
  apply bind_Ok in H as (s1 & H1 & H2).
  apply (mutations_reachable s1 ms); [|done].
  apply reach_build, (gather_reachable s0 es); [|done].
  by apply reach_new.
Qed.

Lemma observable_no_complement_pair_witness : NoComplementPair operated_example.
Proof.
  apply observable_no_complement_pair.
  apply (operations_observable translated_example client_operations).
  - apply (obs_constructed Building).
    apply (build_reachable [10; 11; 12]%nat
             [MGate kAnd; MAddArg 4%nat 2 1%nat; MAddArg 4%nat (-3) 2%nat]).
    vm_compute. reflexivity.
  - vm_compute. reflexivity.
Defined.

(** ** Classes and indices of the nodes *)

Lemma shape_set_parents f n : shape (set_parents f n) = shape n.
Proof. done. Qed.

Lemma shape_set_gate f n : shape (set_gate f n) = shape n.
Proof. unfold shape, class_of. simpl. by destruct (kind n). Qed.

Lemma shapes_upd p f s :
  (∀ n, shape (f n) = shape n) → shape <$> heap (upd p f s) = shape <$> heap s.
Proof.
  intros Hf. rewrite heap_upd.
  rewrite (list_fmap_alter shape f id).
  - by apply list_alter_id.
  - apply Forall_forall. intros n _. apply Hf.
Qed.

Lemma same_shape_refl s : same_shape s s.
Proof. done. Qed.

Lemma same_shape_trans s1 s2 s3 :
  same_shape s1 s2 → same_shape s2 s3 → same_shape s1 s3.
Proof. intros (? & ? & ?) (? & ? & ?). repeat split; congruence. Qed.

Lemma same_shape_upd_parents s0 s p f :
  same_shape s0 s → same_shape s0 (upd p (set_parents f) s).
Proof.
  intros H. apply (same_shape_trans _ s); [done|].
  split; [|done]. apply shapes_upd. intros n. apply shape_set_parents.
Qed.

Lemma same_shape_upd_gate s0 s g f :
  same_shape s0 s → same_shape s0 (upd_gate g f s).
Proof.
  intros H. apply (same_shape_trans _ s); [done|].
  split; [|done]. apply shapes_upd. intros n. apply shape_set_gate.
Qed.

Lemma same_shape_EraseParents s0 s l index s' :
  EraseParents s l index = Ok s' → same_shape s0 s → same_shape s0 s'.
Proof.
  apply (EraseParents_preserves (same_shape s0)).
  intros s1 p f. apply same_shape_upd_parents.
Qed.

Lemma same_shape_AddParents s0 s l gate s' :
  AddParents s l gate = Ok s' → same_shape s0 s → same_shape s0 s'.
Proof.
  apply (AddParents_preserves (same_shape s0)).
  intros s1 p f. apply same_shape_upd_parents.
Qed.

Lemma same_shape_InsertArg s0 s g index arg s' :
  InsertArg s g index arg = Ok s' → same_shape s0 s → same_shape s0 s'.
Proof.
  intros (A & f & _ & ->)%InsertArg_inv H.
  by apply same_shape_upd_parents, same_shape_upd_gate, same_shape_upd_gate.
Qed.

Lemma same_shape_EraseAllArgs s0 s g s' :
  EraseAllArgs s g = Ok s' → same_shape s0 s → same_shape s0 s'.
Proof.
  unfold EraseAllArgs. intros ([G d] & _ & H)%bind_Ok Hs.
  apply bind_Ok in H as (s1 & H1 & [= <-]).
  apply same_shape_upd_gate. by apply (same_shape_EraseParents _ _ _ _ _ H1).
Qed.

Lemma same_shape_MakeConstant s0 s g state s' :
  MakeConstant s g state = Ok s' → same_shape s0 s → same_shape s0 s'.
Proof.
  unfold MakeConstant. intros ([G d] & _ & H)%bind_Ok Hs.
  apply bind_Ok in H as ([] & _ & H).
  apply (same_shape_EraseAllArgs s0) in H; [done|].
  by apply same_shape_upd_gate.
Qed.

Lemma same_shape_EraseArg s0 s g index s' :
  EraseArg s g index = Ok s' → same_shape s0 s → same_shape s0 s'.
Proof.
  unfold EraseArg. intros ([G d] & _ & H)%bind_Ok Hs.
  apply bind_Ok in H as ([] & _ & H).
  destruct (linear_map.find (all_args d) index) as [child|]; [|done].
  apply EraseParent_inv in H as ->.
  by apply same_shape_upd_parents, same_shape_upd_gate.
Qed.

Lemma same_shape_InvertArgs s0 s g s' :
  InvertArgs s g = Ok s' → same_shape s0 s → same_shape s0 s'.
Proof.
  unfold InvertArgs. intros ([G d] & _ & [= <-])%bind_Ok Hs.
  by apply same_shape_upd_gate.
Qed.

Lemma same_shape_NullGateRegistrar s0 s gate constant s' :
  NullGateRegistrar s gate constant = Ok s' → same_shape s0 s → same_shape s0 s'.
Proof.
  unfold NullGateRegistrar. intros ([G d] & _ & H)%bind_Ok Hs.
  apply bind_Ok in H as ([] & _ & H).
  destruct (negb (register_null_gates_ s)); [by injection H as <-|].
  destruct constant; injection H as <-; done.
Qed.

Lemma same_shape_type s0 s g t s' :
  type s g t = Ok s' → same_shape s0 s → same_shape s0 s'.
Proof.
  unfold type. intros ([G d] & _ & H)%bind_Ok Hs.
  assert (same_shape s0 (upd_gate g (set_type t) s))
    by by apply same_shape_upd_gate.
  case_bool_decide.
  - by apply (same_shape_NullGateRegistrar s0) in H.
  - by injection H as <-.
Qed.

Lemma same_shape_vote_number s0 s g number s' :
  vote_number s g number = Ok s' → same_shape s0 s → same_shape s0 s'.
Proof.
  unfold vote_number. intros ([G d] & _ & [= <-])%bind_Ok Hs.
  by apply same_shape_upd_gate.
Qed.

Lemma same_shape_ProcessComplementArg s0 s g index s' :
  ProcessComplementArg s g index = Ok s' → same_shape s0 s → same_shape s0 s'.
Proof.
  unfold ProcessComplementArg. intros ([G d] & _ & H)%bind_Ok Hs.
  destruct (type_ d); try done;
    try (by apply (same_shape_MakeConstant s0) in H).
  unfold ProcessVoteGateComplementArg in H.
  apply bind_Ok in H as ([G0 d0] & _ & H).
  apply bind_Ok in H as (s1 & H1 & H).
  apply (same_shape_EraseArg s0) in H1; [|done].
  apply bind_Ok in H as ([G1 d1] & _ & H).
  case_bool_decide; injection H as <-; by apply same_shape_upd_gate.
Qed.

(** *** New nodes *)

Lemma grows_refl s : grows s s.
Proof. exists 0%nat. simpl. rewrite app_nil_r, Z.add_0_r. done. Qed.

Lemma same_shape_grows s s' : same_shape s s' → grows s s'.
Proof.
  intros (H1 & H2 & H3). exists 0%nat. simpl.
  rewrite app_nil_r, Z.add_0_r. done.
Qed.

Lemma grows_same_shape s1 s2 s3 : grows s1 s2 → same_shape s2 s3 → grows s1 s3.
Proof.
  intros (K & H1 & H2 & H3) (E1 & E2 & E3). exists K.
  repeat split; congruence.
Qed.

Lemma Gate_new_grows s t p s' : Gate_new s t = Ok (p, s') → grows s s'.
Proof.
  unfold Gate_new. intros (_ & _ & ->)%Node_new_inv.
  exists 1%nat. simpl. rewrite fmap_app. simpl.
  rewrite Z.add_0_r. done.
Qed.

Lemma ProcessDuplicateArg_grows s g index s' :
  ProcessDuplicateArg s g index = Ok s' → grows s s'.
Proof.
  unfold ProcessDuplicateArg. intros ([G d] & _ & H)%bind_Ok.
  destruct (type_ d); try done; try (injection H as <-; apply grows_refl).
  - unfold ProcessVoteGateDuplicateArg in H.
    apply bind_Ok in H as ([G0 d0] & _ & H).
    case_bool_decide; [injection H as <-; apply grows_refl|].
    case_bool_decide.
    { injection H as <-. apply same_shape_grows. by apply same_shape_upd_gate. }
    apply bind_Ok in H as ([h s1] & Hnew%Gate_new_grows & H).
    apply bind_Ok in H as ([GH dH] & _ & H).
    apply bind_Ok in H as (s3 & H3 & H).
    apply bind_Ok in H as (s4 & H4 & H).
    apply (grows_same_shape s s1); [done|].
    apply (same_shape_InsertArg s1) in H; [done|].
    apply same_shape_upd_gate.
    apply (same_shape_EraseParents s1 _ _ _ _ H4).
    apply (same_shape_AddParents s1 _ _ _ _ H3).
    by apply same_shape_upd_gate.
  - apply same_shape_grows. by apply (same_shape_MakeConstant s) in H.
Qed.

Lemma AddArg_grows s g index arg s' :
  AddArg s g index arg = Ok s' → grows s s'.
Proof.
  unfold AddArg, AddArgWith.
  intros ([G d] & _ & H)%bind_Ok.
  apply bind_Ok in H as (A & _ & H).
  apply bind_Ok in H as ([] & _ & H).
  case_bool_decide; [by apply ProcessDuplicateArg_grows in H|].
  apply same_shape_grows.
  case_bool_decide.
  - by apply (same_shape_ProcessComplementArg s) in H.
  - by apply (same_shape_InsertArg s) in H.
Qed.

Lemma mutate_grows s m s' : mutate s m = Ok s' → grows s s'.
Proof.
  destruct m; simpl.
  - intros ([p s1] & H & [= <-])%bind_Ok. by apply Gate_new_grows in H.
  - apply AddArg_grows.
  - intros H. apply same_shape_grows. by apply (same_shape_EraseArg s) in H.
  - intros H. apply same_shape_grows. by apply (same_shape_EraseAllArgs s) in H.
  - intros H. apply same_shape_grows. by apply (same_shape_MakeConstant s) in H.
  - intros H. apply same_shape_grows. by apply (same_shape_InvertArgs s) in H.
  - intros H. apply same_shape_grows. by apply (same_shape_type s) in H.
  - intros H. apply same_shape_grows. by apply (same_shape_vote_number s) in H.
Qed.

(** ** The layout of a graph *)

Lemma layout_lookup V K p c i :
  layout V K !! p = Some (c, i) →
  i = Z.of_nat p + 1 ∧
  ((p = 0%nat ∧ c = CConstant) ∨
   ((1 ≤ p ≤ V)%nat ∧ c = CVariable) ∨
   ((V < p)%nat ∧ c = CGate)).
Proof.
  unfold layout. destruct p as [|p]; simpl.
  - intros [= <- <-]. split; [done|]. by left.
  - intros [H|[Hlen H]]%lookup_app_Some.
    + apply list_lookup_fmap_Some in H as (k & [= -> ->] & [-> Hk]%lookup_seq).
      split; [lia|]. right; left. split; [lia|done].
    + rewrite length_fmap, length_seq in Hlen, H.
      apply list_lookup_fmap_Some in H as (k & [= -> ->] & [-> Hk]%lookup_seq).
      split; [lia|]. right; right. split; [lia|done].
Qed.

Lemma layout_variable V K i :
  2 ≤ i < 2 + Z.of_nat V → layout V K !! Z.to_nat (i - 1) = Some (CVariable, i).
Proof.
  intros Hi. unfold layout.
  replace (Z.to_nat (i - 1)) with (S (Z.to_nat (i - 2))) by lia. simpl.
  rewrite lookup_app_l by (rewrite length_fmap, length_seq; lia).
  rewrite list_lookup_fmap, lookup_seq_lt by lia. simpl.
  do 2 f_equal. lia.
Qed.

Lemma filter_variable_shape (l : list Node) :
  length (filter (λ n, is_variable n = true) l) =
  length (filter (λ sh : Class * Z, sh.1 = CVariable) (shape <$> l)).
Proof.
  induction l as [|n l IH]; [done|]. rewrite fmap_cons.
  destruct (kind n) eqn:E.
  - rewrite !filter_cons_False; [done| |]; unfold shape, class_of, is_variable;
      rewrite E; simpl; congruence.
  - rewrite !filter_cons_True; [simpl; by rewrite IH| |];
      unfold shape, class_of, is_variable; by rewrite E.
  - rewrite !filter_cons_False; [done| |]; unfold shape, class_of, is_variable;
      rewrite E; simpl; congruence.
Qed.

Lemma filter_fmap_all {A} (P : Class * Z → Prop) `{∀ x, Decision (P x)}
    (f : A → Class * Z) (l : list A) :
  (∀ x, P (f x)) → filter P (f <$> l) = f <$> l.
Proof.
  intros HP. induction l as [|x l IH]; [done|].
  rewrite fmap_cons, filter_cons_True by done. by rewrite IH.
Qed.

Lemma filter_fmap_none {A} (P : Class * Z → Prop) `{∀ x, Decision (P x)}
    (f : A → Class * Z) (l : list A) :
  (∀ x, ¬ P (f x)) → filter P (f <$> l) = [].
Proof.
  intros HP. induction l as [|x l IH]; [done|].
  rewrite fmap_cons, filter_cons_False by done. by rewrite IH.
Qed.

Lemma layout_variables V K :
  length (filter (λ sh : Class * Z, sh.1 = CVariable) (layout V K)) = V.
Proof.
  unfold layout. rewrite filter_cons_False by (simpl; congruence).
  rewrite filter_app, filter_fmap_all, filter_fmap_none; [| simpl; congruence | done].
  by rewrite app_nil_r, length_fmap, length_seq.
Qed.

Lemma laid_out_num_variables s V K :
  shape <$> heap s = layout V K → num_variables s = V.
Proof.
  intros H. unfold num_variables.
  by rewrite filter_variable_shape, H, layout_variables.
Qed.

Lemma laid_out_new s : Pdag_new = Ok s → laid_out Gathering s.
Proof. intros [= <-]. by exists 0%nat, 0%nat. Qed.

Lemma laid_out_gather s e v s' :
  laid_out Gathering s → GatherVariable s e = Ok (v, s') → laid_out Gathering s'.
Proof.
  intros (V & K & Hsh & Hi & Hc & HK). specialize (HK eq_refl). subst K.
  unfold GatherVariable, Variable_new.
  intros ([p s1] & (_ & _ & ->)%Node_new_inv & [= <- <-])%bind_Ok.
  exists (S V), 0%nat. cbn [heap set_heap set_basic_events].
  rewrite fmap_app, Hsh.
  split; [|split; [simpl; lia|done]].
  unfold layout. rewrite seq_S, fmap_app. simpl. rewrite !app_nil_r.
  do 2 f_equal. unfold shape, class_of. simpl. do 2 f_equal. lia.
Qed.

Lemma laid_out_build s : laid_out Gathering s → laid_out Building s.
Proof. intros (V & K & ? & ? & ? & ?). by exists V, K. Qed.

Lemma laid_out_grows s s' :
  laid_out Building s → grows s s' → laid_out Building s'.
Proof.
  intros (V & K & Hsh & Hi & Hc & _) (K' & Hsh' & Hi' & Hc').
  exists V, (K + K')%nat. split; [|split; [lia|split; [congruence|done]]].
  rewrite Hsh', Hsh. unfold layout. simpl. f_equal.
  rewrite <- app_assoc. f_equal.
  rewrite seq_app, fmap_app. f_equal.
  change (0 + K)%nat with K.
  replace (seq K K') with ((λ k, K + k)%nat <$> seq 0 K')
    by (rewrite fmap_add_seq; f_equal; lia).
  rewrite <- list_fmap_compose.
  apply list_fmap_ext. intros _ k _. simpl. f_equal. lia.
Qed.

Lemma reachable_laid_out ph s : reachable ph s → laid_out ph s.
Proof.
  induction 1 as [s H|s e v s' _ IH H|s _ IH|s m s' _ IH H].
  - by apply laid_out_new.
  - by apply (laid_out_gather s e v).
  - by apply laid_out_build.
  - apply (laid_out_grows s); [done|]. by apply (mutate_grows s m).
Qed.

Lemma laid_out_lookup ph s p n :
  laid_out ph s → heap s !! p = Some n →
  index_ n = Z.of_nat p + 1 ∧
  ((p = 0%nat ∧ class_of n = CConstant) ∨
   ((1 ≤ p ≤ num_variables s)%nat ∧ class_of n = CVariable) ∨
   ((num_variables s < p)%nat ∧ class_of n = CGate)).
Proof.
  intros (V & K & Hsh & _) Hn.
  rewrite (laid_out_num_variables s V K Hsh).
  apply (layout_lookup V K p (class_of n) (index_ n)).
  rewrite <- Hsh, list_lookup_fmap, Hn. done.
Qed.

(** C5.  In every graph built by the translator and mutated through its
    gates: the constant node has index 1 and is the only constant; the
    index generator returns a value above every index of the graph, and
    above the one it returned before; no mutation lowers the allocator;
    indices are unique; the variable indices are exactly the block
    [2, 2+V), V being the number of variables; and every gate index is at
    least 2+V. *)
Theorem Pdag_index_blocks (ph : Phase) (s : Pdag) :
  reachable ph s →
  (∃ c, heap s !! constant_ s = Some c ∧ kind c = KConstant ∧ index_ c = 1) ∧
  (∀ p n, heap s !! p = Some n → is_constant n = true → p = constant_ s) ∧
  (∀ i s1, NodeIndexGenerator s = Ok (i, s1) →
     (∀ p n, heap s !! p = Some n → index_ n < i) ∧
     (∀ j s2, NodeIndexGenerator s1 = Ok (j, s2) → i < j)) ∧
  (∀ m s', mutate s m = Ok s' → node_index_ s ≤ node_index_ s') ∧
  (∀ p q n m, heap s !! p = Some n → heap s !! q = Some m →
              index_ n = index_ m → p = q) ∧
  (∀ p n, heap s !! p = Some n → is_variable n = true →
          2 ≤ index_ n < 2 + Z.of_nat (num_variables s)) ∧
  (∀ i, 2 ≤ i < 2 + Z.of_nat (num_variables s) →
        ∃ p n, heap s !! p = Some n ∧ is_variable n = true ∧ index_ n = i) ∧
  (∀ p n, heap s !! p = Some n → is_gate n = true →
          2 + Z.of_nat (num_variables s) ≤ index_ n).
Proof.
  intros Hr. pose proof (reachable_laid_out ph s Hr) as Hl.
  pose proof Hl as (V & K & Hsh & Hi & Hc & _).
  pose proof (laid_out_num_variables s V K Hsh) as HV.
  assert (Hlen : length (heap s) = S (V + K)).
  { rewrite <- (length_fmap shape), Hsh. unfold layout. simpl.
    by rewrite length_app, !length_fmap, !length_seq. }
  split; [|split; [|split; [|split; [|split; [|split; [|split]]]]]].
  - destruct (heap s !! 0%nat) as [c|] eqn:E.
    + destruct (laid_out_lookup ph s 0%nat c Hl E) as (Hi0 & [[_ Hk]|[[? _]|[? _]]]);
        try lia.
      exists c. rewrite Hc. split; [done|]. split; [|simpl in Hi0; lia].
      unfold class_of in Hk. by destruct (kind c).
    + apply lookup_ge_None in E. lia.
  - intros p n Hn Hk. rewrite Hc.
    destruct (laid_out_lookup ph s p n Hl Hn) as (_ & [[? _]|[[_ Hcl]|[_ Hcl]]]);
      [done| |]; unfold class_of, is_constant in *; by destruct (kind n).
  - intros i s1. unfold NodeIndexGenerator.
    intros ([] & _ & [= <- <-])%bind_Ok. split.
    + intros p n Hn. destruct (laid_out_lookup ph s p n Hl Hn) as (-> & _).
      apply lookup_lt_Some in Hn. lia.
    + intros j s2 ([] & _ & [= <- <-])%bind_Ok. simpl. lia.
  - intros m s' (K' & _ & -> & _)%mutate_grows. lia.
  - intros p q n m Hn Hm.
    destruct (laid_out_lookup ph s p n Hl Hn) as (-> & _).
    destruct (laid_out_lookup ph s q m Hl Hm) as (-> & _). lia.
  - intros p n Hn Hk.
    destruct (laid_out_lookup ph s p n Hl Hn) as (-> & [[_ Hcl]|[[? _]|[_ Hcl]]]);
      [|lia|]; unfold class_of, is_variable in *; by destruct (kind n).
  - intros i Hi2. rewrite HV in Hi2.
    pose proof (layout_variable V K i Hi2) as Hlay.
    rewrite <- Hsh, list_lookup_fmap in Hlay.
    destruct (heap s !! Z.to_nat (i - 1)) as [n|] eqn:E; [|done].
    injection Hlay as Hcl Hidx. exists (Z.to_nat (i - 1)), n.
    split; [done|]. split; [|done].
    unfold class_of, is_variable in *. by destruct (kind n).
  - intros p n Hn Hk.
    destruct (laid_out_lookup ph s p n Hl Hn) as (-> & [[_ Hcl]|[[_ Hcl]|[? _]]]);
      [| |lia]; unfold class_of, is_gate in *; by destruct (kind n).
Qed.

Lemma Pdag_index_blocks_witness :
  num_variables vote_gate_example = 3%nat ∧
  (∀ p n, heap vote_gate_example !! p = Some n → is_variable n = true →
          2 ≤ index_ n < 5) ∧
  (∀ p n, heap vote_gate_example !! p = Some n → is_gate n = true →
          5 ≤ index_ n).
Proof.
  destruct (Pdag_index_blocks Building vote_gate_example)
    as (_ & _ & _ & _ & _ & Hvar & _ & Hgate).
  - apply (build_reachable [10; 11; 12]%nat
             [MGate kVote; MVoteNumber 4%nat 2;
              MAddArg 4%nat 2 1%nat; MAddArg 4%nat 3 2%nat]).
    vm_compute. reflexivity.
  - split; [reflexivity|]. split; [exact Hvar|exact Hgate].
Defined.

(** * Further properties of the header *)

(** ** Visits, from any state of a node *)

(** X1.  [Visit(time)] refuses a time that is not positive.  Otherwise it
    returns true exactly when the node had both an enter and an exit time,
    it never overwrites an enter or an exit time that is registered, and
    it changes nothing of the node but its visits. *)
Theorem Visit_write_once (n : Node) (time : Z) :
  (time ≤ 0 → Visit n time = Abort TimePositive) ∧
  (time > 0 →
   ∃ n',
     Visit n time =
       Ok (bool_decide (EnterTime n ≠ 0 ∧ ExitTime n ≠ 0), n') ∧
     (EnterTime n ≠ 0 → EnterTime n' = EnterTime n) ∧
     (ExitTime n ≠ 0 → ExitTime n' = ExitTime n) ∧
     EnterTime n' ≠ 0 ∧
     n' = set_visits (visits_ n') n).
Proof.
  unfold Visit, EnterTime, ExitTime. split.
  - intros Ht. rewrite (bool_decide_eq_false_2 (time > 0)) by lia. reflexivity.
  - intros Ht. rewrite (bool_decide_eq_true_2 (time > 0)) by done.
    cbn [check mbind Res_bind].
    destruct n as [ps ix od [[v0 v1] v2] ov pc nc k]. cbn [visits_ fst snd].
    destruct (decide (v0 = 0)) as [->|H0].
    + rewrite (bool_decide_eq_true_2 (0 = 0)) by done.
      eexists. split.
      { rewrite (bool_decide_eq_false_2 (0 ≠ 0 ∧ _)) by tauto. reflexivity. }
      simpl; repeat split; intros; (done || lia).
    + rewrite (bool_decide_eq_false_2 (v0 = 0)) by done.
      destruct (decide (v1 = 0)) as [->|H1].
      * rewrite (bool_decide_eq_true_2 (0 = 0)) by done.
        eexists. split.
        { rewrite (bool_decide_eq_false_2 (_ ∧ 0 ≠ 0)) by tauto. reflexivity. }
        simpl; repeat split; intros; (done || lia).
      * rewrite (bool_decide_eq_false_2 (v1 = 0)) by done.
        eexists. split.
        { rewrite (bool_decide_eq_true_2 (v0 ≠ 0 ∧ v1 ≠ 0)) by done. reflexivity. }
        simpl; repeat split; intros; (done || lia).
Qed.

Lemma Visit_write_once_witness :
  ∃ n', Visit (mkNode [] 2 0 (4, 0, 0) 0 0 0 KVariable) 9 = Ok (false, n') ∧
        EnterTime n' = 4.
Proof.
  destruct (Visit_write_once (mkNode [] 2 0 (4, 0, 0) 0 0 0 KVariable) 9)
    as (_ & Hpos).
  destruct Hpos as (n' & Hrun & Henter & _); [reflexivity|].
  exists n'. split; [exact Hrun|]. apply Henter. discriminate.
Defined.

Lemma Visits_clear (n : Node) (times : list Z) :
  visits_ n = (0, 0, 0) → Forall (λ t, t > 0) times →
  ∃ bs, Visits n times = Ok (bs, set_visits (visits_after times) n).
Proof.
  intros Hv Ht.
  destruct n as [ps ix od vs ov pc nc k]; simpl in Hv; subst vs.
  destruct times as [|t0 [|t1 times]].
  - by exists [].
  - apply Forall_cons in Ht as [H0 _]. exists [false].
    simpl. unfold Visit. rewrite check_true by (by apply bool_decide_eq_true). done.
  - apply Forall_cons in Ht as [H0 Ht]. apply Forall_cons in Ht as [H1 Ht].
    exists (false :: false :: replicate (length times) true).
    simpl. unfold Visit at 1. rewrite check_true by (by apply bool_decide_eq_true).
    simpl. unfold Visit at 1. simpl.
    rewrite check_true by (by apply bool_decide_eq_true). simpl.
    rewrite bool_decide_eq_false_2 by lia. simpl.
    erewrite (Visits_saturated _ times t0 t1 0) by (done || lia). simpl.
    do 2 f_equal. unfold visits_after, set_visits. simpl.
    destruct times as [|t2 times]; simpl; [done|].
    destruct (last (t2 :: times)) as [u|] eqn:E; [done|].
    by apply last_None in E.
Qed.

Lemma last_positive (times : list Z) :
  Forall (λ t, t > 0) times → times ≠ [] → default 0 (last times) > 0.
Proof.
  intros Ht Hne. destruct (last times) as [u|] eqn:E.
  - apply last_Some_elem_of in E. rewrite Forall_forall in Ht. by apply Ht.
  - by apply last_None in E.
Qed.

(** X2.  After the visits [times] (all positive) of a node whose visits
    were clear, [LastVisit()] is the time of the last visit once there were
    two visits, and 0 before, also after a single visit.  For a variable
    or a constant [min_time()] is the first time and [max_time()] is
    [LastVisit()]; for a gate both are the fields of the gate, which no
    visit changes. *)
Theorem visit_times (n : Node) (times : list Z) :
  visits_ n = (0, 0, 0) →
  Forall (λ t, t > 0) times →
  ∃ bs n',
    Visits n times = Ok (bs, n') ∧
    LastVisit n' =
      (if bool_decide (2 ≤ length times)%nat then default 0 (last times) else 0) ∧
    (is_gate n = false →
     min_time n' = default 0 (head times) ∧ max_time n' = LastVisit n') ∧
    (is_gate n = true →
     min_time n' = min_time n ∧ max_time n' = max_time n).
Proof.
  intros Hv Ht. destruct (Visits_clear n times Hv Ht) as (bs & Hrun).
  exists bs, (set_visits (visits_after times) n).
  split; [done|]. split; [|split].
  - unfold LastVisit, visits_after. cbn [visits_ set_visits fst snd].
    destruct times as [|t0 [|t1 times]]; [done|done|].
    rewrite (bool_decide_eq_true_2 (2 ≤ _)%nat) by (simpl; lia).
    destruct times as [|t2 times].
    + simpl. done.
    + rewrite (bool_decide_eq_true_2 (3 ≤ _)%nat) by (simpl; lia).
      assert (default 0 (last (t0 :: t1 :: t2 :: times)) > 0)
        by by apply last_positive.
      rewrite bool_decide_eq_true_2 by lia. done.
  - intros Hg. unfold min_time, max_time, is_gate in *. simpl.
    destruct (kind n); try done.
    all: split; [|done]; unfold visits_after; simpl; by destruct times.
  - intros Hg. unfold min_time, max_time, is_gate in *. simpl.
    by destruct (kind n).
Qed.

Lemma visit_times_witness :
  ∃ bs n', Visits (mkNode [] 2 0 (0, 0, 0) 0 0 0 KVariable) [5] = Ok (bs, n') ∧
           LastVisit n' = 0 ∧ min_time n' = 5 ∧ max_time n' = 0.
Proof.
  destruct (visit_times (mkNode [] 2 0 (0, 0, 0) 0 0 0 KVariable) [5])
    as (bs & n' & Hrun & Hlast & Hnode & _).
  - reflexivity.
  - repeat constructor.
  - destruct (Hnode eq_refl) as [Hmin Hmax].
    exists bs, n'. split; [exact Hrun|]. split; [exact Hlast|].
    split; [exact Hmin|]. rewrite Hmax. exact Hlast.
Defined.

(** ** Occurrence counts *)

Lemma AddCounts_counts (positives : list bool) (n : Node) :
  pos_count_ (AddCounts n positives) =
    pos_count_ n + Z.of_nat (length (filter (λ b, b = true) positives)) ∧
  neg_count_ (AddCounts n positives) =
    neg_count_ n + Z.of_nat (length (filter (λ b, b = false) positives)) ∧
  AddCounts n positives =
    set_counts (pos_count_ (AddCounts n positives))
               (neg_count_ (AddCounts n positives)) n.
Proof.
  unfold AddCounts. revert n.
  induction positives as [|b bs IH]; intros n.
  - simpl. repeat split; try lia. destruct n; reflexivity.
  - cbn [foldl]. destruct (IH (AddCount b n)) as (Hp & Hq & Hn).
    rewrite Hp, Hq. destruct b.
    + rewrite (filter_cons_True (λ b, b = true)),
        (filter_cons_False (λ b, b = false)) by done.
      split; [|split].
      * cbn [length AddCount pos_count_ neg_count_ set_counts]. lia.
      * cbn [length AddCount pos_count_ neg_count_ set_counts]. lia.
      * etrans; [exact Hn|]. rewrite Hp, Hq. destruct n; reflexivity.
    + rewrite (filter_cons_False (λ b, b = true)),
        (filter_cons_True (λ b, b = false)) by done.
      split; [|split].
      * cbn [length AddCount pos_count_ neg_count_ set_counts]. lia.
      * cbn [length AddCount pos_count_ neg_count_ set_counts]. lia.
      * etrans; [exact Hn|]. rewrite Hp, Hq. destruct n; reflexivity.
Qed.

(** X3.  After [ResetCount()] and the calls [AddCount(b)] for the flags of
    a list (no more of them than an [int] counts), [pos_count()] is the
    number of true flags and [neg_count()] the number of false ones,
    together the number of calls; nothing else of the node changes. *)
Theorem AddCount_tally (n : Node) (positives : list bool) :
  Z.of_nat (length positives) ≤ INT_MAX →
  pos_count_ (AddCounts (ResetCount n) positives) =
    Z.of_nat (length (filter (λ b, b = true) positives)) ∧
  neg_count_ (AddCounts (ResetCount n) positives) =
    Z.of_nat (length (filter (λ b, b = false) positives)) ∧
  pos_count_ (AddCounts (ResetCount n) positives) +
  neg_count_ (AddCounts (ResetCount n) positives) =
    Z.of_nat (length positives) ∧
  AddCounts (ResetCount n) positives =
    set_counts (pos_count_ (AddCounts (ResetCount n) positives))
               (neg_count_ (AddCounts (ResetCount n) positives)) n.
Proof.
  intros _.
  destruct (AddCounts_counts positives (ResetCount n)) as (Hp & Hq & Hn).
  simpl in Hp, Hq.
  split; [done|]. split; [done|]. split; [|by rewrite Hn at 1].
  rewrite Hp, Hq. clear.
  induction positives as [|[] bs IH]; [done| |].
  - rewrite (filter_cons_True (λ b, b = true)),
      (filter_cons_False (λ b, b = false)) by done.
    cbn [length]. lia.
  - rewrite (filter_cons_False (λ b, b = true)),
      (filter_cons_True (λ b, b = false)) by done.
    cbn [length]. lia.
Qed.

Lemma AddCount_tally_witness :
  pos_count_ (AddCounts (ResetCount (mkNode [] 2 0 (0, 0, 0) 0 7 7 KVariable))
                [true; false; true]) = 2.
Proof.
  destruct (AddCount_tally (mkNode [] 2 0 (0, 0, 0) 0 7 7 KVariable)
              [true; false; true]) as (Hp & _).
  - vm_compute. discriminate.
  - exact Hp.
Defined.

(** ** Parent entries *)

Lemma erase_keys_other (m : linear_map.t) (key k : Z) :
  k ≠ key → k ∈ (linear_map.erase m key).*1 ↔ k ∈ m.*1.
Proof.
  intros Hne. induction m as [|[k' v] m IH]; [done|].
  cbn [linear_map.erase]. case_decide as E.
  - subst. rewrite fmap_cons, elem_of_cons. simpl. split; [by right|].
    intros [?|?]; [congruence|done].
  - rewrite !fmap_cons, !elem_of_cons, IH. done.
Qed.

Lemma erase_length (m : linear_map.t) (key : Z) :
  key ∈ m.*1 → S (length (linear_map.erase m key)) = length m.
Proof.
  induction m as [|[k v] m IH]; intros Hin.
  - by apply elem_of_nil in Hin.
  - cbn [linear_map.erase]. case_decide as E; [done|].
    rewrite fmap_cons, elem_of_cons in Hin. simpl in Hin.
    destruct Hin as [?|Hin]; [congruence|]. simpl. by rewrite IH.
Qed.

(** X4.  [EraseParent(index)] on a node without a parent entry for
    [index] fails its assertion.  Otherwise it removes one entry: the
    other keys stay, the map is one entry shorter and, the keys being
    unique, holds no entry for [index] any more; the node is otherwise
    the same and so is every other node. *)
Theorem EraseParent_removes (s : Pdag) (p : ptr) (n : Node) (index : Z) :
  heap s !! p = Some n →
  (index ∉ (parents_ n).*1 → EraseParent s p index = Abort ParentExists) ∧
  (index ∈ (parents_ n).*1 →
   ∃ s' n',
     EraseParent s p index = Ok s' ∧
     heap s' !! p = Some n' ∧
     n' = set_parents (λ _, parents_ n') n ∧
     S (length (parents_ n')) = length (parents_ n) ∧
     (∀ k, k ≠ index → k ∈ (parents_ n').*1 ↔ k ∈ (parents_ n).*1) ∧
     (NoDup (parents_ n).*1 → index ∉ (parents_ n').*1) ∧
     (∀ q, q ≠ p → heap s' !! q = heap s !! q)).
Proof.
  intros Hn. unfold EraseParent.
  rewrite (proj2 (get_node_Ok _ _ _) Hn). cbn [mbind Res_bind].
  unfold linear_map.count. split.
  - intros Hk. rewrite (bool_decide_eq_false_2 _ Hk). reflexivity.
  - intros Hk. rewrite (bool_decide_eq_true_2 _ Hk). cbn [check mbind Res_bind].
    eexists _, (set_parents (λ m, linear_map.erase m index) n).
    split; [reflexivity|]. split; [by apply lookup_upd_eq|].
    split; [done|]. split; [by apply erase_length|].
    split; [intros k Hne; by apply erase_keys_other|].
    split; [apply erase_not_elem|].
    intros q Hq. by apply lookup_upd_ne.
Qed.

Lemma EraseParent_removes_witness :
  ∃ s' n', EraseParent and_gate_example 1%nat 4 = Ok s' ∧
           heap s' !! 1%nat = Some n' ∧ parents_ n' = [].
Proof.
  destruct (EraseParent_removes and_gate_example 1%nat
              (mkNode [(4, 3%nat)] 2 0 (0, 0, 0) 0 0 0 KVariable) 4)
    as (_ & Herase).
  - reflexivity.
  - destruct Herase as (s' & n' & Hrun & Hn' & _ & Hlen & _).
    + vm_compute. apply list_elem_of_here.
    + exists s', n'. split; [exact Hrun|]. split; [exact Hn'|].
      simpl in Hlen. destruct (parents_ n'); [done|discriminate].
Defined.

(** ** More on [Gate::AddArg] *)

Lemma AddArg_asserts_first d index A :
  AddArg_asserts d index A =
    match first_violation d index A with
    | Some e => Abort e
    | None => Ok ()
    end.
Proof.
  unfold AddArg_asserts, first_violation.
  destruct (decide (index = 0)) as [E1|E1].
  { rewrite (bool_decide_eq_false_2 (index ≠ 0)), (bool_decide_eq_true_2 (index = 0)) by tauto.
    reflexivity. }
  rewrite (bool_decide_eq_true_2 (index ≠ 0)), (bool_decide_eq_false_2 (index = 0)) by done.
  cbn [check mbind Res_bind].
  destruct (decide (Z.abs index = index_ A)) as [E2|E2].
  2:{ rewrite (bool_decide_eq_false_2 (Z.abs index = index_ A)),
        (bool_decide_eq_true_2 (Z.abs index ≠ index_ A)) by done. reflexivity. }
  rewrite (bool_decide_eq_true_2 (Z.abs index = index_ A)),
    (bool_decide_eq_false_2 (Z.abs index ≠ index_ A)) by tauto.
  cbn [check mbind Res_bind].
  destruct (decide (state_ d = kNormalState)) as [E3|E3].
  2:{ rewrite (bool_decide_eq_false_2 (state_ d = kNormalState)),
        (bool_decide_eq_true_2 (state_ d ≠ kNormalState)) by done. reflexivity. }
  rewrite (bool_decide_eq_true_2 (state_ d = kNormalState)),
    (bool_decide_eq_false_2 (state_ d ≠ kNormalState)) by tauto.
  cbn [check mbind Res_bind].
  destruct (decide ((type_ d = kNot ∨ type_ d = kNull) ∧ args_ d ≠ ∅)) as [E4|E4].
  { destruct E4 as [Et Ea].
    rewrite (bool_decide_eq_true_2 (type_ d = kNot ∨ type_ d = kNull)),
      (bool_decide_eq_false_2 (args_ d = ∅)),
      (bool_decide_eq_true_2 (_ ∧ args_ d ≠ ∅)) by done. reflexivity. }
  rewrite (bool_decide_eq_false_2 (_ ∧ args_ d ≠ ∅)) by done.
  assert (bool_decide (type_ d = kNot ∨ type_ d = kNull)
          && negb (bool_decide (args_ d = ∅)) = false) as ->.
  { apply andb_false_iff.
    destruct (decide (type_ d = kNot ∨ type_ d = kNull)) as [Et|Et].
    - right. apply negb_false_iff, bool_decide_eq_true.
      destruct (decide (args_ d = ∅)); [done|tauto].
    - left. by apply bool_decide_eq_false. }
  cbn [negb check mbind Res_bind].
  destruct (decide (type_ d = kXor ∧ Z.of_nat (size (args_ d)) > 1)) as [E5|E5].
  { destruct E5 as [Et Ea].
    rewrite (bool_decide_eq_true_2 (type_ d = kXor)),
      (bool_decide_eq_true_2 (Z.of_nat (size (args_ d)) > 1)),
      (bool_decide_eq_true_2 (_ ∧ _ > 1)) by done. reflexivity. }
  rewrite (bool_decide_eq_false_2 (_ ∧ _ > 1)) by done.
  assert (bool_decide (type_ d = kXor)
          && bool_decide (Z.of_nat (size (args_ d)) > 1) = false) as ->.
  { apply andb_false_iff.
    destruct (decide (type_ d = kXor)) as [Et|Et].
    - right. apply bool_decide_eq_false. tauto.
    - left. by apply bool_decide_eq_false. }
  cbn [negb check mbind Res_bind].
  destruct (decide (vote_number_ d < 0)) as [E6|E6].
  - rewrite (bool_decide_eq_false_2 (vote_number_ d >= 0)),
      (bool_decide_eq_true_2 (vote_number_ d < 0)) by lia. reflexivity.
  - rewrite (bool_decide_eq_true_2 (vote_number_ d >= 0)),
      (bool_decide_eq_false_2 (vote_number_ d < 0)) by lia. reflexivity.
Qed.

Lemma first_violation_None d index A :
  first_violation d index A = None ↔ AddArg_pre d index A.
Proof.
  rewrite <- AddArg_asserts_Ok, AddArg_asserts_first.
  destruct (first_violation d index A); split; done.
Qed.

Section MoreDispatch.

Variables duplicate complement : Pdag → ptr → Z → Res Pdag.

(** X5.  A call of [AddArg] that violates a precondition ends in the
    first assertion, in the order of the code, that fails: zero index,
    index not matching the argument, gate not in Normal state, NOT or NULL
    gate not empty, XOR gate with two arguments, negative vote number.
    With none violated the call is its dispatch. *)
Theorem AddArg_first_violation (s : Pdag) (g arg : ptr) (G A : Node) (d : Gate)
    (index : Z) :
  gate_at s g G d →
  heap s !! arg = Some A →
  AddArgWith duplicate complement s g index arg =
    match first_violation d index A with
    | Some e => Abort e
    | None =>
        if bool_decide (index ∈ args_ d) then duplicate s g index
        else if bool_decide (- index ∈ args_ d) then complement s g index
        else InsertArg s g index arg
    end.
Proof.
  intros HG HA. unfold AddArgWith.
  rewrite (proj2 (get_gate_Ok _ _ _ _) HG). cbn [mbind Res_bind].
  rewrite (proj2 (get_node_Ok _ _ _) HA). cbn [mbind Res_bind].
  rewrite AddArg_asserts_first.
  by destruct (first_violation d index A).
Qed.

Lemma AddArgWith_Ok_inv s g index arg s' :
  AddArgWith duplicate complement s g index arg = Ok s' →
  ∃ G d A, gate_at s g G d ∧ heap s !! arg = Some A ∧ AddArg_pre d index A ∧
    (if bool_decide (index ∈ args_ d) then duplicate s g index
     else if bool_decide (- index ∈ args_ d) then complement s g index
     else InsertArg s g index arg) = Ok s'.
Proof.
  unfold AddArgWith. intros ([G d] & HG%get_gate_Ok & H)%bind_Ok.
  apply bind_Ok in H as (A & HA%get_node_Ok & H).
  apply bind_Ok in H as ([] & Hpre%AddArg_asserts_Ok & H).
  by exists G, d, A.
Qed.

Lemma AddArgWith_aborts s g index arg :
  (∀ G d A, gate_at s g G d → heap s !! arg = Some A → ¬ AddArg_pre d index A) →
  ∃ e, AddArgWith duplicate complement s g index arg = Abort e.
Proof.
  intros Hno.
  destruct (AddArgWith duplicate complement s g index arg) as [s'|e] eqn:E;
    [|by exists e].
  apply AddArgWith_Ok_inv in E as (G & d & A & HG & HA & Hpre & _).
  by destruct (Hno G d A).
Qed.

(** X6.  [AddArg] keeps the arity of NOT, NULL and XOR gates.  A call on
    a NOT or NULL gate succeeds only on an empty gate; the gate then holds
    exactly the added index, and every later call of [AddArg] on it fails.
    On an XOR gate with two arguments every call of [AddArg] fails. *)
Theorem AddArg_arity (s : Pdag) (g : ptr) (G : Node) (d : Gate) :
  gate_at s g G d →
  (type_ d = kNot ∨ type_ d = kNull →
   ∀ index arg s',
     AddArgWith duplicate complement s g index arg = Ok s' →
     args_ d = ∅ ∧
     ∃ G' d',
       gate_at s' g G' d' ∧ args_ d' = {[index]} ∧ type_ d' = type_ d ∧
       ∀ index' arg',
         ∃ e, AddArgWith duplicate complement s' g index' arg' = Abort e) ∧
  (type_ d = kXor → (2 ≤ size (args_ d))%nat →
   ∀ index arg,
     ∃ e, AddArgWith duplicate complement s g index arg = Abort e).
Proof.
  intros HG. split.
  - intros Ht index arg s' (G0 & d0 & A & HG0 & HA & Hpre & Hrun)%AddArgWith_Ok_inv.
    destruct (gate_at_fun _ _ _ _ _ _ HG HG0) as [<- <-].
    pose proof Hpre as (_ & _ & _ & Hempty & _). specialize (Hempty Ht).
    split; [done|].
    rewrite Hempty in Hrun.
    rewrite !bool_decide_eq_false_2 in Hrun by apply not_elem_of_empty.
    apply InsertArg_inv in Hrun as (A' & f & HA' & ->).
    assert (A' = A) as -> by congruence.
    set (d1 := emplace_arg (kind A) index arg (insert_index index d)).
    assert (HG1 : ∃ G1, gate_at
              (upd arg (set_parents f)
                 (upd_gate g (emplace_arg (kind A) index arg)
                    (upd_gate g (insert_index index) s))) g G1 d1).
    { eapply gate_at_parents_preserved. eexists.
      by do 2 apply gate_at_upd_gate. }
    destruct HG1 as (G1 & HG1).
    assert (Hargs1 : args_ d1 = {[index]}).
    { unfold d1. destruct (kind A); simpl; rewrite Hempty;
        apply (right_id_L ∅ (∪)). }
    assert (Ht1 : type_ d1 = type_ d) by (unfold d1; by destruct (kind A)).
    exists G1, d1. split; [done|]. split; [done|]. split; [done|].
    intros index' arg'. apply AddArgWith_aborts.
    intros G2 d2 A2 HG2 _ (_ & _ & _ & Hempty2 & _).
    destruct (gate_at_fun _ _ _ _ _ _ HG1 HG2) as [<- <-].
    rewrite Ht1 in Hempty2. specialize (Hempty2 Ht).
    rewrite Hargs1 in Hempty2.
    assert (index ∈ (∅ : gset Z)) as Hin
      by (rewrite <- Hempty2; by apply elem_of_singleton).
    by apply not_elem_of_empty in Hin.
  - intros Ht Hsize index arg. apply AddArgWith_aborts.
    intros G0 d0 A HG0 _ (_ & _ & _ & _ & Hx & _).
    destruct (gate_at_fun _ _ _ _ _ _ HG HG0) as [<- <-].
    specialize (Hx Ht). lia.
Qed.

End MoreDispatch.

Lemma AddArg_first_violation_witness :
  AddArg and_gate_example 3%nat 5 1%nat = Abort IndexMatchesArg.
Proof.
  unfold AddArg.
  erewrite AddArg_first_violation; [|split; reflexivity|reflexivity].
  reflexivity.
Defined.

Lemma AddArg_arity_witness :
  ∃ e, (AddArg not_gate_example 3%nat (-3) 2%nat
        ≫= λ s', AddArg s' 3%nat 2 1%nat) = Abort e.
Proof.
  destruct (AddArg not_gate_example 3%nat (-3) 2%nat) as [s'|e] eqn:E;
    [|by exists e].
  edestruct AddArg_arity
    with (duplicate := ProcessDuplicateArg) (complement := ProcessComplementArg)
         (s := not_gate_example) (g := 3%nat)
    as (Hnot & _); [split; reflexivity|].
  destruct (Hnot (or_introl eq_refl) (-3) 2%nat s' E)
    as (_ & G' & d' & _ & _ & _ & Hlater).
  destruct (Hlater 2 1%nat) as (e & He). exists e. exact He.
Defined.

Lemma all_args_emplace T i c d :
  all_args (emplace_arg T i c d) ≡ₚ (i, c) :: all_args d.
Proof.
  unfold all_args.
  destruct T; cbn [emplace_arg set_args gate_args_ variable_args_ constant_args_];
    unfold linear_map.emplace_back.
  - rewrite !app_assoc. symmetry. apply Permutation_cons_append.
  - rewrite <- (app_assoc _ [(i, c)]), !app_assoc, <- (app_assoc _ [(i, c)]).
    symmetry. apply (Permutation_middle _ (constant_args_ d) (i, c)).
  - rewrite <- (app_assoc _ [(i, c)]). symmetry.
    apply (Permutation_middle (gate_args_ d) _ (i, c)).
Qed.

(** What [AddArg] leaves in the store when it inserts a new argument. *)
Lemma inserted_lookup s g i c G d A f q :
  gate_at s g G d → heap s !! c = Some A →
  let s' := upd c (set_parents f)
              (upd_gate g (emplace_arg (kind A) i c)
                 (upd_gate g (insert_index i) s)) in
  (∀ n, heap s !! q = Some n →
        ∃ n', heap s' !! q = Some n' ∧ index_ n' = index_ n ∧
              parents_ n' = if decide (q = c) then f (parents_ n) else parents_ n) ∧
  (∀ n', heap s' !! q = Some n' →
         ∃ n, heap s !! q = Some n ∧ index_ n' = index_ n ∧
              parents_ n' = if decide (q = c) then f (parents_ n) else parents_ n).
Proof.
  intros HG HA s'. split.
  - intros n Hn.
    destruct (lookup_upd_gate_parents g (insert_index i) s q n Hn)
      as (n1 & Hn1 & Hp1 & Hi1 & _).
    destruct (lookup_upd_gate_parents g (emplace_arg (kind A) i c) _ q n1 Hn1)
      as (n2 & Hn2 & Hp2 & Hi2 & _).
    unfold s'. rewrite lookup_upd, Hn2.
    destruct (decide (c = q)) as [->|Hne].
    + rewrite decide_True by done. eexists. split; [done|]. simpl.
      split; congruence.
    + rewrite decide_False by congruence. eexists. split; [done|].
      split; congruence.
  - intros n' Hn'. unfold s' in Hn'.
    apply lookup_upd_inv in Hn' as (n2 & Hn2 & ->).
    apply lookup_upd_inv in Hn2 as (n1 & Hn1 & ->).
    apply lookup_upd_inv in Hn1 as (n & Hn & ->).
    exists n. split; [done|].
    destruct (decide (c = q)) as [->|Hne].
    + rewrite (decide_True (P := q = q)) by done.
      split; repeat case_decide; done.
    + rewrite (decide_False (P := q = c)) by congruence.
      split; repeat case_decide; done.
Qed.

(** X7.  When [AddArg(i, c)] inserts a new argument into a well-formed
    gate - neither i nor -i is held, the preconditions hold - the call
    succeeds and the gate is well-formed again: argument set and typed
    maps agree, c is a child held once, and the parent entries mirror the
    arguments. *)
Theorem AddArg_insert_well_formed
    (duplicate complement : Pdag → ptr → Z → Res Pdag)
    (s : Pdag) (g c : ptr) (G A : Node) (d : Gate) (i : Z) :
  gate_at s g G d →
  heap s !! c = Some A →
  well_formed s G d →
  AddArg_pre d i A →
  i ∉ args_ d → - i ∉ args_ d →
  ∃ s' G' d',
    AddArgWith duplicate complement s g i c = Ok s' ∧
    gate_at s' g G' d' ∧
    well_formed s' G' d' ∧
    i ∈ args_ d' ∧ c ∈ children d'.
Proof.
  intros HG HA Hwf Hpre Hi Hni.
  pose proof Hpre as (_ & Habs & _).
  assert (Hcn : c ∉ children d).
  { rewrite (well_formed_child s G d c A i) by done. tauto. }
  assert (Hp : index_ G ∉ (parents_ A).*1).
  { by rewrite (wf_parent_symmetry _ _ _ Hwf c A HA). }
  rewrite (AddArgWith_pre _ _ s g c G A d i HG HA Hpre).
  rewrite (bool_decide_eq_false_2 _ Hi), (bool_decide_eq_false_2 _ Hni).
  rewrite (InsertArg_Ok s g i c G d A HG HA Hp).
  set (f := λ m : list (Z * nat), linear_map.emplace_back m (index_ G) g).
  set (d' := emplace_arg (kind A) i c (insert_index i d)).
  set (s' := upd c (set_parents f) _).
  assert (HG' : ∃ G', gate_at s' g G' d' ∧ index_ G' = index_ G).
  { assert (HG0 : gate_at (upd_gate g (emplace_arg (kind A) i c)
                             (upd_gate g (insert_index i) s)) g
                    (set_gate (emplace_arg (kind A) i c)
                       (set_gate (insert_index i) G)) d')
      by (by do 2 apply gate_at_upd_gate).
    destruct (gate_at_upd_parents c f _ g _ _ HG0) as (G' & HG' & Hi' & _).
    by exists G'. }
  destruct HG' as (G' & HG' & HiG').
  assert (Hall : all_args d' ≡ₚ (i, c) :: all_args d).
  { unfold d'. rewrite all_args_emplace. done. }
  assert (Hch : children d' ≡ₚ c :: children d).
  { unfold children. by rewrite Hall. }
  assert (Hargs : args_ d' = {[i]} ∪ args_ d) by (unfold d'; by destruct (kind A)).
  assert (Hlook := λ q, inserted_lookup s g i c G d A f q HG HA).
  exists s', G', d'. split; [done|]. split; [done|]. split; [split|].
  - intros j. rewrite Hargs, Hall, fmap_cons, elem_of_cons, elem_of_union,
      elem_of_singleton. simpl. by rewrite (wf_keys _ _ _ Hwf).
  - intros j p n' Hin Hn'. rewrite Hall in Hin.
    destruct (proj2 (Hlook p) n' Hn') as (n & Hn & -> & _).
    apply elem_of_cons in Hin as [[= -> ->]|Hin].
    + congruence.
    + by apply (wf_magnitude _ _ _ Hwf j p n).
  - intros p Hp'. rewrite Hch in Hp'.
    assert (is_Some (heap s !! p)) as [n Hn].
    { apply elem_of_cons in Hp' as [->|Hp']; [by eexists|].
      by apply (wf_children _ _ _ Hwf). }
    destruct (proj1 (Hlook p) n Hn) as (n' & Hn' & _). by exists n'.
  - rewrite Hch. apply NoDup_cons. split; [done|apply (wf_children_once _ _ _ Hwf)].
  - intros p n' Hn'. rewrite Hch, HiG'.
    destruct (proj2 (Hlook p) n' Hn') as (n & Hn & _ & ->).
    case_decide as E.
    + subst. unfold f, linear_map.emplace_back. rewrite fmap_app. simpl.
      split; [intros _; apply list_elem_of_here|].
      intros _. apply elem_of_app. right. apply list_elem_of_here.
    + rewrite (wf_parent_symmetry _ _ _ Hwf p n Hn), elem_of_cons.
      split; [by right|]. intros [?|?]; [done|done].
  - intros p n' Hn'.
    destruct (proj2 (Hlook p) n' Hn') as (n & Hn & _ & ->).
    case_decide as E.
    + subst. assert (n = A) as -> by congruence.
      unfold f, linear_map.emplace_back. rewrite fmap_app. simpl.
      apply NoDup_app. split; [by apply (wf_parent_map _ _ _ Hwf c)|]. split.
      * intros k Hk Hk'. apply list_elem_of_singleton in Hk'. by subst.
      * apply NoDup_singleton.
    + by apply (wf_parent_map _ _ _ Hwf p).
  - intros p q n' m' Hn' Hm' Heq.
    destruct (proj2 (Hlook p) n' Hn') as (n & Hn & Hin & _).
    destruct (proj2 (Hlook q) m' Hm') as (m & Hm & Him & _).
    apply (wf_index_unique _ _ _ Hwf p q n m); congruence.
  - split.
    + rewrite Hargs. apply elem_of_union_l. by apply elem_of_singleton.
    + rewrite Hch. apply list_elem_of_here.
Qed.

Lemma AddArg_insert_well_formed_witness :
  ∃ s' G' d',
    AddArg and_gate_example 3%nat 3 2%nat = Ok s' ∧
    gate_at s' 3%nat G' d' ∧ well_formed s' G' d'.
Proof.
  edestruct AddArg_insert_well_formed
    with (duplicate := ProcessDuplicateArg) (complement := ProcessComplementArg)
         (s := and_gate_example) (g := 3%nat) (c := 2%nat) (i := 3)
    as (s' & G' & d' & Hrun & HG' & Hwf' & _).
  - split; reflexivity.
  - reflexivity.
  - apply and_gate_example_well_formed. split; reflexivity.
  - repeat split; by_computation.
  - by_computation.
  - by_computation.
  - by exists s', G', d'.
Defined.

(** ** Looking arguments up *)

Lemma find_app (m1 m2 : linear_map.t) (key : Z) :
  linear_map.find (m1 ++ m2) key =
    match linear_map.find m1 key with
    | Some p => Some p
    | None => linear_map.find m2 key
    end.
Proof.
  induction m1 as [|[k v] m1 IH]; [done|].
  cbn [app linear_map.find]. by case_decide.
Qed.

Lemma find_None (m : linear_map.t) (key : Z) :
  linear_map.find m key = None ↔ key ∉ m.*1.
Proof.
  induction m as [|[k v] m IH]; cbn [linear_map.find].
  - split; [intros _; apply not_elem_of_nil|done].
  - rewrite fmap_cons, not_elem_of_cons. simpl. case_decide as E.
    + split; [done|]. intros [? _]. congruence.
    + rewrite IH. split; [intros ?; split; [congruence|done]|by intros [_ ?]].
Qed.

Lemma find_Some_elem (m : linear_map.t) (key : Z) (p : ptr) :
  linear_map.find m key = Some p → (key, p) ∈ m.
Proof.
  induction m as [|[k v] m IH]; cbn [linear_map.find]; [done|].
  case_decide as E.
  - intros [= ->]. subst. apply list_elem_of_here.
  - intros H. apply list_elem_of_further. by apply IH.
Qed.

(** The three lookups of [GetArg] are one lookup in all the arguments. *)
Lemma GetArg_all_args s g G d index :
  gate_at s g G d →
  GetArg s g index =
    if bool_decide (index ∈ args_ d) then
      match linear_map.find (all_args d) index with
      | Some p => Ok p
      | None => Abort BadPointer
      end
    else Abort ArgExists.
Proof.
  intros HG. unfold GetArg.
  rewrite (proj2 (get_gate_Ok _ _ _ _) HG). cbn [mbind Res_bind].
  case_bool_decide; [|done]. cbn [check mbind Res_bind].
  unfold all_args. rewrite !find_app.
  destruct (linear_map.find (gate_args_ d) index); [done|].
  destruct (linear_map.find (variable_args_ d) index); [done|].
  by destruct (linear_map.find (constant_args_ d) index).
Qed.

Lemma keys_all_args d key :
  (key ∉ (all_args d).*1) ↔
  (key ∉ (gate_args_ d).*1) ∧ (key ∉ (variable_args_ d).*1) ∧
  (key ∉ (constant_args_ d).*1).
Proof.
  unfold all_args. rewrite !fmap_app, !not_elem_of_app. done.
Qed.

Lemma find_emplace_new T key p d :
  key ∉ (all_args d).*1 →
  linear_map.find (all_args (emplace_arg T key p d)) key = Some p.
Proof.
  intros (Hg & Hv & Hc)%keys_all_args.
  apply find_None in Hg, Hv, Hc.
  unfold all_args.
  destruct T; cbn [emplace_arg set_args gate_args_ variable_args_ constant_args_];
    unfold linear_map.emplace_back; rewrite !find_app, ?Hg, ?Hv, ?Hc;
    cbn [linear_map.find]; by rewrite decide_True.
Qed.

Lemma find_emplace_other T key p d j :
  j ≠ key →
  linear_map.find (all_args (emplace_arg T key p d)) j =
  linear_map.find (all_args d) j.
Proof.
  intros Hne. unfold all_args.
  destruct T; cbn [emplace_arg set_args gate_args_ variable_args_ constant_args_];
    unfold linear_map.emplace_back; rewrite !find_app;
    cbn [linear_map.find]; rewrite decide_False by congruence;
    repeat case_match; done.
Qed.

(** X8.  On a well-formed gate [GetArg(i)] fails its assertion when i is
    not an argument; when it is, the call returns a child of the gate
    whose index is |i| and which has the gate among its parents, and, the
    argument set holding no complement pair and i not being zero,
    [GetArgSign] of that child is the sign of i. *)
Theorem GetArg_child (s : Pdag) (g : ptr) (G : Node) (d : Gate) (i : Z) :
  gate_at s g G d →
  well_formed s G d →
  (i ∉ args_ d → GetArg s g i = Abort ArgExists) ∧
  (i ∈ args_ d →
   ∃ p n,
     GetArg s g i = Ok p ∧
     heap s !! p = Some n ∧
     p ∈ children d ∧
     index_ n = Z.abs i ∧
     index_ G ∈ (parents_ n).*1 ∧
     (i ≠ 0 → no_complement_pair (args_ d) → GetArgSign s g p = Ok (Z.sgn i))).
Proof.
  intros HG Hwf. rewrite (GetArg_all_args s g G d i HG). split.
  - intros Hi. by rewrite (bool_decide_eq_false_2 _ Hi).
  - intros Hi. rewrite (bool_decide_eq_true_2 _ Hi).
    destruct (linear_map.find (all_args d) i) as [p|] eqn:E.
    2:{ apply find_None in E. by apply (wf_keys _ _ _ Hwf) in Hi. }
    apply find_Some_elem in E.
    assert (Hp : p ∈ children d) by (apply elem_of_children; by exists i).
    destruct (wf_children _ _ _ Hwf p Hp) as (n & Hn).
    pose proof (wf_magnitude _ _ _ Hwf i p n E Hn) as Hm.
    assert (Hpar : index_ G ∈ (parents_ n).*1)
      by by apply (wf_parent_symmetry _ _ _ Hwf p n).
    exists p, n. repeat split; try done.
    intros Hnz Hpair. unfold GetArgSign.
    rewrite (proj2 (get_gate_Ok _ _ _ _) HG). cbn [mbind Res_bind].
    rewrite (proj2 (get_node_Ok _ _ _) Hn). cbn [mbind Res_bind].
    unfold linear_map.count. rewrite (bool_decide_eq_true_2 _ Hpar).
    cbn [check mbind Res_bind]. f_equal. rewrite Hm.
    destruct (decide (0 < i)) as [Hpos|Hneg].
    + rewrite Z.abs_eq by lia. rewrite (bool_decide_eq_true_2 _ Hi). lia.
    + rewrite Z.abs_neq by lia. rewrite bool_decide_eq_false_2; [lia|].
      intros Hin. apply (Hpair (- i)); [lia|]. split; [done|].
      by rewrite Z.opp_involutive.
Qed.

Lemma GetArg_child_witness :
  GetArg and_gate_example 3%nat (-2) = Ok 1%nat.
Proof.
  edestruct GetArg_child with (s := and_gate_example) (g := 3%nat) (i := -2)
    as (_ & Hin).
  { split; reflexivity. }
  { apply and_gate_example_well_formed. split; reflexivity. }
  destruct Hin as (p & n & Hrun & _); [by_computation|].
  rewrite Hrun. vm_compute in Hrun. symmetry. exact Hrun.
Defined.

(** X9.  The wrapper [AddArg(arg, complement)] of a node with a positive
    index cannot fail the two assertions on the index.  When it inserts a
    new argument into a well-formed gate that meets the other
    preconditions, then afterwards [GetArg] of the index passed on returns
    [arg], [GetArgSign(arg)] is -1 for a complement and 1 otherwise, and
    [GetArg] of every argument held before returns what it returned
    before. *)
Theorem AddArg_node_round_trip
    (duplicate complement_rewrite : Pdag → ptr → Z → Res Pdag)
    (s : Pdag) (g arg : ptr) (G A : Node) (d : Gate) (complement : bool) :
  gate_at s g G d →
  heap s !! arg = Some A →
  well_formed s G d →
  0 < index_ A →
  state_ d = kNormalState →
  (type_ d = kNot ∨ type_ d = kNull → args_ d = ∅) →
  (type_ d = kXor → Z.of_nat (size (args_ d)) ≤ 1) →
  vote_number_ d >= 0 →
  literal A complement ∉ args_ d →
  - literal A complement ∉ args_ d →
  ∃ s',
    AddArgNodeWith duplicate complement_rewrite s g arg complement = Ok s' ∧
    GetArg s' g (literal A complement) = Ok arg ∧
    GetArgSign s' g arg = Ok (if complement then -1 else 1) ∧
    (∀ j, j ∈ args_ d → GetArg s' g j = GetArg s g j).
Proof.
  intros HG HA Hwf Hpos Hst Hnn Hx Hv Hi Hni.
  set (i := literal A complement) in *.
  assert (Habs : Z.abs i = index_ A).
  { unfold i, literal. destruct complement; lia. }
  assert (Hpre : AddArg_pre d i A).
  { repeat split; try done. unfold i, literal. destruct complement; lia. }
  assert (Hp : index_ G ∉ (parents_ A).*1).
  { rewrite (well_formed_parent s G d arg A i) by done. tauto. }
  unfold AddArgNodeWith.
  rewrite (proj2 (get_node_Ok _ _ _) HA). cbn [mbind Res_bind]. fold i.
  rewrite (AddArgWith_pre _ _ s g arg G A d i HG HA Hpre).
  rewrite (bool_decide_eq_false_2 _ Hi), (bool_decide_eq_false_2 _ Hni).
  rewrite (InsertArg_Ok s g i arg G d A HG HA Hp).
  set (f := λ m : list (Z * nat), linear_map.emplace_back m (index_ G) g).
  set (d' := emplace_arg (kind A) i arg (insert_index i d)).
  set (s' := upd arg (set_parents f) _).
  assert (HG' : ∃ G', gate_at s' g G' d' ∧ index_ G' = index_ G).
  { assert (HG0 : gate_at (upd_gate g (emplace_arg (kind A) i arg)
                             (upd_gate g (insert_index i) s)) g
                    (set_gate (emplace_arg (kind A) i arg)
                       (set_gate (insert_index i) G)) d')
      by (by do 2 apply gate_at_upd_gate).
    destruct (gate_at_upd_parents arg f _ g _ _ HG0) as (G' & HG' & Hi' & _).
    by exists G'. }
  destruct HG' as (G' & HG' & HiG').
  assert (Hargs : args_ d' = {[i]} ∪ args_ d) by (unfold d'; by destruct (kind A)).
  assert (Hkeys : i ∉ (all_args d).*1) by by rewrite <- (wf_keys _ _ _ Hwf).
  destruct (proj1 (inserted_lookup s g i arg G d A f arg HG HA) A HA)
    as (A' & HA' & HiA' & HpA').
  rewrite decide_True in HpA' by done.
  change (heap s' !! arg = Some A') in HA'.
  exists s'. split; [done|]. split; [|split].
  - rewrite (GetArg_all_args s' g G' d' i HG'), Hargs.
    rewrite bool_decide_eq_true_2
      by (apply elem_of_union_l; by apply elem_of_singleton).
    unfold d'. rewrite find_emplace_new; [done|].
    by destruct (kind A).
  - unfold GetArgSign.
    rewrite (proj2 (get_gate_Ok _ _ _ _) HG'). cbn [mbind Res_bind].
    rewrite (proj2 (get_node_Ok _ _ _) HA'). cbn [mbind Res_bind].
    assert (Hpar : index_ G' ∈ (parents_ A').*1).
    { rewrite HpA', HiG'. unfold f, linear_map.emplace_back.
      rewrite fmap_app. apply elem_of_app. right. apply list_elem_of_here. }
    unfold linear_map.count. rewrite (bool_decide_eq_true_2 _ Hpar).
    cbn [check mbind Res_bind]. f_equal. rewrite HiA', Hargs.
    unfold i, literal in *. destruct complement.
    + rewrite bool_decide_eq_false_2; [done|].
      rewrite not_elem_of_union, not_elem_of_singleton. split; [lia|].
      by rewrite Z.opp_involutive in Hni.
    + rewrite bool_decide_eq_true_2; [done|].
      apply elem_of_union_l. by apply elem_of_singleton.
  - intros j Hj.
    assert (Hne : j ≠ i) by (intros ->; done).
    rewrite (GetArg_all_args s' g G' d' j HG'), (GetArg_all_args s g G d j HG).
    rewrite Hargs, (bool_decide_eq_true_2 _ Hj).
    rewrite bool_decide_eq_true_2 by (by apply elem_of_union_r).
    unfold d'. rewrite find_emplace_other by done.
    by destruct (kind A).
Qed.

Lemma AddArg_node_round_trip_witness :
  ∃ s',
    AddArgNodeWith ProcessDuplicateArg ProcessComplementArg
      and_gate_example 3%nat 2%nat true = Ok s' ∧
    GetArg s' 3%nat (-3) = Ok 2%nat ∧
    GetArgSign s' 3%nat 2%nat = Ok (-1).
Proof.
  edestruct AddArg_node_round_trip
    with (duplicate := ProcessDuplicateArg)
         (complement_rewrite := ProcessComplementArg)
         (s := and_gate_example) (g := 3%nat) (arg := 2%nat) (complement := true)
    as (s' & Hrun & Hget & Hsign & _).
  - split; reflexivity.
  - reflexivity.
  - apply and_gate_example_well_formed. split; reflexivity.
  - by_computation.
  - reflexivity.
  - by_computation.
  - by_computation.
  - by_computation.
  - by_computation.
  - by_computation.
  - by exists s'.
Defined.

(** ** The index generator and the registrar over many calls *)

Lemma set_node_index_same s : set_node_index (node_index_ s) s = s.
Proof. by destruct s. Qed.

Lemma set_node_index_twice i j s :
  set_node_index j (set_node_index i s) = set_node_index j s.
Proof. done. Qed.

(** X10.  While the last index stays within [int], [k] successive requests
    to the generator return the [k] indices that follow the graph's
    [node_index_], in increasing order, and leave the graph with
    [node_index_] advanced by [k] and nothing else changed. *)
Theorem NodeIndices_consecutive (graph : Pdag) (k : nat) :
  node_index_ graph + Z.of_nat k ≤ INT_MAX →
  NodeIndices graph k =
    Ok ((λ j : nat, node_index_ graph + Z.of_nat j) <$> seq 1 k,
        set_node_index (node_index_ graph + Z.of_nat k) graph).
Proof.
  revert graph. induction k as [|k IH]; intros graph Hk.
  - cbn [NodeIndices seq fmap list_fmap].
    by rewrite Nat2Z.inj_0, Z.add_0_r, set_node_index_same.
  - cbn [NodeIndices]. unfold NodeIndexGenerator.
    rewrite (bool_decide_eq_true_2 (node_index_ graph < INT_MAX)) by lia.
    cbn [check mbind Res_bind].
    rewrite IH by (cbn [node_index_ set_node_index]; lia).
    cbn [mbind Res_bind node_index_ set_node_index].
    rewrite set_node_index_twice. f_equal. f_equal.
    + cbn [seq fmap list_fmap]. f_equal.
      rewrite <- (fmap_S_seq 1 k), <- list_fmap_compose.
      apply list_fmap_ext. intros _ j _. cbn. lia.
    + f_equal. lia.
Qed.

Lemma NodeIndices_consecutive_witness :
  NodeIndices and_gate_example 3 =
    Ok ([5; 6; 7], set_node_index 7 and_gate_example).
Proof.
  etrans; [apply (NodeIndices_consecutive and_gate_example 3); by_computation|].
  vm_compute. reflexivity.
Defined.

Lemma gate_at_heap s s' g G d :
  heap s' = heap s → gate_at s g G d → gate_at s' g G d.
Proof. unfold gate_at. by intros ->. Qed.

(** X11.  A run of registrar calls, each on a NULL-type gate of the graph,
    succeeds.  In a graph that registers NULL gates, the gates noted as
    constant are appended to [const_gates_] and the others to
    [null_gates_], each in the order of the calls; in a graph that does
    not, neither list changes.  The nodes, the last index and the flag stay
    as they were. *)
Theorem Registrations_in_order (s : Pdag) (calls : list (ptr * bool)) :
  Forall (λ c, ∃ G d, gate_at s c.1 G d ∧ type_ d = kNull) calls →
  ∃ s',
    Registrations s calls = Ok s' ∧
    heap s' = heap s ∧
    node_index_ s' = node_index_ s ∧
    register_null_gates_ s' = register_null_gates_ s ∧
    const_gates_ s' =
      const_gates_ s ++
        (if register_null_gates_ s
         then (filter (λ c, c.2 = true) calls).*1 else []) ∧
    null_gates_ s' =
      null_gates_ s ++
        (if register_null_gates_ s
         then (filter (λ c, c.2 = false) calls).*1 else []).
Proof.
  revert s. induction calls as [|[gate constant] calls IH]; intros s Hc.
  - exists s. cbn [Registrations]. rewrite filter_nil.
    cbn [fmap list_fmap]. destruct (register_null_gates_ s);
      by rewrite !app_nil_r.
  - apply Forall_cons in Hc as [(G & d & HG & Ht) Hc].
    cbn [fst] in HG. cbn [Registrations]. unfold NullGateRegistrar.
    rewrite (proj2 (get_gate_Ok _ _ _ _) HG). cbn [mbind Res_bind].
    rewrite (bool_decide_eq_true_2 (type_ d = kNull) Ht).
    cbn [check mbind Res_bind].
    destruct (register_null_gates_ s) eqn:Hr; cbn [negb mbind Res_bind].
    + destruct constant.
      * destruct (IH (set_const_gates (const_gates_ s ++ [gate]) s))
          as (s' & Hrun & Hh & Hi & Hf & Hcg & Hng).
        { eapply Forall_impl; [exact Hc|].
          intros c (G' & d' & HG' & Ht'). exists G', d'. split; [|done].
          by apply (gate_at_heap s). }
        exists s'. split; [done|].
        cbn [heap node_index_ register_null_gates_ const_gates_ null_gates_
             set_const_gates] in Hh, Hi, Hf, Hcg, Hng.
        rewrite Hr in Hcg, Hng.
        rewrite filter_cons_True by done.
        rewrite filter_cons_False by done.
        split; [done|]. split; [done|]. split; [congruence|].
        split; [|done]. rewrite Hcg, <- app_assoc. done.
      * destruct (IH (set_null_gates (null_gates_ s ++ [gate]) s))
          as (s' & Hrun & Hh & Hi & Hf & Hcg & Hng).
        { eapply Forall_impl; [exact Hc|].
          intros c (G' & d' & HG' & Ht'). exists G', d'. split; [|done].
          by apply (gate_at_heap s). }
        exists s'. split; [done|].
        cbn [heap node_index_ register_null_gates_ const_gates_ null_gates_
             set_null_gates] in Hh, Hi, Hf, Hcg, Hng.
        rewrite Hr in Hcg, Hng.
        rewrite filter_cons_False by done.
        rewrite filter_cons_True by done.
        split; [done|]. split; [done|]. split; [congruence|].
        split; [done|]. rewrite Hng, <- app_assoc. done.
    + destruct (IH s Hc) as (s' & Hrun & Hh & Hi & Hf & Hcg & Hng).
      rewrite Hr in Hcg, Hng. exists s'.
      split; [done|]. split; [done|]. split; [done|]. split; [congruence|]. done.
Qed.

Lemma Registrations_in_order_witness :
  ∃ s',
    Registrations null_gate_example [(1%nat, true); (1%nat, true)] = Ok s' ∧
    const_gates_ s' = [1%nat; 1%nat] ∧ null_gates_ s' = [].
Proof.
  edestruct Registrations_in_order
    with (s := null_gate_example) (calls := [(1%nat, true); (1%nat, true)])
    as (s' & Hrun & _ & _ & _ & Hcg & Hng).
  - assert (H1 : ∃ G d, gate_at null_gate_example 1%nat G d ∧ type_ d = kNull).
    { eexists _, _. split; [split; reflexivity|reflexivity]. }
    apply Forall_cons_2; [exact H1|].
    apply Forall_cons_2; [exact H1|]. apply Forall_nil_2.
  - exists s'. split; [done|]. split.
    + etrans; [exact Hcg|]. vm_compute. reflexivity.
    + etrans; [exact Hng|]. vm_compute. reflexivity.
Defined.
